(** * Neon Drift vocabulary quiz: a shallow embedding of [src/App.tsx]

    The engine functions of the quiz (list parser, mastery store, word
    sampler, question generator, session state machine, persistence
    loaders) are transcribed as Rocq functions, and the properties of
    the specification are proved about them.

    Conventions of the embedding.
    - A JavaScript string is the list of its UTF-16 code units ([list N]).
    - Integer-valued [number]s (counters, score, energy, seconds,
      timestamps in milliseconds) are [Z]; the values involved stay far
      below 2^53, where double arithmetic on integers is exact.
    - Fractional [number]s (mastery, sampling weights, [Math.random()])
      are rationals [Q]: the arithmetic of the source is read as exact.
    - The mastery mapping [Record<string, WordStat>] is a finite map
      [gmap (list N) WordStat] over the own keys of the object; the
      in-place mutation [stat.x = ...] of a stored record is an insert at
      the record's key.  A word that names a property every object
      inherits ([constructor], [toString], ...) is not a key of such a
      map and is outside the model.
    - Random choices are explicit arguments of the functions using them.
    - Rendering, audio, speech and the writes to [localStorage] do not
      feed back into the engine state and are left out. *)

From Stdlib Require Import ZArith QArith Qround Qminmax Lia Lqa String Ascii DecimalString.
From Stdlib Require Import DecimalNat.
From stdpp Require Import gmap list.

Local Open Scope Z_scope.

(* ===================================================================== *)
(** * Part I: definitions                                                *)
(* ===================================================================== *)

(** ** Strings *)

Abbreviation jsstring := (list N) (only parsing).

(** A string literal, as the list of its code units. *)
Definition str (s : string) : jsstring :=
  map N_of_ascii (list_ascii_of_string s).

(** A value as [JSON.parse] returns it. *)
#[warnings="-register-all"]
Inductive JSValue :=
| JNull
| JBool (b : bool)
| JNum (q : Q)
| JStr (s : jsstring)
| JArr (items : list JSValue)
| JObj (fields : list (jsstring * JSValue)).

Inductive Completion (A : Type) :=
| Normal (a : A)
| Throw.
Arguments Normal {A} a.
Arguments Throw {A}.

(** The platform functions the engine calls but does not define. *)
Class Platform := {
  (** [String.prototype.toLowerCase] *)
  toLowerCase : jsstring -> jsstring;
  (** [JSON.parse]; [Throw] is its [SyntaxError] *)
  JSON_parse : jsstring -> Completion JSValue
}.

(** [WhiteSpace] and [LineTerminator] code units, the ones [trim] strips. *)
Definition isWhite (c : N) : bool :=
  (existsb (N.eqb c)
     [9; 10; 11; 12; 13; 32; 160; 5760; 8232; 8233; 8239; 8287; 12288; 65279]
   || ((8192 <=? c) && (c <=? 8202)))%N.

Fixpoint trimStart (s : jsstring) : jsstring :=
  match s with
  | c :: t => if isWhite c then trimStart t else s
  | [] => []
  end.

Definition trimEnd (s : jsstring) : jsstring := rev (trimStart (rev s)).

Definition trim (s : jsstring) : jsstring := trimEnd (trimStart s).

(** Truthiness of a string: [!s] holds for the empty string only. *)
Definition isEmpty (s : jsstring) : bool :=
  match s with [] => true | _ => false end.

Fixpoint isPrefix (p s : jsstring) : bool :=
  match p, s with
  | [], _ => true
  | a :: p', b :: s' => (a =? b)%N && isPrefix p' s'
  | _ :: _, [] => false
  end.

(** [s.split(sep)] for a non-empty separator: scan left to right, cut at
    every occurrence of [sep] and resume after it.  [skip] counts the code
    units of a matched separator still to be passed over, [cur] holds the
    current piece in reverse. *)
Fixpoint split_go (sep : jsstring) (skip : nat) (cur s : jsstring)
  : list jsstring :=
  match s with
  | [] => [rev cur]
  | c :: t =>
      match skip with
      | S k => split_go sep k cur t
      | O =>
          if isPrefix sep s
          then rev cur :: split_go sep (length sep - 1) [] t
          else split_go sep 0 (c :: cur) t
      end
  end.

Definition split (sep s : jsstring) : list jsstring := split_go sep 0 [] s.

(** [parts.join(sep)] *)
Fixpoint join (sep : jsstring) (parts : list jsstring) : jsstring :=
  match parts with
  | [] => []
  | [p] => p
  | p :: rest => p ++ sep ++ join sep rest
  end.

Definition CR : N := 13.
Definition LF : N := 10.

(** [s.replace(/\r\n/g, "\n")] *)
Fixpoint replace_crlf (s : jsstring) : jsstring :=
  match s with
  | [] => []
  | c :: t =>
      match t with
      | d :: t' =>
          if ((c =? CR) && (d =? LF))%N
          then LF :: replace_crlf t'
          else c :: replace_crlf t
      | [] => [c]
      end
  end.

(** [s.replace(/\r/g, "\n")] *)
Definition replace_cr (s : jsstring) : jsstring :=
  map (fun c => if (c =? CR)%N then LF else c) s.

(** Decimal rendering of an array index inside a template literal. *)
Definition showIndex (n : nat) : jsstring :=
  str (NilEmpty.string_of_uint (Nat.to_uint n)).

(** ** Data model *)

Inductive Stage := load | setup | play | summary.
Inductive Difficulty := easy | normal | hard.
(** [5 | 10 | 20 | "zen"]: minutes, or the untimed mode. *)
Inductive SessionLength := minutes (m : Z) | zen.
Inductive Mode := choice | type.
Inductive Feedback := idle | correct_fb | wrong_fb.
Inductive Rating := know | unsure | neutral.

Record WordEntry := {
  id : jsstring;
  word : jsstring;
  hint : option jsstring
}.

Record WordStat := {
  exposures : Z;
  correct : Z;
  incorrect : Z;
  lastSeen : Z;
  lastMiss : Z;
  mastery : Q
}.

Record Question := {
  entry : WordEntry;
  choices : list WordEntry;
  correctIndex : Z;
  mode : Mode
}.

Record SessionState := {
  timeLeft : Z;
  energy : Z;
  score : Z;
  streak : Z;
  longestStreak : Z;
  combo : Z;
  s_correct : Z;
  s_incorrect : Z
}.

Definition clamp (value min max : Z) : Z := Z.min max (Z.max min value).

(** [clamp] at fractional arguments. *)
Definition clampQ (value min max : Q) : Q := Qmin max (Qmax min value).

(** ** List parser *)

Record ParseResult := {
  entries : list WordEntry;
  emptyCount : Z;
  duplicateCount : Z;
  totalLines : Z
}.

(** The variables the [forEach] callback of [parseLines] closes over. *)
Record ParseAcc := {
  acc_entries : list WordEntry;
  acc_empty : Z;
  acc_dup : Z;
  acc_seen : gset (list N)
}.

Definition sepHint : jsstring := str " - ".

(** One call of the [forEach] callback. *)
Definition parseLine `{Platform} (removeEmpty removeDuplicates : bool)
    (acc : ParseAcc) (index : nat) (line : jsstring) : ParseAcc :=
  let trimmed := trim line in
  let acc1 :=
    if isEmpty trimmed
    then {| acc_entries := acc_entries acc; acc_empty := acc_empty acc + 1;
            acc_dup := acc_dup acc; acc_seen := acc_seen acc |}
    else acc in
  if isEmpty trimmed && removeEmpty then acc1
  else
    match split sepHint trimmed with
    | [] => acc1
    | wordPart :: hintParts =>
        let word := trim wordPart in
        if isEmpty word then acc1
        else
          let key := toLowerCase word in
          if removeDuplicates && bool_decide (key ∈ acc_seen acc1)
          then {| acc_entries := acc_entries acc1; acc_empty := acc_empty acc1;
                  acc_dup := acc_dup acc1 + 1; acc_seen := acc_seen acc1 |}
          else
            let hint := trim (join sepHint hintParts) in
            {| acc_entries :=
                 acc_entries acc1 ++
                 [ {| id := key ++ str "-" ++ showIndex index;
                      word := word;
                      hint := if isEmpty hint then None else Some hint |} ];
               acc_empty := acc_empty acc1;
               acc_dup := acc_dup acc1;
               acc_seen := {[ key ]} ∪ acc_seen acc1 |}
    end.

(** [lines.forEach((line, index) => ...)] from position [index] on. *)
Fixpoint forEachLine `{Platform} (removeEmpty removeDuplicates : bool)
    (acc : ParseAcc) (index : nat) (lines : list jsstring) : ParseAcc :=
  match lines with
  | [] => acc
  | line :: rest =>
      forEachLine removeEmpty removeDuplicates
        (parseLine removeEmpty removeDuplicates acc index line) (S index) rest
  end.

Definition splitLines (rawText : jsstring) : list jsstring :=
  split [LF] (replace_cr (replace_crlf rawText)).

Definition parseLines `{Platform} (rawText : jsstring)
    (removeEmpty removeDuplicates : bool) : ParseResult :=
  if isEmpty (trim rawText)
  then {| entries := []; emptyCount := 0; duplicateCount := 0; totalLines := 0 |}
  else
    let lines := splitLines rawText in
    let acc :=
      forEachLine removeEmpty removeDuplicates
        {| acc_entries := []; acc_empty := 0; acc_dup := 0; acc_seen := ∅ |}
        0%nat lines in
    {| entries := acc_entries acc;
       emptyCount := acc_empty acc;
       duplicateCount := acc_dup acc;
       totalLines := Z.of_nat (length lines) |}.

(** A platform for running the definitions on concrete inputs: letters
    A-Z are lowered, no stored text parses. *)
Definition asciiLower (s : jsstring) : jsstring :=
  map (fun c => if ((65 <=? c) && (c <=? 90))%N then (c + 32)%N else c) s.

Definition asciiPlatform : Platform :=
  {| toLowerCase := asciiLower; JSON_parse := fun _ => Throw |}.


(** ** Mastery store *)

Definition defaultStat : WordStat :=
  {| exposures := 0; correct := 0; incorrect := 0;
     lastSeen := 0; lastMiss := 0; mastery := 0.4%Q |}.

(** [stats[w]] on a key that is present; the engine reads a record only
    after [ensureStats] has put one there. *)
#[global] Instance WordStat_inhabited : Inhabited WordStat :=
  populate defaultStat.

Definition ensureStats (stats : gmap (list N) WordStat) (entry : WordEntry)
  : gmap (list N) WordStat :=
  match stats !! word entry with
  | Some _ => stats
  | None => <[word entry := defaultStat]> stats
  end.

(** The record updates of [applyAnswer] (lines 547-555). *)
Definition answerStat (isCorrect : bool) (now : Z) (stat : WordStat) : WordStat :=
  if isCorrect
  then {| exposures := exposures stat + 1; correct := correct stat + 1;
          incorrect := incorrect stat;
          lastSeen := now; lastMiss := lastMiss stat;
          mastery := clampQ (mastery stat + 0.08)%Q 0%Q 1%Q |}
  else {| exposures := exposures stat + 1; correct := correct stat;
          incorrect := incorrect stat + 1;
          lastSeen := now; lastMiss := now;
          mastery := clampQ (mastery stat - 0.12)%Q 0%Q 1%Q |}.

(** The record update of [handleSelfRating] (lines 673-677). *)
Definition rateStat (rating : Rating) (stat : WordStat) : WordStat :=
  match rating with
  | know =>
      {| exposures := exposures stat; correct := correct stat;
         incorrect := incorrect stat;
         lastSeen := lastSeen stat; lastMiss := lastMiss stat;
         mastery := clampQ (mastery stat + 0.1)%Q 0%Q 1%Q |}
  | unsure =>
      {| exposures := exposures stat; correct := correct stat;
         incorrect := incorrect stat;
         lastSeen := lastSeen stat; lastMiss := lastMiss stat;
         mastery := clampQ (mastery stat - 0.1)%Q 0%Q 1%Q |}
  | neutral => stat
  end.

(** ** Word sampler *)

Definition weightOf (stat : WordStat) (w : jsstring)
    (lastWord : option jsstring) (now : Z) : Q :=
  let recencyPenalty := (if bool_decide (Some w = lastWord) then 0.5 else 1)%Q in
  let weak := (1 - mastery stat)%Q in
  let newBonus := (if exposures stat =? 0 then 0.6 else 0)%Q in
  let recentMiss :=
    (if now - lastMiss stat <? 36 * 60 * 60 * 1000 then 0.5 else 0)%Q in
  ((0.2 + weak * 0.9 + newBonus + recentMiss) * recencyPenalty)%Q.

(** The [entries.map] of [pickWeighted]: the weights, and the store with a
    record for each entry. *)
Fixpoint weigh (entries : list WordEntry) (stats : gmap (list N) WordStat)
    (lastWord : option jsstring) (now : Z)
  : list Q * gmap (list N) WordStat :=
  match entries with
  | [] => ([], stats)
  | entry :: rest =>
      let stats1 := ensureStats stats entry in
      let stat := stats1 !!! word entry in
      let weight := weightOf stat (word entry) lastWord now in
      let '(weights, stats2) := weigh rest stats1 lastWord now in
      (weight :: weights, stats2)
  end.

(** [total += weight], in the order of the entries. *)
Definition totalWeight (weights : list Q) : Q := fold_left Qplus weights 0%Q.

(** The [for] loop of [pickWeighted]; [None] when it runs off the end. *)
Fixpoint rollLoop (entries : list WordEntry) (weights : list Q) (roll : Q)
  : option WordEntry :=
  match entries, weights with
  | entry :: entries', weight :: weights' =>
      let roll' := (roll - weight)%Q in
      if Qle_bool roll' 0%Q then Some entry else rollLoop entries' weights' roll'
  | _, _ => None
  end.

(** [random] is the value of [Math.random()].  The entry is [None] for
    [undefined], which [entries[0]] is on an empty pool. *)
Definition pickWeighted (entries : list WordEntry)
    (stats : gmap (list N) WordStat) (lastWord : option jsstring)
    (now : Z) (random : Q)
  : option WordEntry * gmap (list N) WordStat :=
  let '(weights, stats') := weigh entries stats lastWord now in
  let roll := (random * totalWeight weights)%Q in
  match rollLoop entries weights roll with
  | Some entry => (Some entry, stats')
  | None => (head entries, stats')
  end.

(** ** Question generator *)

(** [array.sort(() => Math.random() - 0.5)]: some rearrangement of the
    array, chosen by the random source. *)
Definition Shuffle := list WordEntry -> list WordEntry.

Definition validShuffle (sh : Shuffle) : Prop := forall l, sh l ≡ₚ l.

(** The [for ... of shuffled] loop of [pickChoices]. *)
Fixpoint fillChoices (choices shuffled : list WordEntry)
    (correct : WordEntry) (size : Z) : list WordEntry :=
  match shuffled with
  | [] => choices
  | entry :: rest =>
      if Z.of_nat (length choices) >=? size then choices
      else if bool_decide (word entry ≠ word correct)
           then fillChoices (choices ++ [entry]) rest correct size
           else fillChoices choices rest correct size
  end.

Definition pickChoices (shufflePool shuffleChoices : Shuffle)
    (pool : list WordEntry) (correct : WordEntry) (size : Z)
  : list WordEntry :=
  shuffleChoices (fillChoices [correct] (shufflePool pool) correct size).

(** The three [Math.random()] values one call of [mutateWord] may draw. *)
Record MutDraw := { d_roll : Q; d_idx : Q; d_letter : Q }.

(** [Math.floor(random * n)] as an index. *)
Definition randIndex (random : Q) (n : Z) : nat :=
  Z.to_nat (Qfloor (random * inject_Z n)).

Definition alphabet : jsstring := str "abcdefghijklmnopqrstuvwxyz".

(** Indices drawn from [Math.random()], which is below 1, are in range;
    at an index out of range the list operations below leave the letters
    as they are. *)
Definition mutateWord (word : jsstring) (d : MutDraw) : jsstring :=
  let letters := word in
  if (length letters <? 3)%nat then word
  else
    let roll := Qfloor (d_roll d * 3)%Q in
    if roll =? 0 then
      let idx := randIndex (d_idx d) (Z.of_nat (length letters) - 1) in
      match letters !! idx, letters !! S idx with
      | Some a, Some b => <[idx := b]> (<[S idx := a]> letters)
      | _, _ => letters
      end
    else if roll =? 1 then
      let idx := randIndex (d_idx d) (Z.of_nat (length letters)) in
      take idx letters ++ drop (S idx) letters
    else
      let idx := randIndex (d_idx d) (Z.of_nat (length letters)) in
      match alphabet !! randIndex (d_letter d) (Z.of_nat (length alphabet)) with
      | Some replacement => <[idx := replacement]> letters
      | None => letters
      end.

(** [variants.add(next)] on a [Set], kept in insertion order. *)
Definition setAdd (next : jsstring) (variants : list jsstring) : list jsstring :=
  if bool_decide (next ∈ variants) then variants else variants ++ [next].

(** The [while] loop of [similarChoices]; [fuel] is [40 - guard]. *)
Fixpoint variantsLoop (fuel guard : nat) (variants : list jsstring)
    (normalized : jsstring) (total : Z) (draws : nat -> MutDraw)
  : list jsstring :=
  match fuel with
  | O => variants
  | S fuel' =>
      if Z.of_nat (length variants) <? total - 1 then
        let next := mutateWord normalized (draws guard) in
        let variants' :=
          if negb (isEmpty next) && bool_decide (next ≠ normalized)
          then setAdd next variants else variants in
        variantsLoop fuel' (S guard) variants' normalized total draws
      else variants
  end.

Definition SPACE : N := 32.

Definition similarChoices (word : jsstring) (total : Z)
    (draws : nat -> MutDraw) : option (list jsstring) :=
  let normalized := trim word in
  if (length normalized <? 4)%nat || bool_decide (SPACE ∈ normalized) then None
  else
    let variants := variantsLoop 40 0 [] normalized total draws in
    if Z.of_nat (length variants) <? total - 1 then None
    else Some (normalized :: variants).

(** [array.findIndex(p)], -1 when no element passes. *)
Fixpoint findIndexFrom {A} (p : A -> bool) (i : Z) (l : list A) : Z :=
  match l with
  | [] => -1
  | x :: rest => if p x then i else findIndexFrom p (i + 1) rest
  end.

Definition findIndex {A} (p : A -> bool) (l : list A) : Z := findIndexFrom p 0 l.

(** The random choices of one call of [nextQuestion]. *)
Record Random := {
  rnd_roll : Q;
  rnd_shufflePool : Shuffle;
  rnd_shuffleChoices : Shuffle;
  rnd_mutations : nat -> MutDraw
}.

Definition wordIs (w : jsstring) (choice : WordEntry) : bool :=
  bool_decide (word choice = w).

(** Lines 479-532 of [nextQuestion]: the question for a sampled entry.
    The prompt and the example sentence are display text and left out. *)
Definition questionFor (wordPool : list WordEntry) (difficulty : Difficulty)
    (entry : WordEntry) (rnd : Random) : Question :=
  let mode := match difficulty with hard => type | _ => choice end in
  match mode with
  | type =>
      {| entry := entry; choices := []; correctIndex := -1; mode := type |}
  | choice =>
      let size := Z.min 4 (Z.max 2 (Z.of_nat (length wordPool))) in
      let fromPool :=
        pickChoices (rnd_shufflePool rnd) (rnd_shuffleChoices rnd)
          wordPool entry size in
      let choices :=
        match difficulty with
        | normal =>
            match similarChoices (word entry) size (rnd_mutations rnd) with
            | Some variants =>
                rnd_shuffleChoices rnd
                  (imap (fun index value =>
                           {| id := id entry ++ str "-var-" ++ showIndex index;
                              word := value;
                              hint := hint entry |}) variants)
            | None => fromPool
            end
        | _ => fromPool
        end in
      {| entry := entry; choices := choices;
         correctIndex := findIndex (wordIs (word entry)) choices;
         mode := choice |}
  end.

(** ** Session engine and answer evaluator *)

Record DailyGoal := { date : jsstring; d_correct : Z }.

(** The state of the [App] component: its [useState] cells and the two
    refs the engine reads and writes. *)
Record App := {
  stage : Stage;
  rawText : jsstring;
  removeEmpty : bool;
  removeDuplicates : bool;
  wordPool : list WordEntry;
  difficulty : Difficulty;
  sessionLength : SessionLength;
  session : SessionState;
  currentQuestion : option Question;
  feedback : Feedback;
  typedAnswer : jsstring;
  questionTimeLeft : Z;
  paused : bool;
  dailyGoal : DailyGoal;
  missedWords : list jsstring;
  statsRef : gmap (list N) WordStat;
  lastWordRef : option jsstring
}.

Definition freshSession (timeLeft : Z) : SessionState :=
  {| timeLeft := timeLeft; energy := 100; score := 0; streak := 0;
     longestStreak := 0; combo := 1; s_correct := 0; s_incorrect := 0 |}.

(** The component as first rendered, over the loaded store and goal. *)
Definition initialApp (stats : gmap (list N) WordStat) (daily : DailyGoal) : App :=
  {| stage := load; rawText := []; removeEmpty := true; removeDuplicates := true;
     wordPool := []; difficulty := normal; sessionLength := minutes 10;
     session := freshSession 0;
     currentQuestion := None; feedback := idle; typedAnswer := [];
     questionTimeLeft := 0; paused := false; dailyGoal := daily;
     missedWords := []; statsRef := stats; lastWordRef := None |}.

Definition set_stage (v : Stage) (st : App) : App :=
  {| stage := v; rawText := rawText st; removeEmpty := removeEmpty st;
     removeDuplicates := removeDuplicates st; wordPool := wordPool st;
     difficulty := difficulty st; sessionLength := sessionLength st;
     session := session st; currentQuestion := currentQuestion st;
     feedback := feedback st; typedAnswer := typedAnswer st;
     questionTimeLeft := questionTimeLeft st; paused := paused st;
     dailyGoal := dailyGoal st; missedWords := missedWords st;
     statsRef := statsRef st; lastWordRef := lastWordRef st |}.

(** The cells of the load and setup panels. *)
Definition set_inputs (raw : jsstring) (re rd : bool) (d : Difficulty)
    (len : SessionLength) (st : App) : App :=
  {| stage := stage st; rawText := raw; removeEmpty := re;
     removeDuplicates := rd; wordPool := wordPool st;
     difficulty := d; sessionLength := len;
     session := session st; currentQuestion := currentQuestion st;
     feedback := feedback st; typedAnswer := typedAnswer st;
     questionTimeLeft := questionTimeLeft st; paused := paused st;
     dailyGoal := dailyGoal st; missedWords := missedWords st;
     statsRef := statsRef st; lastWordRef := lastWordRef st |}.

Definition set_session (v : SessionState) (st : App) : App :=
  {| stage := stage st; rawText := rawText st; removeEmpty := removeEmpty st;
     removeDuplicates := removeDuplicates st; wordPool := wordPool st;
     difficulty := difficulty st; sessionLength := sessionLength st;
     session := v; currentQuestion := currentQuestion st;
     feedback := feedback st; typedAnswer := typedAnswer st;
     questionTimeLeft := questionTimeLeft st; paused := paused st;
     dailyGoal := dailyGoal st; missedWords := missedWords st;
     statsRef := statsRef st; lastWordRef := lastWordRef st |}.

(** [typedAnswer], [questionTimeLeft] and [paused]. *)
Definition set_controls (typed : jsstring) (qtime : Z) (p : bool) (st : App) : App :=
  {| stage := stage st; rawText := rawText st; removeEmpty := removeEmpty st;
     removeDuplicates := removeDuplicates st; wordPool := wordPool st;
     difficulty := difficulty st; sessionLength := sessionLength st;
     session := session st; currentQuestion := currentQuestion st;
     feedback := feedback st; typedAnswer := typed;
     questionTimeLeft := qtime; paused := p;
     dailyGoal := dailyGoal st; missedWords := missedWords st;
     statsRef := statsRef st; lastWordRef := lastWordRef st |}.

Definition set_statsRef (v : gmap (list N) WordStat) (st : App) : App :=
  {| stage := stage st; rawText := rawText st; removeEmpty := removeEmpty st;
     removeDuplicates := removeDuplicates st; wordPool := wordPool st;
     difficulty := difficulty st; sessionLength := sessionLength st;
     session := session st; currentQuestion := currentQuestion st;
     feedback := feedback st; typedAnswer := typedAnswer st;
     questionTimeLeft := questionTimeLeft st; paused := paused st;
     dailyGoal := dailyGoal st; missedWords := missedWords st;
     statsRef := v; lastWordRef := lastWordRef st |}.

(** The interval callback of the session countdown (lines 339-352). *)
Definition sessionTick (st : App) : App :=
  match stage st, paused st, sessionLength st with
  | play, false, minutes _ =>
      let prev := session st in
      set_session
        {| timeLeft := if timeLeft prev <=? 1 then 0 else timeLeft prev - 1;
           energy := energy prev; score := score prev; streak := streak prev;
           longestStreak := longestStreak prev; combo := combo prev;
           s_correct := s_correct prev; s_incorrect := s_incorrect prev |} st
  | _, _, _ => st
  end.

Definition endSession (st : App) : App := set_stage summary st.

(** Whether the session-end effect (lines 359-368) calls [endSession]. *)
Definition sessionEnds (st : App) : bool :=
  match stage st with
  | play =>
      if energy (session st) <=? 0 then true
      else match sessionLength st with
           | zen => false
           | minutes _ => timeLeft (session st) <=? 0
           end
  | _ => false
  end.

Definition sessionEndEffect (st : App) : App :=
  if sessionEnds st then endSession st else st.

Definition applyWordPool `{Platform} (st : App) : App :=
  {| stage := setup; rawText := rawText st; removeEmpty := removeEmpty st;
     removeDuplicates := removeDuplicates st;
     wordPool :=
       entries (parseLines (rawText st) (removeEmpty st) (removeDuplicates st));
     difficulty := difficulty st; sessionLength := sessionLength st;
     session := session st; currentQuestion := currentQuestion st;
     feedback := feedback st; typedAnswer := typedAnswer st;
     questionTimeLeft := questionTimeLeft st; paused := paused st;
     dailyGoal := dailyGoal st; missedWords := missedWords st;
     statsRef := statsRef st; lastWordRef := lastWordRef st |}.

(** On an empty pool the sampled entry is [undefined] and reading its
    word raises before anything is assigned: the state stays as it is. *)
Definition nextQuestion (now : Z) (rnd : Random) (st : App) : App :=
  match pickWeighted (wordPool st) (statsRef st) (lastWordRef st) now
          (rnd_roll rnd) with
  | (None, _) => st
  | (Some entry, stats) =>
      {| stage := stage st; rawText := rawText st; removeEmpty := removeEmpty st;
         removeDuplicates := removeDuplicates st; wordPool := wordPool st;
         difficulty := difficulty st; sessionLength := sessionLength st;
         session := session st;
         currentQuestion :=
           Some (questionFor (wordPool st) (difficulty st) entry rnd);
         feedback := idle; typedAnswer := [];
         questionTimeLeft :=
           match difficulty st with easy => 5 | _ => 0 end;
         paused := paused st;
         dailyGoal := dailyGoal st; missedWords := missedWords st;
         statsRef := stats; lastWordRef := Some (word entry) |}
  end.

Definition startSession (now : Z) (rnd : Random) (st : App) : App :=
  if (length (wordPool st) <? 2)%nat then st
  else
    let timeLeft :=
      match sessionLength st with zen => 0 | minutes m => m * 60 end in
    nextQuestion now rnd
      {| stage := play; rawText := rawText st; removeEmpty := removeEmpty st;
         removeDuplicates := removeDuplicates st; wordPool := wordPool st;
         difficulty := difficulty st; sessionLength := sessionLength st;
         session := freshSession timeLeft;
         currentQuestion := currentQuestion st;
         feedback := idle; typedAnswer := [];
         questionTimeLeft := questionTimeLeft st; paused := false;
         dailyGoal := dailyGoal st; missedWords := [];
         statsRef := statsRef st; lastWordRef := lastWordRef st |}.

(** The updater passed to [setSession] in [applyAnswer] (lines 562-582). *)
Definition answerSession (isCorrect : bool) (prev : SessionState) : SessionState :=
  let streak := if isCorrect then streak prev + 1 else 0 in
  let longestStreak := Z.max (longestStreak prev) streak in
  let combo := if isCorrect then clamp (1 + streak / 3) 1 5 else 1 in
  let score := score prev + (if isCorrect then 10 * combo else 0) in
  let energy := clamp (energy prev + (if isCorrect then 8 else -18)) 0 100 in
  {| timeLeft := timeLeft prev; energy := energy; score := score;
     streak := streak; longestStreak := longestStreak; combo := combo;
     s_correct := s_correct prev + (if isCorrect then 1 else 0);
     s_incorrect := s_incorrect prev + (if isCorrect then 0 else 1) |}.

(** The updater passed to [setMissedWords] (lines 556-558). *)
Definition addMissed (w : jsstring) (prev : list jsstring) : list jsstring :=
  if bool_decide (w ∈ prev) then prev else prev ++ [w].

Definition applyAnswer (isCorrect : bool) (now : Z) (st : App) : App :=
  match currentQuestion st with
  | None => st
  | Some q =>
      let entry := entry q in
      let stats := ensureStats (statsRef st) entry in
      let stat := stats !!! word entry in
      {| stage := stage st; rawText := rawText st; removeEmpty := removeEmpty st;
         removeDuplicates := removeDuplicates st; wordPool := wordPool st;
         difficulty := difficulty st; sessionLength := sessionLength st;
         session := answerSession isCorrect (session st);
         currentQuestion := currentQuestion st;
         feedback := if isCorrect then correct_fb else wrong_fb;
         typedAnswer := typedAnswer st;
         questionTimeLeft := questionTimeLeft st; paused := paused st;
         dailyGoal :=
           if isCorrect
           then {| date := date (dailyGoal st);
                   d_correct := d_correct (dailyGoal st) + 1 |}
           else dailyGoal st;
         missedWords :=
           if isCorrect then missedWords st
           else addMissed (word entry) (missedWords st);
         statsRef := <[word entry := answerStat isCorrect now stat]> stats;
         lastWordRef := lastWordRef st |}
  end.

Definition handleChoice (index : Z) (now : Z) (st : App) : App :=
  match currentQuestion st, feedback st with
  | Some q, idle =>
      if (index <? 0) || (index >=? Z.of_nat (length (choices q))) then st
      else applyAnswer (index =? correctIndex q) now st
  | _, _ => st
  end.

Definition submitTyped `{Platform} (now : Z) (st : App) : App :=
  match currentQuestion st, feedback st with
  | Some q, idle =>
      applyAnswer
        (bool_decide (toLowerCase (trim (typedAnswer st))
                      = toLowerCase (word (entry q)))) now st
  | _, _ => st
  end.

Definition handleSelfRating (rating : Rating) (now : Z) (rnd : Random)
    (st : App) : App :=
  match currentQuestion st with
  | None => st
  | Some q =>
      let stats := ensureStats (statsRef st) (entry q) in
      let stat := stats !!! word (entry q) in
      nextQuestion now rnd
        (set_statsRef (<[word (entry q) := rateStat rating stat]> stats) st)
  end.

(** The interval callback of the per-question countdown (lines 603-617). *)
Definition questionTick (st : App) : App :=
  match stage st, paused st, feedback st, difficulty st, currentQuestion st with
  | play, false, idle, easy, Some _ =>
      if questionTimeLeft st <=? 0 then st
      else set_controls (typedAnswer st) (Z.max 0 (questionTimeLeft st - 1))
             (paused st) st
  | _, _, _, _, _ => st
  end.

(** Whether the timeout effect (lines 627-636) answers for the player. *)
Definition timesOut (st : App) : bool :=
  match stage st, difficulty st, feedback st, currentQuestion st with
  | play, easy, idle, Some _ => questionTimeLeft st =? 0
  | _, _, _, _ => false
  end.

(** The [useMemo] of [weakWords]: a record for every word of the pool. *)
Definition weakWordsMemo (st : App) : App :=
  set_statsRef (fold_left ensureStats (wordPool st) (statsRef st)) st.

(** [missedWords.join("\n")], the text of the exported file; [None] when
    [exportMissed] returns without exporting. *)
Definition exportMissed (st : App) : option jsstring :=
  match missedWords st with
  | [] => None
  | _ => Some (join [LF] (missedWords st))
  end.

(** What can happen to the component: a handler is called, a timer
    fires, a memo is recomputed.  Handlers are not restricted to the
    stages in which the page offers them, so every run of the page is a
    run of this machine. *)
Inductive Event :=
| SetInputs (raw : jsstring) (re rd : bool) (d : Difficulty) (len : SessionLength)
| FileLoaded (raw : jsstring)
| GoTo (s : Stage)
| ApplyWordPool
| StartSession (rnd : Random)
| Choose (index : Z)
| TypeText (text : jsstring)
| SubmitTyped
| Rate (rating : Rating) (rnd : Random)
| Pause (p : bool)
| EndSession
| SessionTick
| QuestionTick
| WeakWords.

Definition handle `{Platform} (now : Z) (ev : Event) (st : App) : App :=
  match ev with
  | SetInputs raw re rd d len => set_inputs raw re rd d len st
  | FileLoaded raw =>
      set_stage load
        (set_inputs raw (removeEmpty st) (removeDuplicates st)
           (difficulty st) (sessionLength st) st)
  | GoTo s => match s with load | setup => set_stage s st | _ => st end
  | ApplyWordPool => applyWordPool st
  | StartSession rnd => startSession now rnd st
  | Choose index => handleChoice index now st
  | TypeText text => set_controls text (questionTimeLeft st) (paused st) st
  | SubmitTyped => submitTyped now st
  | Rate rating rnd => handleSelfRating rating now rnd st
  | Pause p => set_controls (typedAnswer st) (questionTimeLeft st) p st
  | EndSession => endSession st
  | SessionTick => sessionTick st
  | QuestionTick => questionTick st
  | WeakWords => weakWordsMemo st
  end.

(** One round of effects after a render: both effects read the rendered
    state, their updates are applied together. *)
Definition effects (now : Z) (st : App) : App :=
  let ends := sessionEnds st in
  let st1 := if timesOut st then applyAnswer false now st else st in
  if ends then endSession st1 else st1.

(** Effects run again after the render their updates cause; the second
    round leaves nothing for a third. *)
Definition settle (now : Z) (st : App) : App := effects now (effects now st).

Definition step `{Platform} (st : App) (occ : Z * Event) : App :=
  settle (fst occ) (handle (fst occ) (snd occ) st).

Definition run `{Platform} (st : App) (trace : list (Z * Event)) : App :=
  fold_left step trace st.

(** ** Persistence loaders *)

(** [v.key] on a parsed value: [Throw] is the [TypeError] of a property
    read on [null]; [Normal None] is [undefined]. *)
Definition getProp (v : JSValue) (key : jsstring) : Completion (option JSValue) :=
  match v with
  | JNull => Throw
  | JObj fields => Normal (snd <$> find (fun kv => bool_decide (fst kv = key)) fields)
  | _ => Normal None
  end.

(** [try { body } catch { handler }] *)
Definition tryCatch {A} (body : Completion A) (handler : A) : Completion A :=
  match body with
  | Normal a => Normal a
  | Throw => Normal handler
  end.

#[global] Instance Completion_bind : MBind Completion :=
  fun A B (k : A -> Completion B) (c : Completion A) =>
    match c with
    | Normal a => k a
    | Throw => Throw
    end.

(** [raw] is what [localStorage.getItem] returned, [None] for [null]. *)
Definition loadStats `{Platform} (raw : option jsstring) : Completion JSValue :=
  match raw with
  | None => Normal (JObj [])
  | Some text =>
      if isEmpty text then Normal (JObj [])
      else tryCatch (JSON_parse text) (JObj [])
  end.

(** [d === s] for a property value [d] and a string [s]. *)
Definition isString (s : jsstring) (d : option JSValue) : bool :=
  match d with
  | Some (JStr s') => bool_decide (s' = s)
  | _ => false
  end.

Definition defaultDaily (today : jsstring) : JSValue :=
  JObj [(str "date", JStr today); (str "correct", JNum 0)].

(** [today] is the value of [todayKey()]. *)
Definition loadDaily `{Platform} (raw : option jsstring) (today : jsstring)
  : Completion JSValue :=
  match raw with
  | None => Normal (defaultDaily today)
  | Some text =>
      if isEmpty text then Normal (defaultDaily today)
      else
        tryCatch
          (parsed ← JSON_parse text;
           d ← getProp parsed (str "date");
           if isString today d then Normal parsed
           else Normal (defaultDaily today))
          (defaultDaily today)
  end.

(** ** Reference notions the properties are stated with *)

(** A line made of white space only (the empty line included). *)
Definition whiteOnly (line : jsstring) : bool := forallb isWhite line.

(** The line breaks of a text: a CR LF pair, a lone CR, or a lone LF. *)
Fixpoint lineBreaks (s : jsstring) : nat :=
  match s with
  | [] => 0
  | c :: t =>
      match t with
      | d :: t' =>
          if ((c =? CR) && (d =? LF))%N then S (lineBreaks t')
          else ((if ((c =? CR) || (c =? LF))%N then 1 else 0) + lineBreaks t)%nat
      | [] => if ((c =? CR) || (c =? LF))%N then 1%nat else 0%nat
      end
  end.

Definition isBreak (d : N) : bool := ((d =? CR) || (d =? LF))%N.

(** What the parser guarantees of the word of an entry: trimmed, not
    empty, on one line. *)
Definition goodWord (w : jsstring) : Prop :=
  trim w = w /\ w <> [] /\ ~ In LF w.

Definition goodPool (pool : list WordEntry) : Prop :=
  Forall (fun e => goodWord (word e)) pool.

(** With duplicate removal on, the lowered words of the entries are
    pairwise distinct and all recorded in [seen]. *)
Definition dedupInv `{Platform} (acc : ParseAcc) : Prop :=
  NoDup (map (fun e => toLowerCase (word e)) (acc_entries acc))
  /\ forall e, In e (acc_entries acc) -> toLowerCase (word e) ∈ acc_seen acc.

(** One update of a stored record: an answer outcome or a self-rating. *)
Inductive StatUpdate :=
| Answered (isCorrect : bool) (now : Z)
| Rated (rating : Rating).

Definition applyUpdate (stat : WordStat) (u : StatUpdate) : WordStat :=
  match u with
  | Answered isCorrect now => answerStat isCorrect now stat
  | Rated rating => rateStat rating stat
  end.

Definition inRange (stat : WordStat) : Prop := (0 <= mastery stat <= 1)%Q.

Definition countersAgree (stat : WordStat) : Prop :=
  correct stat + incorrect stat = exposures stat.

(** Every record of the store satisfies [P]. *)
Definition storeAll (P : WordStat -> Prop) (stats : gmap (list N) WordStat) : Prop :=
  map_Forall (fun _ stat => P stat) stats.

Definition energyOk (st : App) : Prop := 0 <= energy (session st) <= 100.

(** The record the sampler reads for a word: the stored one, or the
    record it creates when there is none. *)
Definition statOf (stats : gmap (list N) WordStat) (w : jsstring) : WordStat :=
  default defaultStat (stats !! w).

(** The value of [roll] after [n] rounds of the sampler's loop. *)
Definition rollAfter (weights : list Q) (roll : Q) (n : nat) : Q :=
  fold_left Qminus (take n weights) roll.

(** The entries of a pool whose word is not [w]. *)
Definition others (pool : list WordEntry) (w : jsstring) : nat :=
  length (List.filter (fun e => negb (wordIs w e)) pool).

(** A choice question is well formed: the correct index is a position of
    the choice list, the choice there carries the word asked for, and no
    other choice does. *)
Definition questionOk (q : Question) : Prop :=
  mode q = choice ->
  0 <= correctIndex q < Z.of_nat (length (choices q))
  /\ (exists c, choices q !! Z.to_nat (correctIndex q) = Some c
                /\ word c = word (entry q))
  /\ (forall j c, choices q !! j = Some c -> word c = word (entry q) ->
                  Z.of_nat j = correctIndex q).

Definition validRandom (rnd : Random) : Prop :=
  validShuffle (rnd_shufflePool rnd) /\ validShuffle (rnd_shuffleChoices rnd).

(** The shuffles an event brings along are rearrangements. *)
Definition validEvent (ev : Event) : Prop :=
  match ev with
  | StartSession rnd | Rate _ rnd => validRandom rnd
  | _ => True
  end.

(** What every run keeps of the pool and of the question on display. *)
Definition appOk (st : App) : Prop :=
  goodPool (wordPool st)
  /\ forall q, currentQuestion st = Some q -> questionOk q.

(** The distinct elements of a list, in the order of their first
    occurrence. *)
Fixpoint firstOccurrences (l : list jsstring) : list jsstring :=
  match l with
  | [] => []
  | w :: rest =>
      w :: List.filter (fun v => negb (bool_decide (v = w))) (firstOccurrences rest)
  end.

(** The events that neither start a session, nor answer, nor rate. *)
Definition quiet (ev : Event) : Prop :=
  match ev with
  | StartSession _ | Choose _ | SubmitTyped | Rate _ _ => False
  | _ => True
  end.

(** [sessionRun st missed]: [st] is a state of a session that started on
    a parsed pool, and [missed] lists, in order, the words on which
    [applyAnswer] was called with an incorrect verdict since the start
    (by a choice, a typed answer or a timeout). *)
Inductive sessionRun `{Platform} : App -> list jsstring -> Prop :=
| session_started st now rnd :
    goodPool (wordPool st) ->
    (2 <= length (wordPool st))%nat ->
    sessionRun (startSession now rnd st) []
| session_answered st missed isCorrect now q :
    sessionRun st missed ->
    currentQuestion st = Some q ->
    sessionRun (applyAnswer isCorrect now st)
      (if isCorrect then missed else missed ++ [word (entry q)])
| session_rated st missed rating now rnd :
    sessionRun st missed ->
    sessionRun (handleSelfRating rating now rnd st) missed
| session_other st missed now ev :
    sessionRun st missed ->
    quiet ev ->
    sessionRun (handle now ev st) missed.

(** The word on display is a word of the pool. *)
Definition shownGood (st : App) : Prop :=
  goodPool (wordPool st)
  /\ forall q, currentQuestion st = Some q -> goodWord (word (entry q)).

(** ** Sample inputs *)

Definition sampleDraw : MutDraw := {| d_roll := 0.5; d_idx := 0.5; d_letter := 0.5 |}.

(** A random source whose shuffles leave the order as it is. *)
Definition sampleRandom : Random :=
  {| rnd_roll := 0.5; rnd_shufflePool := fun l => l;
     rnd_shuffleChoices := fun l => l; rnd_mutations := fun _ => sampleDraw |}.

Definition sampleDaily : DailyGoal := {| date := str "2024-05-01"; d_correct := 0 |}.

(** A short run: load the two words [run] and [sprint], start an easy
    five-minute session, pick the second choice, rate the word. *)
Definition sampleTrace : list (Z * Event) :=
  [ (1000, SetInputs (str "run" ++ [LF] ++ str "sprint") true true easy (minutes 5));
    (2000, ApplyWordPool);
    (3000, StartSession sampleRandom);
    (4000, Choose 1);
    (5000, Rate know sampleRandom) ].

(** Six wrong answers in a zen session over [run] and [sprint]: the
    state as the sixth one leaves it, before the effects run. *)
Definition drainTrace : list (Z * Event) :=
  [ (1000, SetInputs (str "run" ++ [LF] ++ str "sprint") true true easy zen);
    (2000, ApplyWordPool);
    (3000, StartSession sampleRandom) ]
  ++ concat (replicate 5 [ (4000, Choose 1); (5000, Rate neutral sampleRandom) ]).

Definition drainedState : App :=
  @handle asciiPlatform 6000 (Choose 1)
    (@run asciiPlatform (initialApp ∅ sampleDaily) drainTrace).

(** The word list [run], [run] loaded with duplicate removal off, and an
    easy session started on it. *)
Definition dupTrace : list (Z * Event) :=
  [ (1000, SetInputs (str "run" ++ [LF] ++ str "run") true false easy (minutes 5));
    (2000, ApplyWordPool);
    (3000, StartSession sampleRandom) ].

(** The loaded pool of [run] and [sprint], and a session on it with one
    wrong answer. *)
Definition loadedState : App :=
  @run asciiPlatform (initialApp ∅ sampleDaily)
    [ (1000, SetInputs (str "run" ++ [LF] ++ str "sprint") true true easy (minutes 5));
      (2000, ApplyWordPool) ].

Definition missState : App :=
  applyAnswer false 4000 (startSession 3000 sampleRandom loadedState).

(** A platform whose [JSON.parse] reads the texts [null] and [{}] and
    rejects every other text. *)
Definition tinyPlatform : Platform :=
  {| toLowerCase := asciiLower;
     JSON_parse := fun text =>
       if bool_decide (text = str "null") then Normal JNull
       else if bool_decide (text = str "{}") then Normal (JObj [])
       else Throw |}.

(** The question on display after [sampleTrace]. *)
Definition sampleQuestion : Question :=
  questionFor (wordPool loadedState) easy
    {| id := str "sprint-1"; word := str "sprint"; hint := None |} sampleRandom.

(** ** Further functions of the component *)

(** [x | 0]: the signed 32-bit integer of an integer-valued number. *)
Definition toInt32 (z : Z) : Z := (z + 2 ^ 31) mod 2 ^ 32 - 2 ^ 31.

Definition hashWord (value : jsstring) : Z :=
  Z.abs (fold_left (fun hash c => toInt32 (hash * 31 + Z.of_N c)) value 0).

Definition SENTENCE_TEMPLATES : list jsstring :=
  map str
    [ "I decided to {word} the plan after reviewing the risks.";
      "She tried to {word} her schedule before the meeting.";
      "They needed to {word} the issue quickly.";
      "We should {word} the details before moving on.";
      "He promised to {word} the task by tonight.";
      "The team chose to {word} the idea with care.";
      "Please {word} the instructions once more.";
      "I had to {word} my response in a hurry.";
      "The coach asked us to {word} the strategy.";
      "They will {word} the results tomorrow." ]%string.

(** The first occurrence of [pat] in [s]: the text before it and the text
    after it.  [before] holds the text passed over, in reverse. *)
Fixpoint findSub (pat before s : jsstring) : option (jsstring * jsstring) :=
  match s with
  | [] => if isPrefix pat [] then Some (rev before, []) else None
  | c :: t =>
      if isPrefix pat s then Some (rev before, drop (length pat) s)
      else findSub pat (c :: before) t
  end.

Definition DOLLAR : N := 36.

(** The replacement text of [String.prototype.replace] for a string
    pattern: [$$] is a dollar sign, [$&] the matched text, [$`] the text
    before the match, [$'] the text after it; there are no captures, so
    every other use of the dollar sign stands for itself. *)
Fixpoint substitute (matched before after repl : jsstring) : jsstring :=
  match repl with
  | [] => []
  | c :: t =>
      match t with
      | d :: t' =>
          if (c =? DOLLAR)%N then
            if (d =? DOLLAR)%N then DOLLAR :: substitute matched before after t'
            else if (d =? 38)%N then matched ++ substitute matched before after t'
            else if (d =? 96)%N then before ++ substitute matched before after t'
            else if (d =? 39)%N then after ++ substitute matched before after t'
            else c :: substitute matched before after t
          else c :: substitute matched before after t
      | [] => [c]
      end
  end.

(** [s.replace(pat, repl)] for a string [pat]: the first occurrence only. *)
Definition replace (s pat repl : jsstring) : jsstring :=
  match findSub pat [] s with
  | None => s
  | Some (before, after) => before ++ substitute pat before after repl ++ after
  end.

(** The full sentence and the cloze; [None] stands for the [TypeError] of
    calling [replace] on a template that is not there. *)
Definition sentenceFor (word : jsstring) : option (jsstring * jsstring) :=
  let index := hashWord word mod Z.of_nat (length SENTENCE_TEMPLATES) in
  match SENTENCE_TEMPLATES !! Z.to_nat index with
  | Some template =>
      Some (replace template (str "{word}") word,
            replace template (str "{word}") (str "____"))
  | None => None
  end.

(** An item of the weak-word list. *)
Record WeakWord := { w_word : jsstring; w_mastery : Q }.

(** The [wordPool.map] of [weakWords]: the items, and the store with a
    record for each entry. *)
Fixpoint weakItems (entries : list WordEntry) (stats : gmap (list N) WordStat)
  : list WeakWord * gmap (list N) WordStat :=
  match entries with
  | [] => ([], stats)
  | entry :: rest =>
      let stats1 := ensureStats stats entry in
      let item := {| w_word := word entry;
                     w_mastery := mastery (stats1 !!! word entry) |} in
      let '(items, stats2) := weakItems rest stats1 in
      (item :: items, stats2)
  end.

(** [items.sort((a, b) => a.mastery - b.mastery)].  The sort of an array
    is stable, so with this comparator its result is the ascending
    arrangement in which items of equal mastery keep their order; it is
    built here by insertion from the right. *)
Fixpoint insertByMastery (item : WeakWord) (sorted : list WeakWord) : list WeakWord :=
  match sorted with
  | [] => [item]
  | other :: rest =>
      if Qle_bool (w_mastery item) (w_mastery other) then item :: sorted
      else other :: insertByMastery item rest
  end.

Definition sortByMastery (items : list WeakWord) : list WeakWord :=
  fold_right insertByMastery [] items.

(** The list the [weakWords] memo returns. *)
Definition weakWords (wordPool : list WordEntry) (stats : gmap (list N) WordStat)
  : list WeakWord :=
  take 6 (sortByMastery (weakItems wordPool stats).1).

(** [Math.round] of a fraction: the integer at or below it plus a half.
    The fraction is the exact quotient. *)
Definition roundQ (x : Q) : Z := Qfloor (x + (1 # 2))%Q.

Definition accuracy (s : SessionState) : Z :=
  if s_correct s + s_incorrect s >? 0
  then roundQ (inject_Z (s_correct s)
               / inject_Z (s_correct s + s_incorrect s) * 100)%Q
  else 0.

(** ** Further notions the properties are stated with *)

(** The sum of a list of weights. *)
Definition sumQ (l : list Q) : Q := fold_right Qplus 0%Q l.

(** What every run keeps of the session counters. *)
Definition sessionOk (s : SessionState) : Prop :=
  combo s = clamp (1 + streak s / 3) 1 5
  /\ 0 <= streak s <= longestStreak s
  /\ longestStreak s <= s_correct s
  /\ 0 <= s_incorrect s
  /\ 10 * s_correct s <= score s <= 50 * s_correct s
  /\ 100 - 18 * s_incorrect s <= energy s <= 100.

(** Two states show the same question with the same verdict and agree on
    everything an answer is scored in. *)
Definition sameOutcome (st st' : App) : Prop :=
  currentQuestion st' = currentQuestion st
  /\ feedback st' = feedback st
  /\ energy (session st') = energy (session st)
  /\ score (session st') = score (session st)
  /\ streak (session st') = streak (session st)
  /\ longestStreak (session st') = longestStreak (session st)
  /\ combo (session st') = combo (session st)
  /\ s_correct (session st') = s_correct (session st)
  /\ s_incorrect (session st') = s_incorrect (session st)
  /\ missedWords st' = missedWords st
  /\ dailyGoal st' = dailyGoal st.

(** The events that keep the question on display. *)
Definition sameQuestion (ev : Event) : Prop :=
  match ev with
  | StartSession _ | Rate _ _ => False
  | _ => True
  end.

Definition noStart (ev : Event) : Prop :=
  match ev with
  | StartSession _ => False
  | _ => True
  end.

(** What every run keeps of the question on display and the missed
    words. *)
Definition displayOk (st : App) : Prop :=
  (stage st = play -> is_Some (currentQuestion st))
  /\ (feedback st <> idle -> is_Some (currentQuestion st))
  /\ (forall q, currentQuestion st = Some q ->
        lastWordRef st = Some (word (entry q))
        /\ is_Some (statsRef st !! word (entry q)))
  /\ NoDup (missedWords st)
  /\ Z.of_nat (length (missedWords st)) <= s_incorrect (session st)
  /\ (forall w, w ∈ missedWords st -> is_Some (statsRef st !! w)).

(** The lines the parser has accounted for: as an entry, as a duplicate
    or as an empty line. *)
Definition accounted (acc : ParseAcc) : Z :=
  Z.of_nat (length (acc_entries acc)) + acc_dup acc + acc_empty acc.

(** The shape of the identifier of an entry made from a line before
    line [index]. *)
Definition idBefore `{Platform} (index : nat) (e : WordEntry) : Prop :=
  exists i, (i < index)%nat
    /\ id e = toLowerCase (word e) ++ str "-" ++ showIndex i.

Definition hintOk (e : WordEntry) : Prop :=
  forall h, hint e = Some h -> h <> [] /\ trim h = h.

(** What the parser guarantees of an entry made before line [index]. *)
Definition entryOk `{Platform} (index : nat) (e : WordEntry) : Prop :=
  goodWord (word e) /\ ~ In CR (word e) /\ hintOk e /\ idBefore index e.

Definition DASH : N := 45.

(** What a variant of a word is: not empty, not the word, and of the
    length of the word or one shorter. *)
Definition variantOf (normalized v : jsstring) : Prop :=
  v <> [] /\ v <> normalized
  /\ (length normalized <= S (length v))%nat
  /\ (length v <= length normalized)%nat.

(** A list of items in ascending order of mastery. *)
Fixpoint ascending (l : list WeakWord) : Prop :=
  match l with
  | [] => True
  | a :: rest =>
      Forall (fun b => (w_mastery a <= w_mastery b)%Q) rest /\ ascending rest
  end.

(** The item the weak-word list shows for an entry. *)
Definition weakItem (stats : gmap (list N) WordStat) (e : WordEntry) : WeakWord :=
  {| w_word := word e; w_mastery := mastery (statOf stats (word e)) |}.

(** A record keeps or raises its counters. *)
Definition statGrows (a b : WordStat) : Prop :=
  exposures a <= exposures b /\ correct a <= correct b
  /\ incorrect a <= incorrect b.

(** Every record of [stats] has a record in [stats'] whose counters are
    not below its own. *)
Definition storeGrows (stats stats' : gmap (list N) WordStat) : Prop :=
  forall w stat, stats !! w = Some stat ->
    exists stat', stats' !! w = Some stat' /\ statGrows stat stat'.

(** An easy question waiting for its answer, [t] seconds before its
    timeout, in a session that is not about to end. *)
Definition waiting (st : App) (t : Z) : Prop :=
  stage st = play /\ paused st = false /\ feedback st = idle
  /\ difficulty st = easy /\ is_Some (currentQuestion st)
  /\ questionTimeLeft st = t /\ sessionEnds st = false.

(** A state of a started session over [run] and [sprint], easy and timed. *)
Definition startedState : App := startSession 3000 sampleRandom loadedState.

(* ===================================================================== *)
(** * Part II: properties                                                *)
(* ===================================================================== *)

(** ** Strings *)

Local Arguments N.eqb : simpl never.

Lemma trimStart_suffix s : exists pre, s = pre ++ trimStart s.
Proof.
  induction s as [|c t [pre IH]]; simpl.
  - by exists [].
  - destruct (isWhite c).
    + exists (c :: pre). simpl. by rewrite <- IH.
    + by exists [].
Qed.

Lemma trimStart_head s c t : trimStart s = c :: t -> isWhite c = false.
Proof.
  induction s as [|d s IH]; simpl; [done|].
  destruct (isWhite d) eqn:E; [done|]. intros [= -> _]. done.
Qed.

Lemma trimStart_fixed c t : isWhite c = false -> trimStart (c :: t) = c :: t.
Proof. intros E. simpl. by rewrite E. Qed.

Lemma trimStart_idem s : trimStart (trimStart s) = trimStart s.
Proof.
  destruct (trimStart s) as [|c t] eqn:E; [done|].
  apply trimStart_fixed. by eapply trimStart_head.
Qed.

(** Stripping the end of a string leaves its first code unit in place. *)
Lemma trimEnd_keeps_head c t :
  isWhite c = false -> exists t', trimEnd (c :: t) = c :: t'.
Proof.
  intros E. unfold trimEnd. simpl.
  destruct (trimStart_suffix (rev t ++ [c])) as [pre Hpre].
  destruct (trimStart (rev t ++ [c])) as [|x r] eqn:Er.
  - rewrite app_nil_r in Hpre.
    assert (Hall : forall l, trimStart l = [] -> Forall (fun d => isWhite d = true) l).
    { clear. induction l as [|d l IH]; simpl; [constructor|].
      destruct (isWhite d) eqn:E; [|done]. intros H. constructor; auto. }
    apply Hall in Er. rewrite Forall_app in Er. destruct Er as [_ Er].
    inversion Er; congruence.
  - assert (Hlast : exists r', x :: r = r' ++ [c]).
    { apply (f_equal (@rev N)) in Hpre. rewrite rev_app_distr in Hpre.
      rewrite !rev_app_distr in Hpre. simpl in Hpre. rewrite rev_involutive in Hpre.
      destruct (rev r) as [|y r'] eqn:Err.
      - simpl in Hpre. injection Hpre as -> _.
        exists []. apply (f_equal (@rev N)) in Err. rewrite rev_involutive in Err.
        by rewrite Err.
      - simpl in Hpre. injection Hpre as -> Hp.
        apply (f_equal (@rev N)) in Err. rewrite rev_involutive in Err.
        simpl in Err. exists (x :: rev r'). simpl. by rewrite Err. }
    destruct Hlast as [r' ->]. rewrite rev_app_distr. simpl. eauto.
Qed.

Lemma trim_idem s : trim (trim s) = trim s.
Proof.
  unfold trim.
  destruct (trimStart s) as [|c t] eqn:E; [done|].
  pose proof (trimStart_head _ _ _ E) as Hc.
  destruct (trimEnd_keeps_head c t Hc) as [t' Ht]. rewrite Ht.
  rewrite (trimStart_fixed _ _ Hc). rewrite <- Ht.
  unfold trimEnd. rewrite rev_involutive. by rewrite trimStart_idem.
Qed.

Lemma trimStart_In s c : In c (trimStart s) -> In c s.
Proof.
  destruct (trimStart_suffix s) as [pre H]. intros Hin.
  rewrite H. apply in_or_app. by right.
Qed.

Lemma trim_In s c : In c (trim s) -> In c s.
Proof.
  unfold trim, trimEnd. intros H.
  apply in_rev in H. apply trimStart_In in H. apply in_rev in H.
  by apply trimStart_In.
Qed.

Lemma isEmpty_true s : isEmpty s = true <-> s = [].
Proof. by destruct s. Qed.

(** Every code unit of a piece comes from the text or from the piece
    under construction. *)
Lemma split_go_In sep s : forall skip cur piece c,
  In piece (split_go sep skip cur s) -> In c piece -> In c cur \/ In c s.
Proof.
  induction s as [|d t IH]; intros skip cur piece c; simpl.
  - intros [<-|[]] Hc. left. by apply in_rev.
  - destruct skip as [|k].
    + destruct (isPrefix sep (d :: t)).
      * intros [<-|Hp] Hc.
        -- left. by apply in_rev.
        -- destruct (IH _ _ _ _ Hp Hc) as [[]|H]. right; by right.
      * intros Hp Hc. destruct (IH _ _ _ _ Hp Hc) as [[->|H]|H]; auto.
    + intros Hp Hc. destruct (IH _ _ _ _ Hp Hc) as [H|H]; auto.
Qed.

Lemma split_In sep s piece c : In piece (split sep s) -> In c piece -> In c s.
Proof.
  intros Hp Hc. destruct (split_go_In _ _ _ _ _ _ Hp Hc) as [[]|H]; done.
Qed.

Lemma isPrefix_single c s :
  isPrefix [c] s = match s with d :: _ => (c =? d)%N | [] => false end.
Proof. destruct s; simpl; [done|]. by rewrite andb_true_r. Qed.

(** Splitting at a single code unit: no piece contains it. *)
Lemma split_go_single_free c s : forall cur piece,
  ~ In c cur -> In piece (split_go [c] 0 cur s) -> ~ In c piece.
Proof.
  induction s as [|d t IH]; intros cur piece Hcur; simpl.
  - intros [<-|[]]. by rewrite <- in_rev.
  - rewrite andb_true_r. destruct (N.eqb_spec c d) as [->|Hne].
    + intros [<-|Hp]; [by rewrite <- in_rev|]. eapply IH; [|done]. by intros [].
    + apply IH. intros [->|H]; done.
Qed.

Lemma split_go_single_length c s : forall cur,
  length (split_go [c] 0 cur s) = S (length (List.filter (N.eqb c) s)).
Proof.
  induction s as [|d t IH]; intros cur; simpl; [done|].
  rewrite andb_true_r. destruct (c =? d)%N; simpl; by rewrite IH.
Qed.

(** A piece free of the separator is cut off where the separator follows. *)
Lemma split_go_single_app c w rest : forall cur,
  ~ In c w ->
  split_go [c] 0 cur (w ++ c :: rest) = (rev cur ++ w) :: split_go [c] 0 [] rest.
Proof.
  induction w as [|d w IH]; intros cur Hw; simpl.
  - rewrite andb_true_r, N.eqb_refl. by rewrite app_nil_r.
  - rewrite andb_true_r. destruct (N.eqb_spec c d) as [->|Hne].
    + exfalso. apply Hw. by left.
    + rewrite IH by (intros H; apply Hw; by right).
      simpl. by rewrite <- app_assoc.
Qed.

Lemma split_go_single_last c w : forall cur,
  ~ In c w -> split_go [c] 0 cur w = [rev cur ++ w].
Proof.
  induction w as [|d w IH]; intros cur Hw; simpl.
  - by rewrite app_nil_r.
  - rewrite andb_true_r. destruct (N.eqb_spec c d) as [->|Hne].
    + exfalso. apply Hw. by left.
    + rewrite IH by (intros H; apply Hw; by right).
      simpl. by rewrite <- app_assoc.
Qed.

(** [join] then [split] at a code unit that occurs in none of the parts. *)
Lemma split_join c parts :
  parts <> [] -> Forall (fun w => ~ In c w) parts ->
  split [c] (join [c] parts) = parts.
Proof.
  intros Hne Hall. unfold split.
  induction Hall as [|w rest Hw Hrest IH]; [done|].
  destruct rest as [|w' rest'].
  - simpl. by rewrite split_go_single_last.
  - change (join [c] (w :: w' :: rest')) with (w ++ c :: join [c] (w' :: rest')).
    rewrite split_go_single_app by done. simpl rev. simpl app at 1.
    by rewrite IH.
Qed.

Lemma trimStart_nil s : trimStart s = [] <-> forallb isWhite s = true.
Proof.
  induction s as [|c t IH]; simpl; [done|].
  destruct (isWhite c); simpl; [done|]. split; done.
Qed.

Lemma forallb_rev {A} (p : A -> bool) l : forallb p (rev l) = forallb p l.
Proof.
  induction l as [|x l IH]; simpl; [done|].
  rewrite forallb_app. simpl. rewrite IH. destruct (p x), (forallb p l); done.
Qed.

(** [!s.trim()] holds exactly for the white-space-only strings. *)
Lemma isEmpty_trim s : isEmpty (trim s) = whiteOnly s.
Proof.
  unfold whiteOnly.
  destruct (forallb isWhite s) eqn:E.
  - apply trimStart_nil in E. unfold trim. by rewrite E.
  - destruct (isEmpty (trim s)) eqn:Et; [|done].
    apply isEmpty_true in Et. unfold trim, trimEnd in Et.
    apply (f_equal (@rev N)) in Et. rewrite rev_involutive in Et. simpl in Et.
    apply trimStart_nil in Et. rewrite forallb_rev in Et.
    destruct (trimStart s) as [|c t] eqn:Es.
    + apply trimStart_nil in Es. congruence.
    + apply trimStart_head in Es. simpl in Et. by rewrite Es in Et.
Qed.

(** ** List parser *)

Section Parser.
Context `{Platform}.
Variables removeEmpty removeDuplicates : bool.

Lemma parseLine_empty acc index line :
  acc_empty (parseLine removeEmpty removeDuplicates acc index line)
  = acc_empty acc + (if whiteOnly line then 1 else 0).
Proof.
  unfold parseLine. rewrite isEmpty_trim.
  destruct (whiteOnly line); simpl.
  - destruct removeEmpty; simpl; [done|].
    destruct (split sepHint (trim line)) as [|wordPart hintParts]; [done|].
    destruct (isEmpty (trim wordPart)); [done|].
    destruct (removeDuplicates && _); done.
  - destruct (split sepHint (trim line)) as [|wordPart hintParts]; [lia|].
    destruct (isEmpty (trim wordPart)); [lia|].
    destruct (removeDuplicates && _); simpl; lia.
Qed.

Lemma forEachLine_empty lines : forall acc index,
  acc_empty (forEachLine removeEmpty removeDuplicates acc index lines)
  = acc_empty acc + Z.of_nat (length (List.filter whiteOnly lines)).
Proof.
  induction lines as [|line rest IH]; intros acc index; simpl; [lia|].
  rewrite IH, parseLine_empty. destruct (whiteOnly line); simpl length; lia.
Qed.

End Parser.

Lemma count_replace_cr s :
  length (List.filter (N.eqb LF) (replace_cr s)) = length (List.filter isBreak s).
Proof.
  induction s as [|c t IH]; simpl; [done|]. unfold isBreak at 1.
  destruct (N.eqb_spec c CR) as [->|Hcr]; simpl.
  - by rewrite IH.
  - rewrite (N.eqb_sym LF c). destruct (c =? LF)%N; simpl; by rewrite IH.
Qed.

Lemma count_replace_crlf_aux s :
  length (List.filter isBreak (replace_crlf s)) = lineBreaks s
  /\ forall c,
     length (List.filter isBreak (replace_crlf (c :: s))) = lineBreaks (c :: s).
Proof.
  induction s as [|d t [IH1 IH2]].
  - split; [done|]. intros c. simpl. unfold isBreak.
    by destruct ((c =? CR) || (c =? LF))%N.
  - split; [apply IH2|]. intros c.
    change (replace_crlf (c :: d :: t))
      with (if ((c =? CR) && (d =? LF))%N then LF :: replace_crlf t
            else c :: replace_crlf (d :: t)).
    change (lineBreaks (c :: d :: t))
      with (if ((c =? CR) && (d =? LF))%N then S (lineBreaks t)
            else ((if ((c =? CR) || (c =? LF))%N then 1 else 0)
                  + lineBreaks (d :: t))%nat).
    destruct ((c =? CR) && (d =? LF))%N.
    + change (List.filter isBreak (LF :: replace_crlf t))
        with (LF :: List.filter isBreak (replace_crlf t)).
      cbn [length]. by rewrite IH1.
    + change (List.filter isBreak (c :: replace_crlf (d :: t)))
        with (if isBreak c then c :: List.filter isBreak (replace_crlf (d :: t))
              else List.filter isBreak (replace_crlf (d :: t))).
      unfold isBreak at 1.
      destruct ((c =? CR) || (c =? LF))%N; cbn [length]; by rewrite IH2.
Qed.

(** The lines of a text are one more than its line breaks. *)
Lemma splitLines_length rawText :
  length (splitLines rawText) = S (lineBreaks rawText).
Proof.
  unfold splitLines, split. rewrite split_go_single_length.
  rewrite count_replace_cr. by rewrite (proj1 (count_replace_crlf_aux rawText)).
Qed.

Lemma splitLines_no_LF rawText line :
  In line (splitLines rawText) -> ~ In LF line.
Proof. apply split_go_single_free. by intros []. Qed.

(** C6 (as the code has it).  On a text with a character that is not
    white space, [totalLines] is the number of lines of the text after
    its line endings are normalised and it is split at the line feeds
    (one more than its line breaks), and [emptyCount] is the number of
    white-space-only lines among them, whatever the two flags are.  On a
    text of white space only (the empty text included) the parser returns
    before splitting and both counts are 0. *)
Theorem parseLines_line_counts `{Platform} (rawText : jsstring)
    (removeEmpty removeDuplicates : bool) :
  let result := parseLines rawText removeEmpty removeDuplicates in
  let lines := splitLines rawText in
  if whiteOnly rawText
  then totalLines result = 0 /\ emptyCount result = 0
  else totalLines result = Z.of_nat (length lines)
       /\ totalLines result = 1 + Z.of_nat (lineBreaks rawText)
       /\ emptyCount result = Z.of_nat (length (List.filter whiteOnly lines)).
Proof.
  intros result lines. subst result lines. unfold parseLines.
  rewrite isEmpty_trim. destruct (whiteOnly rawText); simpl; [done|].
  rewrite forEachLine_empty, splitLines_length. simpl acc_empty. lia.
Qed.

(** C6, the claim as stated fails: a text of two line feeds has three
    lines, all of them empty, and the parser reports no line at all. *)
Lemma parseLines_blank_text_counts_nothing :
  let rawText := [LF; LF] in
  let result := @parseLines asciiPlatform rawText true true in
  splitLines rawText = [[]; []; []]
  /\ totalLines result = 0
  /\ emptyCount result = 0
  /\ totalLines result <> Z.of_nat (length (splitLines rawText))
  /\ emptyCount result
     <> Z.of_nat (length (List.filter whiteOnly (splitLines rawText))).
Proof. vm_compute. repeat split; congruence. Qed.

(** *** The entries of a parsed list *)

Section ParserEntries.
Context `{Platform}.
Variables removeEmpty removeDuplicates : bool.

Lemma parseLine_good acc index line :
  ~ In LF line -> goodPool (acc_entries acc) ->
  goodPool (acc_entries (parseLine removeEmpty removeDuplicates acc index line)).
Proof.
  intros Hline Hacc. unfold parseLine.
  set (acc1 := if isEmpty (trim line) then _ else acc).
  assert (Hacc1 : acc_entries acc1 = acc_entries acc)
    by (subst acc1; by destruct (isEmpty (trim line))).
  destruct (isEmpty (trim line) && removeEmpty); [by rewrite Hacc1|].
  destruct (split sepHint (trim line)) as [|wordPart hintParts] eqn:Es;
    [by rewrite Hacc1|].
  destruct (isEmpty (trim wordPart)) eqn:Ew; [by rewrite Hacc1|].
  destruct (removeDuplicates && _); simpl; rewrite Hacc1; [done|].
  apply Forall_app. split; [done|]. constructor; [|constructor]. simpl.
  split; [apply trim_idem|]. split.
  - intros E. by rewrite E in Ew.
  - intros Hin. apply Hline. apply trim_In. apply trim_In in Hin.
    eapply split_In; [|exact Hin]. rewrite Es. by left.
Qed.

Lemma forEachLine_good lines : forall acc index,
  Forall (fun line => ~ In LF line) lines -> goodPool (acc_entries acc) ->
  goodPool (acc_entries (forEachLine removeEmpty removeDuplicates acc index lines)).
Proof.
  induction lines as [|line rest IH]; intros acc index Hl Hacc; simpl; [done|].
  inversion Hl; subst. apply IH; [done|]. by apply parseLine_good.
Qed.

End ParserEntries.

(** Every word the parser emits is trimmed, non-empty and free of line
    feeds. *)
Lemma parseLines_good `{Platform} rawText removeEmpty removeDuplicates :
  goodPool (entries (parseLines rawText removeEmpty removeDuplicates)).
Proof.
  unfold parseLines. destruct (isEmpty (trim rawText)); simpl; [constructor|].
  apply forEachLine_good; [|constructor].
  apply List.Forall_forall. intros line. apply splitLines_no_LF.
Qed.

Section ParserDedup.
Context `{Platform}.
Variable removeEmpty : bool.

Lemma parseLine_dedup acc index line :
  dedupInv acc -> dedupInv (parseLine removeEmpty true acc index line).
Proof.
  intros [Hnd Hseen]. unfold parseLine.
  set (acc1 := if isEmpty (trim line) then _ else acc).
  assert (Hinv : dedupInv acc1)
    by (subst acc1; destruct (isEmpty (trim line)); by split).
  clearbody acc1. clear Hnd Hseen. destruct Hinv as [Hnd Hseen].
  destruct (isEmpty (trim line) && removeEmpty); [by split|].
  destruct (split sepHint (trim line)) as [|wordPart hintParts]; [by split|].
  destruct (isEmpty (trim wordPart)); [by split|].
  simpl andb. case_bool_decide as Hin; [by split|].
  split; simpl.
  - rewrite map_app. simpl. apply NoDup_app. split; [done|]. split.
    + intros k Hk Hk'. apply list_elem_of_In in Hk'. destruct Hk' as [<-|[]].
      apply Hin. apply list_elem_of_In, in_map_iff in Hk.
      destruct Hk as (e & <- & He). by apply Hseen.
    + apply NoDup_singleton.
  - intros e [He|[<-|[]]]%in_app_or; simpl; [|set_solver].
    apply elem_of_union_r. by apply Hseen.
Qed.

Lemma forEachLine_dedup lines : forall acc index,
  dedupInv acc -> dedupInv (forEachLine removeEmpty true acc index lines).
Proof.
  induction lines as [|line rest IH]; intros acc index Hacc; simpl; [done|].
  apply IH. by apply parseLine_dedup.
Qed.

End ParserDedup.

(** With duplicate removal on, no two entries carry the same word. *)
Lemma parseLines_NoDup `{Platform} rawText removeEmpty :
  NoDup (map word (entries (parseLines rawText removeEmpty true))).
Proof.
  unfold parseLines. destruct (isEmpty (trim rawText)); simpl; [constructor|].
  match goal with |- NoDup (map word (acc_entries ?a)) =>
    assert (Hinv : dedupInv a) end.
  { apply forEachLine_dedup. split; simpl; [constructor|]. by intros e []. }
  destruct Hinv as [Hnd _].
  rewrite <- (map_map word toLowerCase) in Hnd.
  eapply NoDup_fmap_1. exact Hnd.
Qed.

(** ** Mastery store *)

Lemma clampQ_range v : (0 <= clampQ v 0 1 <= 1)%Q.
Proof.
  unfold clampQ. split.
  - apply Q.min_glb; [lra|]. apply Q.le_max_l.
  - apply Q.le_min_l.
Qed.

Lemma answerStat_inRange isCorrect now stat : inRange (answerStat isCorrect now stat).
Proof. unfold inRange, answerStat. destruct isCorrect; apply clampQ_range. Qed.

Lemma rateStat_inRange rating stat : inRange stat -> inRange (rateStat rating stat).
Proof. unfold inRange. destruct rating; simpl; auto using clampQ_range. Qed.

Lemma defaultStat_inRange : inRange defaultStat.
Proof. unfold inRange. simpl. lra. Qed.

Lemma answerStat_counters isCorrect now stat :
  countersAgree stat -> countersAgree (answerStat isCorrect now stat).
Proof. unfold countersAgree, answerStat. destruct isCorrect; simpl; lia. Qed.

Lemma rateStat_counters rating stat :
  countersAgree stat -> countersAgree (rateStat rating stat).
Proof. unfold countersAgree. by destruct rating. Qed.

(** A property of records that holds of a new record and that every
    update keeps, holds of every record of the store along every run. *)
Section StoreInvariant.
Context `{Platform}.
Variable P : WordStat -> Prop.
Hypothesis P_default : P defaultStat.
Hypothesis P_answer : forall isCorrect now stat, P stat -> P (answerStat isCorrect now stat).
Hypothesis P_rate : forall rating stat, P stat -> P (rateStat rating stat).

Lemma ensureStats_all stats entry :
  storeAll P stats -> storeAll P (ensureStats stats entry).
Proof.
  intros Hs. unfold ensureStats. destruct (stats !! word entry); [done|].
  by apply map_Forall_insert_2.
Qed.

Lemma ensureStats_read stats entry :
  storeAll P stats -> P (ensureStats stats entry !!! word entry).
Proof.
  intros Hs. unfold ensureStats. destruct (stats !! word entry) as [stat|] eqn:E.
  - rewrite lookup_total_alt, E. simpl. by eapply (map_Forall_lookup_1 _ _ _ _ Hs).
  - by rewrite lookup_total_insert_eq.
Qed.

Lemma weigh_all entries : forall stats lastWord now,
  storeAll P stats -> storeAll P (weigh entries stats lastWord now).2.
Proof.
  induction entries as [|entry rest IH]; intros stats lastWord now Hs; simpl; [done|].
  specialize (IH (ensureStats stats entry) lastWord now (ensureStats_all _ _ Hs)).
  by destruct (weigh rest (ensureStats stats entry) lastWord now).
Qed.

Lemma pickWeighted_all entries stats lastWord now random :
  storeAll P stats -> storeAll P (pickWeighted entries stats lastWord now random).2.
Proof.
  intros Hs. unfold pickWeighted.
  pose proof (weigh_all entries stats lastWord now Hs) as Hw.
  destruct (weigh entries stats lastWord now) as [weights stats'].
  by destruct (rollLoop _ _ _).
Qed.

Lemma nextQuestion_all now rnd st :
  storeAll P (statsRef st) -> storeAll P (statsRef (nextQuestion now rnd st)).
Proof.
  intros Hs. unfold nextQuestion.
  pose proof (pickWeighted_all (wordPool st) (statsRef st) (lastWordRef st) now
                (rnd_roll rnd) Hs) as Hp.
  by destruct (pickWeighted _ _ _ _ _) as [[entry|] stats].
Qed.

Lemma applyAnswer_all isCorrect now st :
  storeAll P (statsRef st) -> storeAll P (statsRef (applyAnswer isCorrect now st)).
Proof.
  intros Hs. unfold applyAnswer. destruct (currentQuestion st) as [q|]; [|done].
  simpl. apply map_Forall_insert_2.
  - apply P_answer. by apply ensureStats_read.
  - by apply ensureStats_all.
Qed.

Lemma handleSelfRating_all rating now rnd st :
  storeAll P (statsRef st) ->
  storeAll P (statsRef (handleSelfRating rating now rnd st)).
Proof.
  intros Hs. unfold handleSelfRating. destruct (currentQuestion st) as [q|]; [|done].
  apply nextQuestion_all. simpl. apply map_Forall_insert_2.
  - apply P_rate. by apply ensureStats_read.
  - by apply ensureStats_all.
Qed.

Lemma weakWordsMemo_all st :
  storeAll P (statsRef st) -> storeAll P (statsRef (weakWordsMemo st)).
Proof.
  unfold weakWordsMemo. simpl. generalize (statsRef st).
  induction (wordPool st) as [|entry rest IH]; intros stats Hs; simpl; [done|].
  apply IH. by apply ensureStats_all.
Qed.

Lemma handle_all now ev st :
  storeAll P (statsRef st) -> storeAll P (statsRef (handle now ev st)).
Proof.
  intros Hs. destruct ev; simpl; try done.
  - by destruct s.
  - unfold startSession. destruct (_ <? 2)%nat; [done|]. by apply nextQuestion_all.
  - unfold handleChoice. destruct (currentQuestion st), (feedback st); try done.
    destruct (_ || _); [done|]. by apply applyAnswer_all.
  - unfold submitTyped. destruct (currentQuestion st), (feedback st); try done.
    by apply applyAnswer_all.
  - by apply handleSelfRating_all.
  - unfold sessionTick. by destruct (stage st), (paused st), (sessionLength st).
  - unfold questionTick.
    destruct (stage st), (paused st), (feedback st), (difficulty st),
      (currentQuestion st); try done.
    by destruct (_ <=? 0).
  - by apply weakWordsMemo_all.
Qed.

Lemma effects_all now st :
  storeAll P (statsRef st) -> storeAll P (statsRef (effects now st)).
Proof.
  intros Hs. unfold effects.
  assert (storeAll P (statsRef (if timesOut st then applyAnswer false now st else st))).
  { destruct (timesOut st); [|done]. by apply applyAnswer_all. }
  by destruct (sessionEnds st).
Qed.

Lemma step_all st occ :
  storeAll P (statsRef st) -> storeAll P (statsRef (step st occ)).
Proof. intros Hs. unfold step, settle. by apply effects_all, effects_all, handle_all. Qed.

Lemma run_all trace : forall st,
  storeAll P (statsRef st) -> storeAll P (statsRef (run st trace)).
Proof.
  induction trace as [|occ trace IH]; intros st Hs; [done|].
  apply IH. by apply step_all.
Qed.

Lemma updates_all updates : forall stat,
  P stat -> P (fold_left applyUpdate updates stat).
Proof.
  induction updates as [|u updates IH]; intros stat Hs; [done|].
  apply IH. destruct u; simpl; auto.
Qed.

End StoreInvariant.





(** ** Session engine *)

Lemma clamp_range value lo hi : lo <= hi -> lo <= clamp value lo hi <= hi.
Proof. unfold clamp. lia. Qed.

(** [Math.floor(streak / 3)] on an integer streak is integer division. *)
Lemma floor_third (n : Z) : Qfloor (inject_Z n / 3) = n / 3.
Proof. unfold Qfloor, Qdiv, Qmult, inject_Z. simpl. by rewrite Z.mul_1_r. Qed.

Lemma applyAnswer_session isCorrect now st q :
  currentQuestion st = Some q ->
  session (applyAnswer isCorrect now st) = answerSession isCorrect (session st)
  /\ currentQuestion (applyAnswer isCorrect now st) = Some q.
Proof. intros Hq. unfold applyAnswer. by rewrite Hq. Qed.

(** C2.  From a session with score 0 and streak 0, five correct answers
    in a row give streak 5 and combo 2, add 10, 10, 20, 20 and 20 to the
    score, and leave it at 80.  On every correct answer the streak grows
    by one, the combo is [clamp(1 + floor(streak / 3), 1, 5)] at the new
    streak, and the score grows by ten times that combo. *)
Theorem five_correct_answers (fresh : SessionState) :
  score fresh = 0 -> streak fresh = 0 -> combo fresh = 1 ->
  let s1 := answerSession true fresh in
  let s2 := answerSession true s1 in
  let s3 := answerSession true s2 in
  let s4 := answerSession true s3 in
  let s5 := answerSession true s4 in
  streak s5 = 5 /\ combo s5 = 2
  /\ map streak [s1; s2; s3; s4; s5] = [1; 2; 3; 4; 5]
  /\ score s1 - score fresh = 10
  /\ score s2 - score s1 = 10
  /\ score s3 - score s2 = 20
  /\ score s4 - score s3 = 20
  /\ score s5 - score s4 = 20
  /\ score s5 = 80
  /\ (forall prev,
        let next := answerSession true prev in
        streak next = streak prev + 1
        /\ combo next = clamp (1 + Qfloor (inject_Z (streak next) / 3)) 1 5
        /\ score next = score prev + 10 * combo next)
  /\ (forall st q now,
        currentQuestion st = Some q ->
        session (applyAnswer true now st) = answerSession true (session st)).
Proof.
  intros Hscore Hstreak Hcombo s1 s2 s3 s4 s5.
  split_and!;
    try (subst s1 s2 s3 s4 s5; simpl; rewrite ?Hscore, ?Hstreak; reflexivity).
  - intros prev next. subst next. rewrite floor_third. by split_and!.
  - intros st q now Hq. by apply (applyAnswer_session true now st q).
Qed.

Lemma five_correct_answers_witness :
  let s5 := Nat.iter 5 (answerSession true) (freshSession 300) in
  streak s5 = 5 /\ combo s5 = 2 /\ score s5 = 80.
Proof.
  pose proof (five_correct_answers (freshSession 300) eq_refl eq_refl eq_refl)
    as (H1 & H2 & _ & _ & _ & _ & _ & _ & H3 & _).
  exact (conj H1 (conj H2 H3)).
Defined.

Lemma answerSession_energy isCorrect prev :
  energy (answerSession isCorrect prev)
  = clamp (energy prev + (if isCorrect then 8 else -18)) 0 100
  /\ 0 <= energy (answerSession isCorrect prev) <= 100.
Proof. split; [done|]. simpl. by apply clamp_range. Qed.

Lemma applyAnswer_energy isCorrect now st :
  energyOk st -> energyOk (applyAnswer isCorrect now st).
Proof.
  unfold energyOk, applyAnswer. destruct (currentQuestion st); [|done].
  intros _. apply answerSession_energy.
Qed.

Lemma nextQuestion_session now rnd st :
  session (nextQuestion now rnd st) = session st
  /\ stage (nextQuestion now rnd st) = stage st.
Proof.
  unfold nextQuestion. by destruct (pickWeighted _ _ _ _ _) as [[entry|] stats].
Qed.

Lemma handle_energy `{Platform} now ev st :
  energyOk st -> energyOk (handle now ev st).
Proof.
  unfold energyOk. intros Hs. destruct ev; simpl; try done.
  - by destruct s.
  - unfold startSession. destruct (_ <? 2)%nat; [done|].
    rewrite (proj1 (nextQuestion_session _ _ _)). simpl. lia.
  - unfold handleChoice. destruct (currentQuestion st), (feedback st); try done.
    destruct (_ || _); [done|]. by apply applyAnswer_energy.
  - unfold submitTyped. destruct (currentQuestion st), (feedback st); try done.
    by apply applyAnswer_energy.
  - unfold handleSelfRating. destruct (currentQuestion st); [|done].
    by rewrite (proj1 (nextQuestion_session _ _ _)).
  - unfold sessionTick. by destruct (stage st), (paused st), (sessionLength st).
  - unfold questionTick.
    destruct (stage st), (paused st), (feedback st), (difficulty st),
      (currentQuestion st); try done.
    by destruct (_ <=? 0).
Qed.

Lemma effects_energy now st : energyOk st -> energyOk (effects now st).
Proof.
  intros Hs. unfold effects.
  assert (energyOk (if timesOut st then applyAnswer false now st else st)).
  { destruct (timesOut st); [|done]. by apply applyAnswer_energy. }
  by destruct (sessionEnds st).
Qed.

(** After a timed-out question has been answered the timeout does not
    fire again. *)
Lemma effects_timesOut now st : timesOut (effects now st) = false.
Proof.
  unfold effects. destruct (timesOut st) eqn:Et.
  - assert (Hq : exists q, currentQuestion st = Some q).
    { unfold timesOut in Et.
      destruct (stage st), (difficulty st), (feedback st), (currentQuestion st);
        try done. eauto. }
    destruct Hq as [q Hq].
    assert (Hf : feedback (applyAnswer false now st) = wrong_fb)
      by (unfold applyAnswer; by rewrite Hq).
    assert (timesOut (applyAnswer false now st) = false).
    { unfold timesOut. rewrite Hf.
      by destruct (stage (applyAnswer false now st)),
           (difficulty (applyAnswer false now st)). }
    destruct (sessionEnds st); [|done]. done.
  - destruct (sessionEnds st); [|done]. done.
Qed.

Lemma sessionEnds_false st :
  sessionEnds st = false -> stage st = play -> 0 < energy (session st).
Proof.
  unfold sessionEnds. intros He Hs. rewrite Hs in He.
  destruct (energy (session st) <=? 0) eqn:E; [done|]. lia.
Qed.

(** Once the effects have settled, a session still playing has energy. *)
Lemma settle_playing now st :
  stage (settle now st) = play -> 0 < energy (session (settle now st)).
Proof.
  unfold settle. set (mid := effects now st).
  pose proof (effects_timesOut now st) as Ht. fold mid in Ht.
  unfold effects at 1 2. rewrite Ht.
  destruct (sessionEnds mid) eqn:Ee; [done|]. by apply sessionEnds_false.
Qed.

(** A third round of effects changes nothing. *)
Lemma settle_stable now st : effects now (settle now st) = settle now st.
Proof.
  unfold settle. set (mid := effects now st).
  pose proof (effects_timesOut now st) as Ht. fold mid in Ht.
  unfold effects at 2. unfold effects at 2. rewrite Ht.
  destruct (sessionEnds mid) eqn:Ee.
  - unfold effects. by simpl.
  - unfold effects. by rewrite Ht, Ee.
Qed.

Lemma run_snoc `{Platform} st trace occ :
  run st (trace ++ [occ]) = step (run st trace) occ.
Proof. unfold run. by rewrite fold_left_app. Qed.

Lemma run_energy `{Platform} trace : forall st,
  energyOk st -> energyOk (run st trace).
Proof.
  induction trace as [|occ trace IH]; intros st Hs; [done|].
  apply IH. unfold step, settle. by apply effects_energy, effects_energy, handle_energy.
Qed.

Lemma run_playing `{Platform} stats daily trace :
  let final := run (initialApp stats daily) trace in
  stage final = play -> 0 < energy (session final).
Proof.
  destruct trace as [|occ trace _] using rev_ind; [done|].
  rewrite run_snoc. apply settle_playing.
Qed.

(** C3.  Energy starts at 100, an answer changes it by +8 or -18 and
    clamps it to [0,100], so it is within [0,100] after every run of the
    component.  A playing state with energy at or below 0 is ended by
    the session-end effect whatever the time left and the session length
    are, zen included; hence after every run a session that is still
    playing has energy above 0. *)
Theorem energy_bounded_and_depletion_ends `{Platform}
    (stats : gmap (list N) WordStat) (daily : DailyGoal)
    (trace : list (Z * Event)) (st : App) (now : Z) :
  stage st = play -> energy (session st) <= 0 ->
  let final := run (initialApp stats daily) trace in
  (stage (sessionEndEffect st) = summary /\ stage (effects now st) = summary)
  /\ energy (session (initialApp stats daily)) = 100
  /\ (forall isCorrect prev,
        energy (answerSession isCorrect prev)
        = clamp (energy prev + (if isCorrect then 8 else -18)) 0 100)
  /\ 0 <= energy (session final) <= 100
  /\ (stage final = play -> 0 < energy (session final)).
Proof.
  intros Hstage Henergy final. split; [|split; [done|split; [done|split]]].
  - unfold sessionEndEffect, effects.
    assert (He : sessionEnds st = true).
    { unfold sessionEnds. rewrite Hstage.
      destruct (energy (session st) <=? 0) eqn:E; [done|]. lia. }
    by rewrite He.
  - apply run_energy. unfold energyOk. simpl. lia.
  - apply run_playing.
Qed.

Lemma energy_bounded_and_depletion_ends_witness :
  stage drainedState = play
  /\ energy (session drainedState) <= 0
  /\ sessionLength drainedState = zen
  /\ stage (sessionEndEffect drainedState) = summary.
Proof.
  assert (Hs : stage drainedState = play) by (vm_compute; reflexivity).
  assert (He : energy (session drainedState) <= 0) by (vm_compute; discriminate).
  pose proof (@energy_bounded_and_depletion_ends asciiPlatform ∅ sampleDaily
                sampleTrace drainedState 6000 Hs He) as ((Hend & _) & _).
  split_and!; [exact Hs | exact He | vm_compute; reflexivity | exact Hend].
Defined.

(** ** Word sampler *)

Lemma rollLoop_In entries : forall weights roll e,
  rollLoop entries weights roll = Some e -> In e entries.
Proof.
  induction entries as [|entry rest IH]; intros [|w ws] roll e; simpl; try done.
  destruct (Qle_bool (roll - w) 0).
  - intros [= <-]. by left.
  - intros Hr. right. by eapply IH.
Qed.

Lemma statOf_ensure stats entry w :
  statOf (ensureStats stats entry) w = statOf stats w.
Proof.
  unfold statOf, ensureStats. destruct (stats !! word entry) eqn:E; [done|].
  destruct (decide (word entry = w)) as [<-|Hne].
  - by rewrite lookup_insert_eq, E.
  - by rewrite lookup_insert_ne.
Qed.

Lemma ensureStats_total stats entry :
  ensureStats stats entry !!! word entry = statOf stats (word entry).
Proof. rewrite lookup_total_alt. apply statOf_ensure. Qed.

(** The weights do not depend on the records created along the way. *)
Lemma weigh_weights entries lastWord now : forall stats,
  (weigh entries stats lastWord now).1
  = map (fun e => weightOf (statOf stats (word e)) (word e) lastWord now) entries.
Proof.
  induction entries as [|entry rest IH]; intros stats; simpl; [done|].
  specialize (IH (ensureStats stats entry)).
  destruct (weigh rest (ensureStats stats entry) lastWord now) as [ws stats2].
  simpl in *. rewrite IH, ensureStats_total. f_equal.
  apply map_ext. intros e. by rewrite statOf_ensure.
Qed.

Lemma weigh_store entries lastWord now : forall stats,
  (weigh entries stats lastWord now).2 = fold_left ensureStats entries stats.
Proof.
  induction entries as [|entry rest IH]; intros stats; simpl; [done|].
  specialize (IH (ensureStats stats entry)).
  by destruct (weigh rest (ensureStats stats entry) lastWord now).
Qed.

(** The loop returns the entry at the first round that brings the roll
    to zero or below. *)
Lemma rollLoop_first entries : forall weights roll i e,
  length weights = length entries ->
  entries !! i = Some e ->
  (rollAfter weights roll (S i) <= 0)%Q ->
  (forall k, (k < i)%nat -> ~ (rollAfter weights roll (S k) <= 0)%Q) ->
  rollLoop entries weights roll = Some e.
Proof.
  induction entries as [|entry rest IH]; intros [|w ws] roll i e Hlen Hi Hle Hlt;
    try done.
  simpl. destruct i as [|i].
  - simpl in Hi. injection Hi as ->. unfold rollAfter in Hle. simpl in Hle.
    apply Qle_bool_iff in Hle. by rewrite Hle.
  - destruct (Qle_bool (roll - w) 0) eqn:E.
    + exfalso. apply (Hlt 0%nat); [lia|]. unfold rollAfter. simpl.
      by apply Qle_bool_iff.
    + apply (IH ws (roll - w)%Q i e); [simpl in Hlen; lia|done|done|].
      intros k Hk. apply (Hlt (S k)). lia.
Qed.

Lemma rollLoop_none entries : forall weights roll,
  length weights = length entries ->
  (forall k, (k < length entries)%nat -> ~ (rollAfter weights roll (S k) <= 0)%Q) ->
  rollLoop entries weights roll = None.
Proof.
  induction entries as [|entry rest IH]; intros [|w ws] roll Hlen Hlt; try done.
  simpl. destruct (Qle_bool (roll - w) 0) eqn:E.
  - exfalso. apply (Hlt 0%nat); [simpl; lia|]. unfold rollAfter. simpl.
    by apply Qle_bool_iff.
  - apply IH; [simpl in Hlen; lia|]. intros k Hk. apply (Hlt (S k)). simpl. lia.
Qed.

Lemma weightOf_formula stat w lastWord now :
  exists noveltyBonus recentMissBonus recencyPenalty : Q,
    weightOf stat w lastWord now
    = ((0.2 + (1 - mastery stat) * 0.9 + noveltyBonus + recentMissBonus)
       * recencyPenalty)%Q
    /\ (exposures stat = 0 /\ noveltyBonus = 0.6%Q
        \/ exposures stat <> 0 /\ noveltyBonus = 0%Q)
    /\ (now - lastMiss stat < 36 * 3600 * 1000 /\ recentMissBonus = 0.5%Q
        \/ ~ now - lastMiss stat < 36 * 3600 * 1000 /\ recentMissBonus = 0%Q)
    /\ (lastWord = Some w /\ recencyPenalty = 0.5%Q
        \/ lastWord <> Some w /\ recencyPenalty = 1%Q).
Proof.
  unfold weightOf. do 3 eexists. split; [reflexivity|]. split_and!.
  - destruct (Z.eqb_spec (exposures stat) 0); [left|right]; done.
  - destruct (Z.ltb_spec (now - lastMiss stat) (36 * 60 * 60 * 1000));
      [left|right]; split; try done; lia.
  - case_bool_decide; [left|right]; split; done.
Qed.


(** ** Question generator *)

(** An index drawn from [Math.random()], a value of [0, 1), is below the
    bound it is scaled by. *)
Lemma randIndex_range (random : Q) (n : Z) :
  (0 <= random)%Q -> (random < 1)%Q -> 0 < n ->
  (randIndex random n < Z.to_nat n)%nat.
Proof.
  intros H0 H1 Hn. unfold randIndex.
  assert (Hnq : (0 < inject_Z n)%Q)
    by (change (inject_Z 0 < inject_Z n)%Q; by rewrite <- Zlt_Qlt).
  assert (Hlo : 0 <= Qfloor (random * inject_Z n)).
  { rewrite <- (Qfloor_Z 0). apply Qfloor_resp_le.
    apply Qmult_le_0_compat; [done|]. by apply Qlt_le_weak. }
  assert (Hhi : Qfloor (random * inject_Z n) < n).
  { rewrite Zlt_Qlt. eapply Qle_lt_trans; [apply Qfloor_le|].
    assert (Hm : (random * inject_Z n < 1 * inject_Z n)%Q)
      by (by apply Qmult_lt_compat_r).
    by rewrite Qmult_1_l in Hm. }
  lia.
Qed.

Lemma count_Permutation {A} (p : A -> bool) (l k : list A) :
  l ≡ₚ k -> length (List.filter p l) = length (List.filter p k).
Proof.
  induction 1 as [|x l k _ IH|x y l|l k m _ IH1 _ IH2]; simpl.
  - done.
  - destruct (p x); simpl; by rewrite IH.
  - by destruct (p x), (p y).
  - by rewrite IH1.
Qed.

Lemma count_app {A} (p : A -> bool) (l k : list A) :
  length (List.filter p (l ++ k))
  = (length (List.filter p l) + length (List.filter p k))%nat.
Proof. by rewrite List.filter_app, length_app. Qed.

Lemma count_complement {A} (p : A -> bool) (l : list A) :
  (length (List.filter p l) + length (List.filter (fun x => negb (p x)) l))%nat
  = length l.
Proof. induction l as [|x l IH]; simpl; [done|]. destruct (p x); simpl; lia. Qed.

Lemma count_zero {A} (p : A -> bool) (l : list A) x :
  length (List.filter p l) = 0%nat -> In x l -> p x = false.
Proof.
  induction l as [|y l IH]; simpl; [done|].
  destruct (p y) eqn:E; simpl; [done|]. intros H0 [<-|Hin]; auto.
Qed.

(** [findIndex] where exactly one element passes: it returns the
    position of that element. *)
Lemma findIndexFrom_unique {A} (p : A -> bool) (l : list A) : forall i,
  length (List.filter p l) = 1%nat ->
  let r := findIndexFrom p i l in
  i <= r < i + Z.of_nat (length l)
  /\ (exists c, l !! Z.to_nat (r - i) = Some c /\ p c = true)
  /\ (forall j c, l !! j = Some c -> p c = true -> i + Z.of_nat j = r).
Proof.
  induction l as [|x l IH]; intros i; simpl; [done|].
  destruct (p x) eqn:E; simpl.
  - intros [= H0]. split_and!; try lia.
    + exists x. by rewrite Z.sub_diag.
    + intros [|j] c Hj Hc; [lia|]. simpl in Hj.
      apply list_elem_of_lookup_2, list_elem_of_In in Hj.
      by rewrite (count_zero p l c H0 Hj) in Hc.
  - intros H1. destruct (IH (i + 1) H1) as (Hr & (c & Hc & Hpc) & Huniq).
    split_and!; try lia.
    + exists c. split; [|done].
      replace (Z.to_nat (findIndexFrom p (i + 1) l - i))
        with (S (Z.to_nat (findIndexFrom p (i + 1) l - (i + 1)))) by lia.
      done.
    + intros [|j] d Hj Hd; simpl in Hj.
      * injection Hj as ->. congruence.
      * rewrite <- (Huniq j d Hj Hd). lia.
Qed.

Lemma findIndex_unique {A} (p : A -> bool) (l : list A) :
  length (List.filter p l) = 1%nat ->
  0 <= findIndex p l < Z.of_nat (length l)
  /\ (exists c, l !! Z.to_nat (findIndex p l) = Some c /\ p c = true)
  /\ (forall j c, l !! j = Some c -> p c = true -> Z.of_nat j = findIndex p l).
Proof.
  intros H1. destruct (findIndexFrom_unique p l 0 H1) as (Hr & (c & Hc & Hp) & Hu).
  unfold findIndex. split_and!; try lia.
  - exists c. by rewrite Z.sub_0_r in Hc.
  - intros j d Hj Hd. by rewrite <- (Hu j d Hj Hd).
Qed.

Lemma wordIs_true w e : wordIs w e = true <-> word e = w.
Proof. unfold wordIs. by rewrite bool_decide_eq_true. Qed.

Lemma differs_negb entry correct :
  bool_decide (word entry ≠ word correct) = negb (wordIs (word correct) entry).
Proof. unfold wordIs. by rewrite bool_decide_not. Qed.

Section PickChoices.
Variable correct : WordEntry.
Variable size : Z.

Lemma fillChoices_length shuffled : forall choices,
  Z.of_nat (length choices) <= size ->
  Z.of_nat (length (fillChoices choices shuffled correct size))
  = Z.min size (Z.of_nat (length choices)
                + Z.of_nat (others shuffled (word correct))).
Proof.
  unfold others.
  induction shuffled as [|e rest IH]; intros choices Hle; simpl; [lia|].
  rewrite Z.geb_leb. destruct (Z.leb_spec size (Z.of_nat (length choices))); [lia|].
  rewrite differs_negb. destruct (negb (wordIs (word correct) e)); simpl.
  - rewrite IH by (rewrite length_app; simpl; lia).
    rewrite length_app. simpl. lia.
  - by rewrite IH.
Qed.

(** The loop adds no entry that carries the correct word. *)
Lemma fillChoices_matches shuffled : forall choices,
  length (List.filter (wordIs (word correct))
            (fillChoices choices shuffled correct size))
  = length (List.filter (wordIs (word correct)) choices).
Proof.
  induction shuffled as [|e rest IH]; intros choices; simpl; [done|].
  destruct (_ >=? size); [done|].
  rewrite differs_negb. destruct (wordIs (word correct) e) eqn:E; simpl; [done|].
  rewrite IH, count_app. simpl. rewrite E. simpl. lia.
Qed.

End PickChoices.

Lemma pickChoices_length sh1 sh2 pool correct size :
  validShuffle sh1 -> validShuffle sh2 -> 1 <= size ->
  Z.of_nat (length (pickChoices sh1 sh2 pool correct size))
  = Z.min size (1 + Z.of_nat (others pool (word correct))).
Proof.
  intros H1 H2 Hs. unfold pickChoices. rewrite (Permutation_length (H2 _)).
  rewrite fillChoices_length by (simpl; lia). simpl length.
  unfold others. by rewrite (count_Permutation _ _ _ (H1 pool)).
Qed.

Lemma pickChoices_matches sh1 sh2 pool correct size :
  validShuffle sh2 ->
  length (List.filter (wordIs (word correct))
            (pickChoices sh1 sh2 pool correct size)) = 1%nat.
Proof.
  intros H2. unfold pickChoices. rewrite (count_Permutation _ _ _ (H2 _)).
  rewrite fillChoices_matches. simpl.
  by rewrite (proj2 (wordIs_true (word correct) correct)).
Qed.

Lemma setAdd_length next variants :
  (length (setAdd next variants) <= S (length variants))%nat.
Proof.
  unfold setAdd. case_bool_decide; [lia|]. rewrite length_app. simpl. lia.
Qed.

Lemma variantsLoop_length normalized total draws fuel : forall guard variants,
  Z.of_nat (length variants) <= total - 1 ->
  Z.of_nat (length (variantsLoop fuel guard variants normalized total draws))
  <= total - 1.
Proof.
  induction fuel as [|fuel IH]; intros guard variants Hle; simpl; [done|].
  destruct (Z.ltb_spec (Z.of_nat (length variants)) (total - 1)); [|done].
  apply IH. destruct (_ && _); [|lia].
  pose proof (setAdd_length (mutateWord normalized (draws guard)) variants). lia.
Qed.

Lemma variantsLoop_differ normalized total draws fuel : forall guard variants,
  Forall (fun v => v <> normalized) variants ->
  Forall (fun v => v <> normalized)
    (variantsLoop fuel guard variants normalized total draws).
Proof.
  induction fuel as [|fuel IH]; intros guard variants Hall; simpl; [done|].
  destruct (_ <? _); [|done]. apply IH.
  destruct (negb _) eqn:En; simpl; [|done].
  case_bool_decide as Hne; [|done].
  unfold setAdd. case_bool_decide; [done|].
  apply Forall_app. split; [done|]. by constructor.
Qed.

(** The variants: the trimmed word first, then [total - 1] strings that
    all differ from it. *)
Lemma similarChoices_Some w total draws variants :
  1 <= total ->
  similarChoices w total draws = Some variants ->
  exists rest, variants = trim w :: rest
    /\ Z.of_nat (length variants) = total
    /\ Forall (fun v => v <> trim w) rest.
Proof.
  intros Ht. unfold similarChoices. destruct (_ || _); [done|].
  pose proof (variantsLoop_length (trim w) total draws 40 0 []) as Hl.
  pose proof (variantsLoop_differ (trim w) total draws 40 0 []) as Hd.
  revert Hl Hd. generalize (variantsLoop 40 0 [] (trim w) total draws).
  intros vs Hl Hd.
  destruct (Z.ltb_spec (Z.of_nat (length vs)) (total - 1)); [done|].
  intros [= <-]. exists vs. split; [done|]. split.
  - assert (Z.of_nat (length vs) <= total - 1) by (apply Hl; simpl; lia).
    rewrite length_cons. lia.
  - apply Hd. constructor.
Qed.

Lemma imap_words (g : nat -> jsstring -> WordEntry) (l : list jsstring) :
  (forall i v, word (g i v) = v) -> map word (imap g l) = l.
Proof.
  revert g. induction l as [|v l IH]; intros g Hg; simpl; [done|].
  rewrite Hg. f_equal. apply IH. intros i v'. apply Hg.
Qed.

Lemma count_map {A B} (f : A -> B) (p : B -> bool) (l : list A) :
  length (List.filter p (map f l)) = length (List.filter (fun x => p (f x)) l).
Proof. induction l as [|x l IH]; simpl; [done|]. destruct (p (f x)); simpl; by rewrite IH. Qed.

Lemma count_none (w : jsstring) (l : list jsstring) :
  Forall (fun v => v <> w) l ->
  length (List.filter (fun v => bool_decide (v = w)) l) = 0%nat.
Proof.
  induction 1 as [|v l Hv _ IH]; simpl; [done|].
  by rewrite bool_decide_eq_false_2.
Qed.

Local Arguments similarChoices : simpl never.
Local Arguments pickChoices : simpl never.

Lemma choice_size_pos (n : nat) : 2 <= Z.min 4 (Z.max 2 (Z.of_nat n)).
Proof. lia. Qed.

(** The size of the choice list, and the place of the correct word. *)
Lemma questionFor_choices wordPool difficulty sampled rnd :
  validRandom rnd -> difficulty <> hard ->
  let q := questionFor wordPool difficulty sampled rnd in
  let size := Z.min 4 (Z.max 2 (Z.of_nat (length wordPool))) in
  mode q = choice /\ entry q = sampled
  /\ correctIndex q = findIndex (wordIs (word sampled)) (choices q)
  /\ (match difficulty, similarChoices (word sampled) size (rnd_mutations rnd) with
      | normal, Some _ => Z.of_nat (length (choices q)) = size
      | _, _ => Z.of_nat (length (choices q))
                = Z.min size (1 + Z.of_nat (others wordPool (word sampled)))
      end)
  /\ (trim (word sampled) = word sampled ->
      length (List.filter (wordIs (word sampled)) (choices q)) = 1%nat).
Proof.
  intros [Hsh1 Hsh2] Hd q size.
  pose proof (choice_size_pos (length wordPool)) as Hsize. fold size in Hsize.
  assert (Hpool :
    Z.of_nat (length (pickChoices (rnd_shufflePool rnd) (rnd_shuffleChoices rnd)
                        wordPool sampled size))
    = Z.min size (1 + Z.of_nat (others wordPool (word sampled)))
    /\ length (List.filter (wordIs (word sampled))
                 (pickChoices (rnd_shufflePool rnd) (rnd_shuffleChoices rnd)
                    wordPool sampled size)) = 1%nat).
  { split; [apply pickChoices_length; auto; lia | by apply pickChoices_matches]. }
  destruct Hpool as [Hlen Hone].
  destruct difficulty; [| |done]; subst q; unfold questionFor; fold size;
    cbn [mode entry choices correctIndex].
  - by split_and!.
  - destruct (similarChoices (word sampled) size (rnd_mutations rnd))
      as [variants|] eqn:Es; [|by split_and!].
    apply similarChoices_Some in Es; [|lia].
    destruct Es as (rest & -> & Hvl & Hrest).
    split_and!; try done.
    + by rewrite (Permutation_length (Hsh2 _)), length_imap.
    + intros Htrim. rewrite (count_Permutation _ _ _ (Hsh2 _)).
      assert (Hw : forall l,
        length (List.filter (wordIs (word sampled)) l)
        = length (List.filter (fun v => bool_decide (v = word sampled)) (map word l)))
        by (intros l; by rewrite count_map).
      rewrite Hw, imap_words by done. rewrite Htrim in *. simpl.
      rewrite bool_decide_eq_true_2 by done. simpl. by rewrite count_none.
Qed.

Lemma count_one_NoDup (pool : list WordEntry) (e : WordEntry) :
  NoDup (map word pool) -> In e pool ->
  length (List.filter (wordIs (word e)) pool) = 1%nat.
Proof.
  induction pool as [|x rest IH]; simpl; [done|].
  intros [Hx Hnd]%NoDup_cons [->|Hin].
  - rewrite (proj2 (wordIs_true (word e) e)) by done. simpl. f_equal.
    assert (Hw : forall l,
      length (List.filter (wordIs (word e)) l)
      = length (List.filter (fun v => bool_decide (v = word e)) (map word l)))
      by (intros l; by rewrite count_map).
    rewrite Hw. apply count_none. apply List.Forall_forall.
    intros v Hv ->. apply Hx. by apply list_elem_of_In.
  - assert (Hne : wordIs (word e) x = false).
    { apply not_true_is_false. rewrite wordIs_true. intros Heq. apply Hx.
      rewrite Heq. apply list_elem_of_In, in_map_iff. eauto. }
    rewrite Hne. by apply IH.
Qed.

Lemma others_NoDup (pool : list WordEntry) (e : WordEntry) :
  NoDup (map word pool) -> In e pool ->
  (1 + others pool (word e) = length pool)%nat.
Proof.
  intros Hnd Hin. unfold others.
  rewrite <- (count_one_NoDup pool e Hnd Hin). apply count_complement.
Qed.

(** C5 (as the code has it).  A choice question on a pool never has more
    than [min(4, max(2, poolSize))] choices.  It has exactly that many
    when the distractors are mutations of the word; when they come from
    the pool it has that many or one more than the number of pool
    entries whose word differs from the sampled word, whichever is
    smaller.  So it has exactly that many whenever the sampled entry is
    from a pool of at least two entries with pairwise different words,
    as every pool parsed with duplicate removal on is. *)
Theorem choice_count `{Platform} (wordPool : list WordEntry)
    (difficulty : Difficulty) (sampled : WordEntry) (rnd : Random) :
  validRandom rnd -> difficulty <> hard ->
  let q := questionFor wordPool difficulty sampled rnd in
  let size := Z.min 4 (Z.max 2 (Z.of_nat (length wordPool))) in
  let count := Z.of_nat (length (choices q)) in
  mode q = choice
  /\ count <= size
  /\ (match difficulty, similarChoices (word sampled) size (rnd_mutations rnd) with
      | normal, Some _ => count = size
      | _, _ => count = Z.min size (1 + Z.of_nat (others wordPool (word sampled)))
      end)
  /\ ((2 <= length wordPool)%nat -> In sampled wordPool ->
      NoDup (map word wordPool) -> count = size)
  /\ (forall rawText removeEmpty,
        wordPool = entries (parseLines rawText removeEmpty true) ->
        (2 <= length wordPool)%nat -> In sampled wordPool -> count = size).
Proof.
  intros Hrnd Hd q size count.
  destruct (questionFor_choices wordPool difficulty sampled rnd Hrnd Hd)
    as (Hmode & _ & _ & Hlen & _).
  fold q size count in Hlen.
  assert (Hdistinct : (2 <= length wordPool)%nat -> In sampled wordPool ->
                      NoDup (map word wordPool) -> count = size).
  { intros H2 Hin Hnd. pose proof (others_NoDup wordPool sampled Hnd Hin) as Ho.
    destruct difficulty; [|destruct (similarChoices _ _ _)|done]; subst size; lia. }
  split_and!; try done.
  - destruct difficulty; [|destruct (similarChoices _ _ _)|done]; lia.
  - intros rawText removeEmpty -> H2 Hin. apply Hdistinct; [done|done|].
    apply parseLines_NoDup.
Qed.

(** C5, the claim as stated fails: with duplicate removal off, the list
    [run], [run] gives a pool of two entries, a session starts on it, and
    its first question has one choice where [min(4, max(2, 2))] is 2. *)
Lemma duplicate_words_give_one_choice :
  let st := @run asciiPlatform (initialApp ∅ sampleDaily) dupTrace in
  length (wordPool st) = 2%nat
  /\ stage st = play
  /\ exists q, currentQuestion st = Some q
       /\ mode q = choice
       /\ map word (choices q) = [str "run"]
       /\ Z.of_nat (length (choices q))
          <> Z.min 4 (Z.max 2 (Z.of_nat (length (wordPool st)))).
Proof.
  vm_compute. split_and!; try reflexivity.
  eexists. split_and!; try reflexivity. discriminate.
Qed.

Lemma pickWeighted_In entries stats lastWord now random e :
  (pickWeighted entries stats lastWord now random).1 = Some e -> In e entries.
Proof.
  unfold pickWeighted. destruct (weigh entries stats lastWord now) as [ws stats'].
  destruct (rollLoop entries ws _) as [e'|] eqn:Er; simpl.
  - intros [= <-]. by eapply rollLoop_In.
  - destruct entries; simpl; [done|]. intros [= <-]. by left.
Qed.

Lemma questionFor_ok wordPool difficulty sampled rnd :
  validRandom rnd -> trim (word sampled) = word sampled ->
  questionOk (questionFor wordPool difficulty sampled rnd).
Proof.
  intros Hrnd Htrim Hmode.
  assert (Hd : difficulty <> hard) by (intros ->; done).
  destruct (questionFor_choices wordPool difficulty sampled rnd Hrnd Hd)
    as (_ & He & Hci & _ & Hone).
  specialize (Hone Htrim). rewrite He, Hci.
  destruct (findIndex_unique _ _ Hone) as (Hr & (c & Hc & Hp) & Hu).
  split_and!; [lia|lia| |].
  - exists c. split; [done|]. by apply wordIs_true.
  - intros j d Hj Hw. apply (Hu j d Hj). by apply wordIs_true.
Qed.

Lemma nextQuestion_ok now rnd st :
  validRandom rnd -> appOk st -> appOk (nextQuestion now rnd st).
Proof.
  intros Hrnd [Hpool Hq]. unfold nextQuestion.
  destruct (pickWeighted _ _ _ _ _) as [[sampled|] stats] eqn:Ep; [|by split].
  split; simpl; [done|]. intros q [= <-].
  apply questionFor_ok; [done|].
  assert (Hin : In sampled (wordPool st)).
  { eapply pickWeighted_In. by rewrite Ep. }
  unfold goodPool in Hpool. rewrite List.Forall_forall in Hpool.
  by destruct (Hpool sampled Hin).
Qed.

Lemma applyAnswer_ok isCorrect now st : appOk st -> appOk (applyAnswer isCorrect now st).
Proof.
  intros Hst. unfold applyAnswer.
  destruct (currentQuestion st) as [q0|] eqn:E; [|done].
  destruct Hst as [Hp Hq]. split; simpl; [done|].
  intros q Hq0. apply Hq. by rewrite <- Hq0.
Qed.

Lemma handle_ok `{Platform} now ev st :
  validEvent ev -> appOk st -> appOk (handle now ev st).
Proof.
  intros Hev Hst. destruct ev; simpl in *; try done.
  - by destruct s.
  - destruct Hst as [_ Hq]. split; [apply parseLines_good|done].
  - unfold startSession. destruct (_ <? 2)%nat; [done|].
    by apply nextQuestion_ok.
  - unfold handleChoice. destruct (currentQuestion st), (feedback st); try done.
    destruct (_ || _); [done|]. by apply applyAnswer_ok.
  - unfold submitTyped. destruct (currentQuestion st), (feedback st); try done.
    by apply applyAnswer_ok.
  - unfold handleSelfRating. destruct (currentQuestion st) eqn:E; [|done].
    apply nextQuestion_ok; [done|]. destruct Hst as [Hp Hq]. split; [done|].
    exact Hq.
  - unfold sessionTick. by destruct (stage st), (paused st), (sessionLength st).
  - unfold questionTick.
    destruct (stage st), (paused st), (feedback st), (difficulty st),
      (currentQuestion st); try done.
    by destruct (_ <=? 0).
Qed.

Lemma effects_ok now st : appOk st -> appOk (effects now st).
Proof.
  intros Hst. unfold effects.
  assert (appOk (if timesOut st then applyAnswer false now st else st))
    by (destruct (timesOut st); [by apply applyAnswer_ok|done]).
  by destruct (sessionEnds st).
Qed.

Lemma run_ok `{Platform} trace : forall st,
  Forall (fun occ => validEvent occ.2) trace -> appOk st -> appOk (run st trace).
Proof.
  induction trace as [|occ trace IH]; intros st Hev Hst; [done|].
  inversion Hev; subst. apply IH; [done|].
  unfold step, settle. by apply effects_ok, effects_ok, handle_ok.
Qed.

(** C10.  After every run of the component whose shuffles are
    rearrangements, the question on display, when it is a choice
    question, has its correct index within the choice list, the choice at
    that index carries the word of the sampled entry, and no other
    choice carries it, whether the choices are mutations of the word or
    entries of the pool. *)
Theorem correct_index_points_at_word `{Platform}
    (stats : gmap (list N) WordStat) (daily : DailyGoal)
    (trace : list (Z * Event)) (q : Question) :
  Forall (fun occ => validEvent occ.2) trace ->
  currentQuestion (run (initialApp stats daily) trace) = Some q ->
  mode q = choice ->
  0 <= correctIndex q < Z.of_nat (length (choices q))
  /\ (exists c, choices q !! Z.to_nat (correctIndex q) = Some c
                /\ word c = word (entry q))
  /\ (forall j c, choices q !! j = Some c -> word c = word (entry q) ->
                  Z.of_nat j = correctIndex q).
Proof.
  intros Hev Hq Hmode.
  assert (Hinit : appOk (initialApp stats daily)) by (split; [constructor|done]).
  destruct (run_ok trace _ Hev Hinit) as [_ Hok].
  by apply (Hok q Hq).
Qed.

(** ** Missed words and their export *)

Lemma filter_filter_and {A} (p r : A -> bool) (l : list A) :
  List.filter p (List.filter r l) = List.filter (fun x => r x && p x) l.
Proof.
  induction l as [|x l IH]; simpl; [done|].
  destruct (r x); simpl; [|done]. destruct (p x); by rewrite IH.
Qed.

(** Adding the missed words one by one keeps the first occurrence of
    each. *)
Lemma addMissed_fold (l : list jsstring) : forall acc,
  fold_left (fun prev w => addMissed w prev) l acc
  = acc ++ List.filter (fun v => negb (bool_decide (v ∈ acc))) (firstOccurrences l).
Proof.
  induction l as [|w rest IH]; intros acc; simpl.
  - by rewrite app_nil_r.
  - rewrite IH. unfold addMissed. rewrite filter_filter_and.
    case_bool_decide as Hin; simpl.
    + f_equal. apply List.filter_ext. intros v.
      destruct (decide (v ∈ acc)) as [Hv|Hv].
      * rewrite (bool_decide_eq_true_2 _ Hv). simpl. by rewrite andb_false_r.
      * rewrite (bool_decide_eq_false_2 _ Hv). simpl. rewrite andb_true_r.
        assert (Hne : v <> w) by (by intros ->).
        by rewrite (bool_decide_eq_false_2 _ Hne).
    + rewrite <- app_assoc. simpl.
      do 2 f_equal. apply List.filter_ext. intros v.
      rewrite (bool_decide_ext (v ∈ acc ++ [w]) (v = w \/ v ∈ acc))
        by (rewrite elem_of_app, list_elem_of_singleton; tauto).
      destruct (decide (v = w)) as [Hw|Hw], (decide (v ∈ acc)) as [Hv|Hv];
        rewrite ?(bool_decide_eq_true_2 _ Hw), ?(bool_decide_eq_false_2 _ Hw),
          ?(bool_decide_eq_true_2 _ Hv), ?(bool_decide_eq_false_2 _ Hv); simpl;
        [rewrite bool_decide_eq_true_2 by tauto
        |rewrite bool_decide_eq_true_2 by tauto
        |rewrite bool_decide_eq_true_2 by tauto
        |rewrite bool_decide_eq_false_2 by tauto]; done.
Qed.

Lemma addMissed_firstOccurrences (l : list jsstring) :
  fold_left (fun prev w => addMissed w prev) l [] = firstOccurrences l.
Proof.
  rewrite addMissed_fold. simpl.
  induction (firstOccurrences l) as [|v k IH]; simpl; [done|]. by rewrite IH.
Qed.

Lemma firstOccurrences_In l v : In v (firstOccurrences l) -> In v l.
Proof.
  revert v. induction l as [|w rest IH]; intros v; simpl; [done|].
  intros [->|Hin]; [by left|]. right. apply IH.
  by apply List.filter_In in Hin as [Hin _].
Qed.

Lemma nextQuestion_missed now rnd st :
  missedWords (nextQuestion now rnd st) = missedWords st
  /\ wordPool (nextQuestion now rnd st) = wordPool st.
Proof.
  unfold nextQuestion. by destruct (pickWeighted _ _ _ _ _) as [[sampled|] stats].
Qed.

Lemma nextQuestion_shown now rnd st : shownGood st -> shownGood (nextQuestion now rnd st).
Proof.
  intros [Hpool Hq]. unfold nextQuestion.
  destruct (pickWeighted _ _ _ _ _) as [[sampled|] stats] eqn:Ep; [|by split].
  split; simpl; [done|]. intros q [= <-].
  assert (Hin : In sampled (wordPool st)).
  { eapply pickWeighted_In. by rewrite Ep. }
  unfold goodPool in Hpool. rewrite List.Forall_forall in Hpool.
  destruct (difficulty st); simpl; by apply Hpool.
Qed.

Lemma handle_quiet `{Platform} now ev st :
  quiet ev -> shownGood st ->
  shownGood (handle now ev st) /\ missedWords (handle now ev st) = missedWords st.
Proof.
  intros Hev Hst. destruct ev; simpl in *; try done.
  - by destruct s.
  - destruct Hst as [_ Hq]. split; [|done]. split; [apply parseLines_good|done].
  - unfold sessionTick. by destruct (stage st), (paused st), (sessionLength st).
  - unfold questionTick.
    destruct (stage st), (paused st), (feedback st), (difficulty st),
      (currentQuestion st); try done.
    by destruct (_ <=? 0).
Qed.

Lemma pickWeighted_nonempty entries stats lastWord now random :
  entries <> [] -> exists e, (pickWeighted entries stats lastWord now random).1 = Some e.
Proof.
  intros Hne. unfold pickWeighted.
  destruct (weigh entries stats lastWord now) as [ws stats'].
  destruct (rollLoop entries ws _) as [e|]; simpl; [eauto|].
  destruct entries; [done|]. simpl. eauto.
Qed.

(** On a pool that is not empty the question is replaced. *)
Lemma nextQuestion_fresh now rnd st :
  wordPool st <> [] -> goodPool (wordPool st) -> shownGood (nextQuestion now rnd st).
Proof.
  intros Hne Hpool. unfold nextQuestion.
  destruct (pickWeighted_nonempty (wordPool st) (statsRef st) (lastWordRef st)
              now (rnd_roll rnd) Hne) as [sampled Hs].
  destruct (pickWeighted _ _ _ _ _) as [picked stats] eqn:Ep. simpl in Hs. subst picked.
  split; simpl; [done|]. intros q [= <-].
  assert (Hin : In sampled (wordPool st)).
  { eapply pickWeighted_In. by rewrite Ep. }
  unfold goodPool in Hpool. rewrite List.Forall_forall in Hpool.
  destruct (difficulty st); simpl; by apply Hpool.
Qed.

Lemma sessionRun_missed `{Platform} st missed :
  sessionRun st missed ->
  shownGood st
  /\ Forall goodWord missed
  /\ missedWords st = fold_left (fun prev w => addMissed w prev) missed [].
Proof.
  induction 1 as [st now rnd Hpool Hlen
                 |st missed isCorrect now q _ (Hst & Hgood & Hm) Hq
                 |st missed rating now rnd _ (Hst & Hgood & Hm)
                 |st missed now ev _ (Hst & Hgood & Hm) Hev].
  - unfold startSession. destruct (Nat.ltb_spec (length (wordPool st)) 2); [lia|].
    split_and!; [|constructor|by rewrite (proj1 (nextQuestion_missed _ _ _))].
    apply nextQuestion_fresh; simpl; [|done].
    intros Hnil. rewrite Hnil in Hlen. simpl in Hlen. lia.
  - destruct Hst as [Hpool Hshown]. pose proof (Hshown q Hq) as Hword.
    unfold applyAnswer. rewrite Hq. split_and!.
    + split; simpl; [done|]. intros q' Hq'. apply Hshown. congruence.
    + destruct isCorrect; [done|]. apply Forall_app. split; [done|]. by constructor.
    + simpl. destruct isCorrect; [done|]. rewrite fold_left_app. simpl. by rewrite Hm.
  - unfold handleSelfRating. destruct (currentQuestion st) as [q|] eqn:Hq; [|done].
    split_and!; [|done|].
    + apply nextQuestion_shown. destruct Hst as [Hpool Hshown]. split; [done|].
      simpl. intros q' Hq'. apply Hshown. congruence.
    + by rewrite (proj1 (nextQuestion_missed _ _ _)).
  - destruct (handle_quiet now ev st Hev Hst) as [Hst' Hm'].
    split_and!; [done|done|]. by rewrite Hm'.
Qed.

Lemma sessionRun_export `{Platform} st missed :
  sessionRun st missed ->
  missedWords st = firstOccurrences missed
  /\ match exportMissed st with
     | Some text =>
         text = join [LF] (firstOccurrences missed)
         /\ split [LF] text = firstOccurrences missed
     | None => firstOccurrences missed = []
     end.
Proof.
  intros Hrun. destruct (sessionRun_missed st missed Hrun) as (_ & Hgood & Hm).
  rewrite addMissed_firstOccurrences in Hm. split; [done|].
  unfold exportMissed. rewrite Hm.
  destruct (firstOccurrences missed) as [|w rest] eqn:Ef; [done|].
  split; [done|]. apply split_join; [done|].
  apply List.Forall_forall. intros v Hv. rewrite <- Ef in Hv.
  apply firstOccurrences_In in Hv. rewrite List.Forall_forall in Hgood.
  by destruct (Hgood v Hv) as (_ & _ & Hlf).
Qed.

(** The session states are closed under the steps of the component:
    every handler and every effect is one of the moves of [sessionRun]. *)
Lemma sessionRun_handle `{Platform} now ev st missed :
  sessionRun st missed -> exists missed', sessionRun (handle now ev st) missed'.
Proof.
  intros Hrun.
  destruct ev;
    try (exists missed; by apply (session_other st missed now _ Hrun)).
  - simpl. destruct (le_lt_dec 2 (length (wordPool st))) as [Hlen|Hlen].
    + exists []. apply session_started; [|done].
      by destruct (sessionRun_missed st missed Hrun) as ([Hpool _] & _).
    + unfold startSession. destruct (Nat.ltb_spec (length (wordPool st)) 2); [eauto|lia].
  - simpl. unfold handleChoice.
    destruct (currentQuestion st) as [q|] eqn:Hq, (feedback st); eauto.
    destruct (_ || _); eauto.
    eexists. by apply (session_answered st missed _ now q).
  - simpl. unfold submitTyped.
    destruct (currentQuestion st) as [q|] eqn:Hq, (feedback st); eauto.
    eexists. by apply (session_answered st missed _ now q).
  - exists missed. by apply session_rated.
Qed.

Lemma sessionRun_effects `{Platform} now st missed :
  sessionRun st missed -> exists missed', sessionRun (effects now st) missed'.
Proof.
  intros Hrun. unfold effects.
  assert (Hmid : exists m,
    sessionRun (if timesOut st then applyAnswer false now st else st) m).
  { destruct (timesOut st) eqn:Et; [|eauto].
    assert (Hq : exists q, currentQuestion st = Some q).
    { unfold timesOut in Et.
      destruct (stage st), (difficulty st), (feedback st), (currentQuestion st);
        try done. eauto. }
    destruct Hq as [q Hq]. eexists. by apply (session_answered st missed false now q). }
  destruct Hmid as [m Hmid]. destruct (sessionEnds st); [|eauto].
  exists m. by apply (session_other _ m now EndSession Hmid).
Qed.

Lemma sessionRun_run `{Platform} trace : forall st missed,
  sessionRun st missed -> exists missed', sessionRun (run st trace) missed'.
Proof.
  induction trace as [|[now ev] trace IH]; intros st missed Hrun; [eauto|].
  destruct (sessionRun_handle now ev st missed Hrun) as [m1 H1].
  destruct (sessionRun_effects now _ m1 H1) as [m2 H2].
  destruct (sessionRun_effects now _ m2 H2) as [m3 H3].
  by apply (IH _ m3).
Qed.

(** Whatever happens after a session has started on a parsed pool, the
    exported text splits back into the missed-word list. *)
Lemma export_splits_back `{Platform} st now rnd trace :
  goodPool (wordPool st) -> (2 <= length (wordPool st))%nat ->
  let final := run (startSession now rnd st) trace in
  match exportMissed final with
  | Some text => split [LF] text = missedWords final
  | None => missedWords final = []
  end.
Proof.
  intros Hpool Hlen final.
  destruct (sessionRun_run trace _ [] (session_started st now rnd Hpool Hlen))
    as [missed Hrun].
  fold final in Hrun. destruct (sessionRun_export final missed Hrun) as [Hm Hexp].
  destruct (exportMissed final) as [text|]; [|congruence].
  destruct Hexp as [_ Hsplit]. congruence.
Qed.

(** C8.  In a session, the missed-word list is the list of the distinct
    words answered incorrectly, in the order of their first miss.  When
    there is one, the export is offered: its text is that list joined by
    line feeds, and splitting the text at the line feeds gives that list
    back.  When no word was missed nothing is exported. *)
Theorem missed_words_export `{Platform} (st : App) (missed : list jsstring) :
  sessionRun st missed ->
  missedWords st = firstOccurrences missed
  /\ match exportMissed st with
     | Some text =>
         text = join [LF] (firstOccurrences missed)
         /\ split [LF] text = firstOccurrences missed
     | None => firstOccurrences missed = []
     end.
Proof. apply sessionRun_export. Qed.

Lemma missed_words_export_witness :
  @sessionRun asciiPlatform missState [str "run"]
  /\ missedWords missState = [str "run"]
  /\ exportMissed missState = Some (str "run")
  /\ split [LF] (str "run") = [str "run"].
Proof.
  assert (Hrun : @sessionRun asciiPlatform missState [str "run"]).
  { unfold missState.
    apply (@session_answered asciiPlatform
             (startSession 3000 sampleRandom loadedState) [] false 4000
             (questionFor (wordPool loadedState) easy
                {| id := str "run-0"; word := str "run"; hint := None |}
                sampleRandom)).
    - apply session_started.
      + apply (@parseLines_good asciiPlatform
                 (str "run" ++ [LF] ++ str "sprint") true true).
      + vm_compute. lia.
    - vm_compute. reflexivity. }
  pose proof (@missed_words_export asciiPlatform missState [str "run"] Hrun)
    as [Hm Hexp].
  split_and!; [exact Hrun | exact Hm | vm_compute; reflexivity
              | vm_compute; reflexivity].
Defined.

(** ** Persistence loaders *)

Lemma isString_true today d : isString today d = true <-> d = Some (JStr today).
Proof.
  unfold isString. destruct d as [[| | |s| |]|]; try (split; done).
  rewrite bool_decide_eq_true. split; [by intros ->|by intros [= ->]].
Qed.

Lemma loadDaily_nonempty `{Platform} text today :
  text <> [] ->
  loadDaily (Some text) today
  = match JSON_parse text with
    | Normal parsed =>
        match getProp parsed (str "date") with
        | Normal d =>
            if isString today d then Normal parsed
            else Normal (defaultDaily today)
        | Throw => Normal (defaultDaily today)
        end
    | Throw => Normal (defaultDaily today)
    end.
Proof.
  intros Hne. unfold loadDaily. destruct text; [done|]. cbn [isEmpty].
  destruct (JSON_parse _) as [parsed|]; [|done]. cbn [mbind Completion_bind].
  destruct (getProp parsed (str "date")) as [d|]; [|done]. cbn [mbind Completion_bind].
  by destruct (isString today d).
Qed.

Local Ltac loader_cases :=
  repeat match goal with
         | |- _ /\ _ => split
         | |- exists _, _ => eexists; reflexivity
         | |- _ -> _ => intro
         | |- forall _, _ => intro
         | H : _ \/ _ |- _ => destruct H
         | H : exists _, _ |- _ => destruct H
         | H : _ /\ _ |- _ => destruct H
         | H : Some _ = Some _ |- _ => injection H as <-
         | H : Normal _ = Normal _ |- _ => injection H as <-
         end;
  try done; try congruence.


(** * Instances on concrete inputs *)

Lemma sampleRandom_valid : validRandom sampleRandom.
Proof. split; intros l; reflexivity. Qed.

Lemma sampleTrace_valid : Forall (fun occ => validEvent occ.2) sampleTrace.
Proof.
  unfold sampleTrace. repeat constructor; simpl; try apply sampleRandom_valid.
Qed.


Lemma choice_count_witness :
  validRandom sampleRandom /\ easy <> hard
  /\ Z.of_nat (length (choices (questionFor (wordPool loadedState) easy
                                  {| id := str "run-0"; word := str "run"; hint := None |}
                                  sampleRandom))) = 2.
Proof.
  assert (Hd : easy <> hard) by discriminate.
  pose proof (@choice_count asciiPlatform (wordPool loadedState) easy
                {| id := str "run-0"; word := str "run"; hint := None |}
                sampleRandom sampleRandom_valid Hd) as (_ & _ & _ & _ & Hparsed).
  split_and!; [apply sampleRandom_valid | exact Hd |].
  apply (Hparsed (str "run" ++ [LF] ++ str "sprint") true).
  - vm_compute. reflexivity.
  - vm_compute. lia.
  - vm_compute. left. reflexivity.
Defined.

Lemma correct_index_points_at_word_witness :
  Forall (fun occ => validEvent occ.2) sampleTrace
  /\ currentQuestion (@run asciiPlatform (initialApp ∅ sampleDaily) sampleTrace)
     = Some sampleQuestion
  /\ mode sampleQuestion = choice
  /\ 0 <= correctIndex sampleQuestion < Z.of_nat (length (choices sampleQuestion))
  /\ exists c, choices sampleQuestion !! Z.to_nat (correctIndex sampleQuestion) = Some c
               /\ word c = word (entry sampleQuestion).
Proof.
  assert (Hq : currentQuestion (@run asciiPlatform (initialApp ∅ sampleDaily) sampleTrace)
               = Some sampleQuestion) by (vm_compute; reflexivity).
  assert (Hm : mode sampleQuestion = choice) by (vm_compute; reflexivity).
  pose proof (@correct_index_points_at_word asciiPlatform ∅ sampleDaily sampleTrace
                sampleQuestion sampleTrace_valid Hq Hm) as (Hr & Hc & _).
  split_and!; [apply sampleTrace_valid | exact Hq | exact Hm | lia | lia | exact Hc].
Defined.

Example loadDaily_null :
  @loadDaily tinyPlatform (Some (str "null")) (str "2024-05-01")
  = Normal (defaultDaily (str "2024-05-01")).
Proof. reflexivity. Qed.

Example loadStats_corrupt :
  @loadStats tinyPlatform (Some (str "{oops")) = Normal (JObj []).
Proof. reflexivity. Qed.

Example parse_scenario :
  let r := @parseLines asciiPlatform
             (str "run - to move fast" ++ [LF] ++ str "run" ++ [LF]
              ++ str "sprint - fast run") true true in
  map word (entries r) = [str "run"; str "sprint"]
  /\ map hint (entries r) = [Some (str "to move fast"); Some (str "fast run")]
  /\ duplicateCount r = 1 /\ totalLines r = 3.
Proof. vm_compute. by split_and!. Qed.

(* ===================================================================== *)
(** * Part III: further properties of the code                           *)
(* ===================================================================== *)

(** ** List parser: every line is accounted for *)

Lemma trim_head s c t : trim s = c :: t -> isWhite c = false.
Proof.
  unfold trim. destruct (trimStart s) as [|d r] eqn:E; [done|].
  pose proof (trimStart_head _ _ _ E) as Hd.
  destruct (trimEnd_keeps_head d r Hd) as [r' Hr]. rewrite Hr.
  by intros [= <- _].
Qed.

(** The first piece of a split starts with the piece under construction. *)
Lemma split_go_first sep s : forall cur,
  exists p rest, split_go sep 0 cur s = (rev cur ++ p) :: rest.
Proof.
  induction s as [|c t IH]; intros cur; simpl.
  - exists [], []. by rewrite app_nil_r.
  - destruct (isPrefix sep (c :: t)).
    + exists [], (split_go sep (length sep - 1) [] t). by rewrite app_nil_r.
    + destruct (IH (c :: cur)) as (p & rest & ->). exists (c :: p), rest.
      simpl. by rewrite <- app_assoc.
Qed.

(** A trimmed line that is not empty has a word before its first
    separator. *)
Lemma split_word_nonempty s c t :
  trim s = c :: t ->
  exists wordPart hintParts,
    split sepHint (trim s) = wordPart :: hintParts
    /\ isEmpty (trim wordPart) = false.
Proof.
  intros E. pose proof (trim_head _ _ _ E) as Hc. rewrite E.
  unfold split. cbn [split_go].
  assert (Hp : isPrefix sepHint (c :: t) = false).
  { change sepHint with [32; 45; 32]%N. cbn [isPrefix].
    destruct (N.eqb_spec 32 c) as [<-|]; [done|done]. }
  rewrite Hp. destruct (split_go_first sepHint t [c]) as (p & rest & ->).
  exists (c :: p), rest. split; [done|].
  unfold trim. rewrite (trimStart_fixed c p Hc).
  by destruct (trimEnd_keeps_head c p Hc) as [r ->].
Qed.

Section ParserAccounting.
Context `{Platform}.
Variables removeEmpty removeDuplicates : bool.

Lemma parseLine_accounted acc index line :
  let acc' := parseLine removeEmpty removeDuplicates acc index line in
  accounted acc' = accounted acc + 1
  /\ acc_dup acc <= acc_dup acc'
  /\ (removeDuplicates = false -> acc_dup acc' = acc_dup acc).
Proof.
  unfold parseLine, accounted.
  destruct (trim line) as [|c t] eqn:E.
  - cbn [isEmpty]. destruct removeEmpty; cbn [andb]; simpl; [lia|].
    split_and!; lia.
  - destruct (split_word_nonempty line c t E) as (wordPart & hintParts & Hs & Hw).
    rewrite E in Hs. cbn [isEmpty andb]. rewrite Hs, Hw.
    destruct removeDuplicates; cbn [andb].
    + case_bool_decide; simpl; [lia|]. rewrite length_app. simpl. lia.
    + simpl. rewrite length_app. simpl. lia.
Qed.

Lemma forEachLine_accounted lines : forall acc index,
  let acc' := forEachLine removeEmpty removeDuplicates acc index lines in
  accounted acc' = accounted acc + Z.of_nat (length lines)
  /\ acc_dup acc <= acc_dup acc'
  /\ (removeDuplicates = false -> acc_dup acc' = acc_dup acc).
Proof.
  induction lines as [|line rest IH]; intros acc index; simpl; [lia|].
  destruct (parseLine_accounted acc index line) as (H1 & H2 & H3).
  destruct (IH (parseLine removeEmpty removeDuplicates acc index line) (S index))
    as (I1 & I2 & I3).
  split_and!; [lia|lia|]. intros Hrd. rewrite I3, H3; done.
Qed.

End ParserAccounting.

(** X1.  The parser accounts for every line exactly once: the number of
    entries, the duplicate count and the empty-line count add up to the
    line count, whatever the flags are (a line that is not blank always
    has a word, so it becomes an entry or is counted as a duplicate).
    The duplicate count is never negative, and it is 0 when duplicate
    removal is off. *)
Theorem parseLines_accounts_for_every_line `{Platform} (rawText : jsstring)
    (removeEmpty removeDuplicates : bool) :
  let result := parseLines rawText removeEmpty removeDuplicates in
  Z.of_nat (length (entries result)) + duplicateCount result + emptyCount result
  = totalLines result
  /\ 0 <= duplicateCount result
  /\ (if removeDuplicates then True else duplicateCount result = 0).
Proof.
  unfold parseLines. destruct (isEmpty (trim rawText)); simpl.
  - by destruct removeDuplicates.
  - match goal with |- context [forEachLine _ _ ?a ?i ?l] =>
      destruct (forEachLine_accounted removeEmpty removeDuplicates l a i)
        as (H1 & H2 & H3) end.
    unfold accounted in H1. simpl in H1, H2, H3.
    split_and!; [lia|lia|]. destruct removeDuplicates; [done|]. by apply H3.
Qed.

(** ** List parser: the entries *)

Lemma str_inj s1 s2 : str s1 = str s2 -> s1 = s2.
Proof.
  unfold str. intros Heq.
  rewrite <- (string_of_list_ascii_of_string s1),
          <- (string_of_list_ascii_of_string s2).
  f_equal. revert Heq.
  generalize (list_ascii_of_string s1) (list_ascii_of_string s2).
  intros l. induction l as [|a l IH]; intros [|b k]; simpl; try done.
  intros [= Hab Hlk]. f_equal; [|by apply IH].
  by rewrite <- (ascii_N_embedding a), <- (ascii_N_embedding b), Hab.
Qed.

Lemma showIndex_inj i j : showIndex i = showIndex j -> i = j.
Proof.
  unfold showIndex. intros Heq%str_inj.
  apply DecimalNat.Unsigned.to_uint_inj.
  assert (Some (Nat.to_uint i) = Some (Nat.to_uint j)) as [= ->]; [|done].
  by rewrite <- !NilEmpty.usu, Heq.
Qed.

Lemma showIndex_no_dash n : ~ In DASH (showIndex n).
Proof.
  unfold showIndex. generalize (Nat.to_uint n). intros d.
  induction d as [|d IH|d IH|d IH|d IH|d IH|d IH|d IH|d IH|d IH|d IH];
    simpl; [tauto|..]; intros [Hc|Hin]; try done; by apply IH.
Qed.

(** Two texts that end in a dash and a dash-free suffix: equal texts
    have equal suffixes. *)
Lemma dash_suffix a : forall b d1 d2,
  ~ In DASH d1 -> ~ In DASH d2 ->
  a ++ DASH :: d1 = b ++ DASH :: d2 -> d1 = d2.
Proof.
  induction a as [|x a IH]; intros [|y b] d1 d2 H1 H2; simpl.
  - by intros [= ->].
  - intros [= <- ->]. exfalso. apply H1. apply in_or_app. right. by left.
  - intros [= -> <-]. exfalso. apply H2. apply in_or_app. right. by left.
  - intros [= _ Heq]. by apply (IH b).
Qed.

Lemma replace_cr_no_CR s : ~ In CR (replace_cr s).
Proof.
  unfold replace_cr. rewrite in_map_iff. intros (c & Hc & _).
  destruct (c =? CR)%N eqn:E; [discriminate Hc|].
  subst c. by rewrite N.eqb_refl in E.
Qed.

Lemma splitLines_no_CR rawText line : In line (splitLines rawText) -> ~ In CR line.
Proof.
  intros Hl Hc. apply (replace_cr_no_CR (replace_crlf rawText)).
  by apply (split_In [LF] _ line CR).
Qed.

Section ParserShape.
Context `{Platform}.
Variables removeEmpty removeDuplicates : bool.

Lemma entryOk_mono i j e : (i <= j)%nat -> entryOk i e -> entryOk j e.
Proof.
  intros Hij (Hg & Hc & Hh & k & Hk & Hid). split_and!; try done.
  exists k. split; [lia|done].
Qed.

Lemma new_id_fresh index key (entries : list WordEntry) :
  Forall (idBefore index) entries ->
  ~ In (key ++ str "-" ++ showIndex index) (map id entries).
Proof.
  intros Hall Hin. apply in_map_iff in Hin as (e & Hid & He).
  rewrite List.Forall_forall in Hall. destruct (Hall e He) as (i & Hi & Hie).
  rewrite Hie in Hid. change (str "-") with [DASH] in Hid. simpl in Hid.
  apply dash_suffix in Hid; try apply showIndex_no_dash.
  apply showIndex_inj in Hid. lia.
Qed.

Lemma parseLine_shape acc index line :
  ~ In LF line -> ~ In CR line ->
  Forall (entryOk index) (acc_entries acc) /\ NoDup (map id (acc_entries acc)) ->
  let acc' := parseLine removeEmpty removeDuplicates acc index line in
  Forall (entryOk (S index)) (acc_entries acc') /\ NoDup (map id (acc_entries acc')).
Proof.
  intros Hlf Hcr [Hall Hnd]. unfold parseLine.
  assert (Hup : Forall (entryOk (S index)) (acc_entries acc)).
  { eapply Forall_impl; [exact Hall|]. intros e. apply entryOk_mono. lia. }
  set (acc1 := if isEmpty (trim line) then _ else acc).
  assert (Hacc1 : acc_entries acc1 = acc_entries acc)
    by (subst acc1; by destruct (isEmpty (trim line))).
  destruct (isEmpty (trim line) && removeEmpty); [by rewrite Hacc1|].
  destruct (split sepHint (trim line)) as [|wordPart hintParts] eqn:Es;
    [by rewrite Hacc1|].
  destruct (isEmpty (trim wordPart)) eqn:Ew; [by rewrite Hacc1|].
  destruct (removeDuplicates && _); simpl; rewrite Hacc1; [done|].
  assert (Hsub : forall c, In c (trim wordPart) -> In c line).
  { intros c Hin. apply trim_In. apply trim_In in Hin.
    eapply split_In; [|exact Hin]. rewrite Es. by left. }
  split.
  - apply Forall_app. split; [done|]. constructor; [|constructor].
    split_and!; simpl.
    + split; [apply trim_idem|]. split; [intros E; by rewrite E in Ew|].
      intros Hin. by apply Hlf, Hsub.
    + intros Hin. by apply Hcr, Hsub.
    + intros h. unfold hintOk. simpl.
      destruct (isEmpty (trim (join sepHint hintParts))) eqn:Eh; [done|].
      intros [= <-]. split; [intros E; by rewrite E in Eh|apply trim_idem].
    + exists index. split; [lia|done].
  - rewrite map_app. simpl. apply NoDup_app. split; [done|]. split.
    + intros x Hx Hx'. apply list_elem_of_In in Hx'. destruct Hx' as [<-|[]].
      apply list_elem_of_In in Hx. revert Hx. apply new_id_fresh.
      eapply Forall_impl; [exact Hall|]. by intros e (_ & _ & _ & Hid).
    + apply NoDup_singleton.
Qed.

Lemma forEachLine_shape lines : forall acc index,
  Forall (fun line => ~ In LF line /\ ~ In CR line) lines ->
  Forall (entryOk index) (acc_entries acc) /\ NoDup (map id (acc_entries acc)) ->
  let acc' := forEachLine removeEmpty removeDuplicates acc index lines in
  Forall (entryOk (index + length lines)) (acc_entries acc')
  /\ NoDup (map id (acc_entries acc')).
Proof.
  induction lines as [|line rest IH]; intros acc index Hl Hacc; simpl.
  - by rewrite Nat.add_0_r.
  - inversion Hl as [|? ? [Hlf Hcr] Hrest]; subst.
    replace (index + S (length rest))%nat with (S index + length rest)%nat by lia.
    apply IH; [done|]. by apply parseLine_shape.
Qed.

End ParserShape.

(** X2.  Every entry the parser returns has a word that is trimmed, not
    empty and free of line feeds and carriage returns; its hint, when it
    has one, is trimmed and not empty; its identifier is the lowered
    word, a dash and the index of a line of the text.  No two entries
    share an identifier. *)
Theorem parseLines_entries_well_formed `{Platform} (rawText : jsstring)
    (removeEmpty removeDuplicates : bool) :
  let result := parseLines rawText removeEmpty removeDuplicates in
  Forall (fun e =>
            trim (word e) = word e /\ word e <> []
            /\ ~ In LF (word e) /\ ~ In CR (word e)
            /\ (forall h, hint e = Some h -> h <> [] /\ trim h = h)
            /\ exists i, Z.of_nat i < totalLines result
                 /\ id e = toLowerCase (word e) ++ str "-" ++ showIndex i)
         (entries result)
  /\ NoDup (map id (entries result)).
Proof.
  unfold parseLines. destruct (isEmpty (trim rawText)); simpl;
    [split; constructor|].
  match goal with |- context [forEachLine _ _ ?a ?i ?l] =>
    destruct (forEachLine_shape removeEmpty removeDuplicates l a i) as [Hall Hnd]
  end.
  - apply List.Forall_forall. intros line Hl.
    split; [by apply splitLines_no_LF in Hl|by apply splitLines_no_CR in Hl].
  - split; simpl; constructor.
  - split; [|done]. eapply Forall_impl; [exact Hall|].
    intros e ((Ht & Hne & Hlf) & Hcr & Hh & i & Hi & Hid).
    split_and!; try done. exists i. split; [lia|done].
Qed.

(** X3.  With duplicate removal on, the words of the entries are pairwise
    different even when letter case is ignored: no two entries have the
    same lowered word, hence no two have the same word. *)
Theorem parseLines_dedup_case_insensitive `{Platform} (rawText : jsstring)
    (removeEmpty : bool) :
  let result := parseLines rawText removeEmpty true in
  NoDup (map (fun e => toLowerCase (word e)) (entries result))
  /\ NoDup (map word (entries result)).
Proof.
  split; [|apply parseLines_NoDup].
  unfold parseLines. destruct (isEmpty (trim rawText)); simpl; [constructor|].
  match goal with |- NoDup (map _ (acc_entries ?a)) =>
    assert (Hinv : dedupInv a) end.
  { apply forEachLine_dedup. split; simpl; [constructor|]. by intros e []. }
  by destruct Hinv.
Qed.

(** ** Example sentences *)

Lemma toInt32_range z : - 2 ^ 31 <= toInt32 z < 2 ^ 31.
Proof.
  unfold toInt32. pose proof (Z.mod_pos_bound (z + 2 ^ 31) (2 ^ 32)). lia.
Qed.

Lemma hashWord_range value : 0 <= hashWord value <= 2 ^ 31.
Proof.
  unfold hashWord.
  assert (Hfold : forall l h, - 2 ^ 31 <= h < 2 ^ 31 ->
            - 2 ^ 31 <= fold_left (fun hash c => toInt32 (hash * 31 + Z.of_N c)) l h
            < 2 ^ 31).
  { induction l as [|c l IH]; intros h Hh; simpl; [done|].
    apply IH, toInt32_range. }
  pose proof (Hfold value 0 ltac:(lia)). lia.
Qed.

Lemma templates_have_slot :
  Forall (fun t => exists before after,
            findSub (str "{word}") [] t = Some (before, after)
            /\ t = before ++ str "{word}" ++ after)
         SENTENCE_TEMPLATES.
Proof.
  unfold SENTENCE_TEMPLATES.
  repeat constructor; do 2 eexists; split; vm_compute; reflexivity.
Qed.

Lemma substitute_plain matched before after repl :
  ~ In DOLLAR repl -> substitute matched before after repl = repl.
Proof.
  induction repl as [|c t IH]; [done|]. intros Hno.
  assert (Hc : (c =? DOLLAR)%N = false).
  { apply N.eqb_neq. intros ->. apply Hno. by left. }
  cbn [substitute]. destruct t as [|d t']; [done|]. rewrite Hc.
  f_equal. apply IH. intros Hin. apply Hno. by right.
Qed.

(** X4.  The word hash is between 0 and 2^31, so it always selects one of
    the ten templates: [sentenceFor] returns a pair for every word.  The
    cloze is the selected template with its slot replaced by four
    underscores, and for a word without a dollar sign the full sentence
    is the same template with the word in the slot (a dollar sign in the
    word is read as a replacement pattern). *)
Theorem sentenceFor_fills_a_template (word : jsstring) :
  0 <= hashWord word <= 2 ^ 31
  /\ exists before after full,
       In (before ++ str "{word}" ++ after) SENTENCE_TEMPLATES
       /\ sentenceFor word = Some (full, before ++ str "____" ++ after)
       /\ (if bool_decide (DOLLAR ∈ word) then True
           else full = before ++ word ++ after).
Proof.
  split; [apply hashWord_range|]. unfold sentenceFor.
  set (index := hashWord word mod Z.of_nat (length SENTENCE_TEMPLATES)).
  assert (Hi : (Z.to_nat index < length SENTENCE_TEMPLATES)%nat).
  { subst index. pose proof (hashWord_range word).
    pose proof (Z.mod_pos_bound (hashWord word)
                  (Z.of_nat (length SENTENCE_TEMPLATES)) ltac:(simpl; lia)).
    lia. }
  apply lookup_lt_is_Some in Hi. destruct Hi as [template Ht]. rewrite Ht.
  pose proof templates_have_slot as Hall. rewrite Forall_lookup in Hall.
  destruct (Hall _ _ Ht) as (before & after & Hfind & Heq).
  exists before, after. eexists. split_and!.
  - rewrite <- Heq. apply list_elem_of_In. by eapply list_elem_of_lookup_2.
  - unfold replace. rewrite Hfind.
    by rewrite (substitute_plain _ _ _ (str "____"))
      by (vm_compute; intuition discriminate).
  - case_bool_decide as Hd; [done|].
    rewrite substitute_plain; [done|]. intros Hin. apply Hd.
    by apply list_elem_of_In.
Qed.

(** ** Word sampler: the store and the wheel *)

Lemma ensureStats_lookup stats entry w :
  ensureStats stats entry !! w
  = match stats !! w with
    | Some stat => Some stat
    | None => if decide (word entry = w) then Some defaultStat else None
    end.
Proof.
  unfold ensureStats. destruct (stats !! word entry) as [s|] eqn:E.
  - destruct (stats !! w) eqn:Ew; [done|].
    destruct (decide (word entry = w)) as [<-|]; [congruence|done].
  - destruct (decide (word entry = w)) as [<-|Hne].
    + by rewrite lookup_insert_eq, E.
    + rewrite lookup_insert_ne by done. by destruct (stats !! w).
Qed.

Lemma ensureAll_lookup entries : forall stats : gmap (list N) WordStat,
  let stats' := fold_left ensureStats entries stats in
  (forall w stat, stats !! w = Some stat -> stats' !! w = Some stat)
  /\ (forall e, In e entries -> is_Some (stats' !! word e))
  /\ (forall w stat, stats' !! w = Some stat ->
        stats !! w = Some stat
        \/ stats !! w = None /\ stat = defaultStat
           /\ exists e, In e entries /\ word e = w).
Proof.
  induction entries as [|entry rest IH]; intros stats; simpl.
  - split_and!; [done|by intros e []|by left].
  - destruct (IH (ensureStats stats entry)) as (Hkeep & Hhas & Hnew).
    split_and!.
    + intros w stat Hw. apply Hkeep. by rewrite ensureStats_lookup, Hw.
    + intros e [<-|He]; [|by apply Hhas].
      assert (Hs : is_Some (ensureStats stats entry !! word entry)).
      { rewrite ensureStats_lookup. destruct (stats !! word entry); [done|].
        by rewrite decide_True. }
      destruct Hs as [s Hs]. exists s. by apply Hkeep.
    + intros w stat Hw. destruct (Hnew w stat Hw) as [Hold|(Hnone & -> & e & He & Hwe)].
      * rewrite ensureStats_lookup in Hold. destruct (stats !! w) eqn:Ew; [by left|].
        destruct (decide (word entry = w)) as [Heq|]; [|done].
        injection Hold as <-. right. split_and!; try done. exists entry. by split; [left|].
      * rewrite ensureStats_lookup in Hnone. destruct (stats !! w) eqn:Ew; [done|].
        right. split_and!; try done. exists e. by split; [right|].
Qed.

Lemma pickWeighted_store entries stats lastWord now random :
  (pickWeighted entries stats lastWord now random).2
  = fold_left ensureStats entries stats.
Proof.
  unfold pickWeighted. rewrite <- (weigh_store entries lastWord now stats).
  destruct (weigh entries stats lastWord now) as [ws stats'].
  by destruct (rollLoop _ _ _).
Qed.


Lemma weightOf_bounds stat w lastWord now :
  inRange stat -> (0.1 <= weightOf stat w lastWord now <= 2.2)%Q.
Proof.
  unfold inRange, weightOf. intros [Hlo Hhi].
  destruct (bool_decide _), (exposures stat =? 0), (_ <? _); lra.
Qed.

(** X6.  For a record with mastery in [0,1] the weight of a word lies
    between 0.1 and 2.2, so every word can be drawn.  Of two records
    with the same exposures and last miss the one with the higher
    mastery has the lower or equal weight.  The word shown last has half
    the weight it would have otherwise. *)
Theorem weight_bounds_and_order (stat stat' : WordStat) (w : jsstring)
    (lastWord : option jsstring) (now : Z) :
  inRange stat ->
  (0.1 <= weightOf stat w lastWord now <= 2.2)%Q
  /\ (exposures stat' = exposures stat -> lastMiss stat' = lastMiss stat ->
      (mastery stat <= mastery stat')%Q ->
      (weightOf stat' w lastWord now <= weightOf stat w lastWord now)%Q)
  /\ (weightOf stat w (Some w) now == weightOf stat w None now * 0.5)%Q.
Proof.
  intros Hr. split; [by apply weightOf_bounds|]. split.
  - intros He Hl Hm. unfold weightOf. rewrite He, Hl.
    destruct (bool_decide _), (exposures stat =? 0), (_ <? _); lra.
  - unfold weightOf. rewrite bool_decide_eq_true_2 by done.
    rewrite bool_decide_eq_false_2 by done.
    destruct (exposures stat =? 0), (_ <? _); lra.
Qed.

Lemma weight_bounds_and_order_witness :
  inRange defaultStat
  /\ (0.1 <= weightOf defaultStat (str "run") None 3000 <= 2.2)%Q.
Proof.
  split; [apply defaultStat_inRange|].
  exact (proj1 (weight_bounds_and_order defaultStat defaultStat (str "run") None 3000
                  defaultStat_inRange)).
Defined.

Lemma fold_Qplus_sum l : forall a, (fold_left Qplus l a == a + sumQ l)%Q.
Proof.
  induction l as [|x l IH]; intros a; simpl; [lra|]. rewrite IH. lra.
Qed.

Lemma totalWeight_sum l : (totalWeight l == sumQ l)%Q.
Proof. unfold totalWeight. rewrite fold_Qplus_sum. lra. Qed.

Lemma sumQ_nonneg l : Forall (fun x => (0 <= x)%Q) l -> (0 <= sumQ l)%Q.
Proof. induction 1 as [|x l Hx _ IH]; simpl; lra. Qed.

(** The loop stops at the entry whose slice of the wheel holds the roll. *)
Lemma rollLoop_bracket entries : forall weights roll,
  length weights = length entries -> entries <> [] ->
  (roll <= sumQ weights)%Q ->
  exists i e,
    entries !! i = Some e
    /\ rollLoop entries weights roll = Some e
    /\ (i = 0%nat \/ (sumQ (take i weights) < roll)%Q)
    /\ (roll <= sumQ (take (S i) weights))%Q.
Proof.
  induction entries as [|entry rest IH]; intros [|w ws] roll Hlen Hne Hroll;
    try done.
  simpl in Hroll. cbn [rollLoop].
  destruct (Qle_bool (roll - w) 0) eqn:E.
  - apply Qle_bool_iff in E. exists 0%nat, entry.
    split_and!; [done|done|by left|]. simpl. lra.
  - assert (Hpos : (0 < roll - w)%Q).
    { apply Qnot_le_lt. intros Hle. apply Qle_bool_iff in Hle. congruence. }
    assert (Hrest : rest <> []).
    { intros ->. destruct ws; [|done]. simpl in Hroll. lra. }
    destruct (IH ws (roll - w)%Q) as (i & e & Hi & Hr & Hlo & Hhi);
      [simpl in Hlen; lia|done|lra|].
    exists (S i), e. split_and!; [done|done| |].
    + right. change (sumQ (take (S i) (w :: ws))) with (w + sumQ (take i ws))%Q.
      destruct Hlo as [->|Hlo].
      * change (sumQ (take 0 ws)) with 0%Q. clear - Hpos. lra.
      * clear - Hlo. lra.
    + change (sumQ (take (S (S i)) (w :: ws))) with (w + sumQ (take (S i) ws))%Q.
      clear - Hhi. lra.
Qed.



(** ** Question generator: the choices and the mutations *)

Lemma fillChoices_In correct size shuffled : forall choices c,
  In c (fillChoices choices shuffled correct size) ->
  In c choices \/ (In c shuffled /\ word c <> word correct).
Proof.
  induction shuffled as [|e rest IH]; intros choices c; simpl; [by left|].
  destruct (_ >=? size); [by left|].
  case_bool_decide as Hne.
  - intros Hin. destruct (IH _ _ Hin) as [Hc|[Hc Hw]].
    + apply in_app_or in Hc as [Hc|[<-|[]]]; [by left|]. right. by split; [left|].
    + right. by split; [right|].
  - intros Hin. destruct (IH _ _ Hin) as [Hc|[Hc Hw]]; [by left|].
    right. by split; [right|].
Qed.

Lemma fillChoices_keeps correct size shuffled : forall choices c,
  In c choices -> In c (fillChoices choices shuffled correct size).
Proof.
  induction shuffled as [|e rest IH]; intros choices c Hc; simpl; [done|].
  destruct (_ >=? size); [done|].
  case_bool_decide; apply IH; [|done]. apply in_or_app. by left.
Qed.

(** X8.  The choices drawn from the pool hold the correct entry, exactly
    once as far as its word goes; every other choice is an entry of the
    pool whose word differs from the correct word; there are no more
    choices than the size asked for. *)
Theorem pickChoices_contents (shufflePool shuffleChoices : Shuffle)
    (pool : list WordEntry) (correct : WordEntry) (size : Z) :
  validShuffle shufflePool -> validShuffle shuffleChoices -> 1 <= size ->
  let picked := pickChoices shufflePool shuffleChoices pool correct size in
  In correct picked
  /\ (forall c, In c picked ->
        c = correct \/ (In c pool /\ word c <> word correct))
  /\ length (List.filter (wordIs (word correct)) picked) = 1%nat
  /\ Z.of_nat (length picked) <= size.
Proof.
  intros H1 H2 Hs picked. subst picked. split_and!.
  - unfold pickChoices. apply list_elem_of_In. rewrite (H2 _).
    apply list_elem_of_In. apply fillChoices_keeps. by left.
  - intros c Hc. unfold pickChoices in Hc.
    apply list_elem_of_In in Hc. rewrite (H2 _) in Hc. apply list_elem_of_In in Hc.
    apply fillChoices_In in Hc as [[<-|[]]|[Hin Hw]]; [by left|].
    right. split; [|done]. apply list_elem_of_In. rewrite <- (H1 pool).
    by apply list_elem_of_In.
  - by apply pickChoices_matches.
  - rewrite pickChoices_length by done. lia.
Qed.

Lemma pickChoices_contents_witness :
  validShuffle (rnd_shufflePool sampleRandom)
  /\ validShuffle (rnd_shuffleChoices sampleRandom)
  /\ In {| id := str "run-0"; word := str "run"; hint := None |}
        (pickChoices (rnd_shufflePool sampleRandom) (rnd_shuffleChoices sampleRandom)
           (wordPool loadedState)
           {| id := str "run-0"; word := str "run"; hint := None |} 2).
Proof.
  destruct sampleRandom_valid as [H1 H2].
  split_and!; [exact H1|exact H2|].
  exact (proj1 (pickChoices_contents _ _ (wordPool loadedState)
                  {| id := str "run-0"; word := str "run"; hint := None |} 2
                  H1 H2 ltac:(lia))).
Defined.

Lemma swap_Permutation (idx : nat) : forall (l : list N) a b,
  l !! idx = Some a -> l !! S idx = Some b ->
  <[idx := b]> (<[S idx := a]> l) ≡ₚ l.
Proof.
  induction idx as [|idx IH]; intros [|x l] a b Ha Hb; try done.
  - destruct l as [|y l]; [done|]. simpl in *. injection Ha as ->.
    injection Hb as ->. apply perm_swap.
  - simpl in *. constructor. by apply IH.
Qed.

Lemma mutateWord_length word d :
  (length word <= S (length (mutateWord word d)))%nat
  /\ (length (mutateWord word d) <= length word)%nat.
Proof.
  unfold mutateWord. destruct (length word <? 3)%nat; [lia|].
  destruct (_ =? 0).
  - destruct (word !! _) eqn:E1; [|lia]. destruct (word !! S _) eqn:E2; [|lia].
    rewrite !length_insert. lia.
  - destruct (_ =? 1).
    + rewrite length_app, length_take, length_drop. lia.
    + destruct (alphabet !! _); [|lia]. rewrite length_insert. lia.
Qed.


Lemma variantsLoop_good normalized total draws fuel : forall guard variants,
  NoDup variants -> Forall (variantOf normalized) variants ->
  NoDup (variantsLoop fuel guard variants normalized total draws)
  /\ Forall (variantOf normalized)
       (variantsLoop fuel guard variants normalized total draws).
Proof.
  induction fuel as [|fuel IH]; intros guard variants Hnd Hall; simpl; [done|].
  destruct (_ <? _); [|done]. apply IH.
  - destruct (negb _ && _); [|done]. unfold setAdd. case_bool_decide as Hin; [done|].
    apply NoDup_app. split; [done|]. split; [|apply NoDup_singleton].
    intros x Hx Hx'. apply list_elem_of_singleton in Hx'. by subst.
  - destruct (negb (isEmpty _)) eqn:Ee; cbn [andb]; [|done].
    case_bool_decide as Hne; [|done]. unfold setAdd. case_bool_decide; [done|].
    apply Forall_app. split; [done|]. constructor; [|constructor].
    pose proof (mutateWord_length normalized (draws guard)) as [Hlo Hhi].
    split_and!; try done. intros E. by rewrite E in Ee.
Qed.

(** X10.  The mutation strategy gives nothing for a word that, once
    trimmed, is shorter than four code units or contains a space.  When
    it gives a list for a total of at least one, the list has exactly
    that many strings, all different from one another; the first is the
    trimmed word, and each of the others is a non-empty string other
    than the word, as long as the word or one shorter. *)
Theorem similarChoices_result (w : jsstring) (total : Z)
    (draws : nat -> MutDraw) (variants : list jsstring) :
  similarChoices w total draws = Some variants -> 1 <= total ->
  (4 <= length (trim w))%nat /\ ~ In SPACE (trim w)
  /\ NoDup variants
  /\ Z.of_nat (length variants) = total
  /\ exists rest, variants = trim w :: rest
       /\ Forall (variantOf (trim w)) rest.
Proof.
  intros Hs Ht. destruct (similarChoices_Some w total draws variants Ht Hs)
    as (rest & -> & Hlen & Hdiff).
  revert Hs. unfold similarChoices.
  destruct (Nat.ltb_spec (length (trim w)) 4); [done|].
  case_bool_decide as Hsp; [done|]. cbn [orb].
  pose proof (variantsLoop_good (trim w) total draws 40 0 [] (NoDup_nil_2)
                (Forall_nil_2 _)) as [Hnd Hall].
  revert Hnd Hall. generalize (variantsLoop 40 0 [] (trim w) total draws).
  intros vs Hnd Hall. destruct (_ <? _); [done|]. intros [= <-].
  split_and!; try done.
  - intros Hin. apply Hsp. by apply list_elem_of_In.
  - apply NoDup_cons. split; [|done]. intros Hin.
    rewrite Forall_forall in Hall. by destruct (Hall _ Hin) as (_ & Hne & _).
  - by exists vs.
Qed.

Lemma similarChoices_result_witness :
  similarChoices (str "focus") 2 (fun _ => sampleDraw) = Some [str "focus"; str "fous"]
  /\ NoDup [str "focus"; str "fous"].
Proof.
  assert (Hs : similarChoices (str "focus") 2 (fun _ => sampleDraw)
               = Some [str "focus"; str "fous"]) by (vm_compute; reflexivity).
  split; [exact Hs|].
  by destruct (similarChoices_result _ _ _ _ Hs ltac:(lia)) as (_ & _ & Hnd & _).
Defined.

(** X11.  A word that, once trimmed, is shorter than four code units or
    contains a space has no mutation list, and its question in normal
    difficulty takes its choices from the pool, as in easy difficulty. *)
Theorem short_words_fall_back_to_pool (wordPool : list WordEntry)
    (sampled : WordEntry) (rnd : Random) :
  (length (trim (word sampled)) < 4)%nat \/ In SPACE (trim (word sampled)) ->
  (forall total, similarChoices (word sampled) total (rnd_mutations rnd) = None)
  /\ questionFor wordPool normal sampled rnd = questionFor wordPool easy sampled rnd.
Proof.
  intros Hshort.
  assert (Hnone : forall total,
            similarChoices (word sampled) total (rnd_mutations rnd) = None).
  { intros total. unfold similarChoices.
    destruct Hshort as [Hlen|Hsp].
    - by rewrite (proj2 (Nat.ltb_lt _ _) Hlen).
    - rewrite (bool_decide_eq_true_2 _ (proj2 (list_elem_of_In _ _) Hsp)).
      by rewrite orb_true_r. }
  split; [done|]. unfold questionFor. by rewrite Hnone.
Qed.

Lemma short_words_fall_back_to_pool_witness :
  (length (trim (str "run")) < 4)%nat
  /\ questionFor (wordPool loadedState) normal
       {| id := str "run-0"; word := str "run"; hint := None |} sampleRandom
     = questionFor (wordPool loadedState) easy
         {| id := str "run-0"; word := str "run"; hint := None |} sampleRandom.
Proof.
  assert (Hlen : (length (trim (str "run")) < 4)%nat) by (vm_compute; lia).
  split; [exact Hlen|].
  exact (proj2 (short_words_fall_back_to_pool (wordPool loadedState)
                  {| id := str "run-0"; word := str "run"; hint := None |}
                  sampleRandom (or_introl Hlen))).
Defined.

(** ** Session engine: counters, energy and clocks *)

Lemma answerSession_ok isCorrect prev :
  sessionOk prev -> sessionOk (answerSession isCorrect prev).
Proof.
  unfold sessionOk, answerSession, clamp. intros (Hc & Hs & Hl & Hi & Hsc & He).
  destruct isCorrect; cbn [combo streak longestStreak s_correct s_incorrect score energy].
  - split_and!; try lia.
  - change (0 / 3) with 0. split_and!; try lia.
Qed.

Lemma freshSession_ok t : sessionOk (freshSession t).
Proof. unfold sessionOk, freshSession, clamp. simpl. change (0 / 3) with 0. lia. Qed.

Lemma applyAnswer_sessionOk isCorrect now st :
  sessionOk (session st) -> sessionOk (session (applyAnswer isCorrect now st)).
Proof.
  unfold applyAnswer. destruct (currentQuestion st); [|done].
  apply answerSession_ok.
Qed.

Lemma handle_sessionOk `{Platform} now ev st :
  sessionOk (session st) -> sessionOk (session (handle now ev st)).
Proof.
  intros Hs. destruct ev; simpl; try done.
  - by destruct s.
  - unfold startSession. destruct (_ <? 2)%nat; [done|].
    rewrite (proj1 (nextQuestion_session _ _ _)). apply freshSession_ok.
  - unfold handleChoice. destruct (currentQuestion st), (feedback st); try done.
    destruct (_ || _); [done|]. by apply applyAnswer_sessionOk.
  - unfold submitTyped. destruct (currentQuestion st), (feedback st); try done.
    by apply applyAnswer_sessionOk.
  - unfold handleSelfRating. destruct (currentQuestion st); [|done].
    by rewrite (proj1 (nextQuestion_session _ _ _)).
  - unfold sessionTick. by destruct (stage st), (paused st), (sessionLength st).
  - unfold questionTick.
    destruct (stage st), (paused st), (feedback st), (difficulty st),
      (currentQuestion st); try done.
    by destruct (_ <=? 0).
Qed.

Lemma effects_sessionOk now st :
  sessionOk (session st) -> sessionOk (session (effects now st)).
Proof.
  intros Hs. unfold effects.
  assert (sessionOk (session (if timesOut st then applyAnswer false now st else st))).
  { destruct (timesOut st); [|done]. by apply applyAnswer_sessionOk. }
  by destruct (sessionEnds st).
Qed.

Lemma run_sessionOk `{Platform} trace : forall st,
  sessionOk (session st) -> sessionOk (session (run st trace)).
Proof.
  induction trace as [|occ trace IH]; intros st Hs; [done|].
  apply IH. unfold step, settle.
  by apply effects_sessionOk, effects_sessionOk, handle_sessionOk.
Qed.

Lemma initialApp_sessionOk stats daily : sessionOk (session (initialApp stats daily)).
Proof. apply freshSession_ok. Qed.

(** X12.  After every run of the component the session counters fit
    together: the combo is [clamp(1 + floor(streak / 3), 1, 5)] of the
    current streak, hence between 1 and 5; the streak is not negative
    and not above the longest streak, which is not above the number of
    correct answers; the score is between 10 and 50 times the number of
    correct answers.  From such a state a correct answer does not lower
    the combo and an incorrect one sets it to 1. *)
Theorem session_counters_fit `{Platform}
    (stats : gmap (list N) WordStat) (daily : DailyGoal)
    (trace : list (Z * Event)) :
  let s := session (run (initialApp stats daily) trace) in
  combo s = clamp (1 + streak s / 3) 1 5
  /\ 1 <= combo s <= 5
  /\ 0 <= streak s <= longestStreak s
  /\ longestStreak s <= s_correct s
  /\ 0 <= s_incorrect s
  /\ 10 * s_correct s <= score s <= 50 * s_correct s
  /\ combo s <= combo (answerSession true s)
  /\ combo (answerSession false s) = 1.
Proof.
  intros s.
  destruct (run_sessionOk trace _ (initialApp_sessionOk stats daily))
    as (Hc & Hs & Hl & Hi & Hsc & He). fold s in Hc, Hs, Hl, Hi, Hsc, He.
  split_and!; try done; try lia.
  - rewrite Hc. unfold clamp. lia.
  - rewrite Hc. unfold clamp. lia.
  - rewrite Hc. cbn [answerSession combo]. unfold clamp.
    pose proof (Z.div_le_mono (streak s) (streak s + 1) 3 ltac:(lia) ltac:(lia)).
    lia.
Qed.

(** X13.  After every run the energy is at least 100 minus 18 for every
    incorrect answer of the session: it is full while nothing was missed,
    and it cannot be at or below 0, which is what ends a session early,
    before the sixth incorrect answer. *)
Theorem energy_needs_six_misses `{Platform}
    (stats : gmap (list N) WordStat) (daily : DailyGoal)
    (trace : list (Z * Event)) :
  let s := session (run (initialApp stats daily) trace) in
  100 - 18 * s_incorrect s <= energy s
  /\ (if s_incorrect s =? 0 then energy s = 100 else True)
  /\ (if energy s <=? 0 then 6 <= s_incorrect s else True).
Proof.
  intros s.
  destruct (run_sessionOk trace _ (initialApp_sessionOk stats daily))
    as (Hc & Hs & Hl & Hi & Hsc & He). fold s in Hc, Hs, Hl, Hi, Hsc, He.
  split_and!; [lia| |].
  - destruct (Z.eqb_spec (s_incorrect s) 0); [lia|done].
  - destruct (Z.leb_spec (energy s) 0); [lia|done].
Qed.

Lemma settle_not_ending now st :
  stage (settle now st) = play -> sessionEnds (settle now st) = false.
Proof.
  intros Hplay. destruct (sessionEnds (settle now st)) eqn:E; [|done].
  pose proof (settle_stable now st) as Hst. unfold effects at 1 in Hst.
  rewrite E in Hst. rewrite <- Hst in Hplay. by destruct (timesOut (settle now st)).
Qed.

(** X14.  After every run, a session that is still being played is not
    out of time: when its length is timed, the time left is above 0 (at
    0 the session-end effect has moved it to the summary); a zen session
    is never ended by the clock, its time left stays as it is. *)
Theorem playing_sessions_have_time `{Platform}
    (stats : gmap (list N) WordStat) (daily : DailyGoal)
    (trace : list (Z * Event)) :
  let final := run (initialApp stats daily) trace in
  match stage final, sessionLength final with
  | play, minutes _ => 0 < timeLeft (session final)
  | _, _ => True
  end
  /\ (match sessionLength final with
      | zen => sessionTick final = final
      | minutes _ => True
      end).
Proof.
  intros final. split.
  - destruct (stage final) eqn:Hs; try done.
    destruct (sessionLength final) eqn:Hl; [|done].
    assert (He : sessionEnds final = false).
    { subst final. destruct trace as [|occ trace _] using rev_ind; [done|].
      rewrite run_snoc in *. by apply settle_not_ending. }
    unfold sessionEnds in He. rewrite Hs, Hl in He.
    destruct (energy (session final) <=? 0); [done|].
    by apply Z.leb_gt in He.
  - destruct (sessionLength final) eqn:Hl; [done|].
    unfold sessionTick. rewrite Hl. by destruct (stage final), (paused final).
Qed.

Lemma sessionTick_timeLeft st m :
  stage st = play -> paused st = false -> sessionLength st = minutes m ->
  0 <= timeLeft (session st) ->
  let st' := sessionTick st in
  stage st' = play /\ paused st' = false /\ sessionLength st' = minutes m
  /\ timeLeft (session st') = Z.max 0 (timeLeft (session st) - 1)
  /\ energy (session st') = energy (session st)
  /\ score (session st') = score (session st)
  /\ streak (session st') = streak (session st)
  /\ currentQuestion st' = currentQuestion st.
Proof.
  intros Hs Hp Hl Ht. unfold sessionTick. rewrite Hs, Hp, Hl.
  cbn [set_session stage paused sessionLength session timeLeft energy score
       streak currentQuestion].
  split_and!; try done. destruct (Z.leb_spec (timeLeft (session st)) 1); lia.
Qed.

(** X15.  In a timed session that is being played and is not paused, [n]
    firings of the session clock take the time left from [t] to
    [max(0, t - n)], never below 0, and change nothing else of the
    score, the energy, the streak or the question. *)
Theorem session_clock_counts_down (st : App) (m : Z) (n : nat) :
  stage st = play -> paused st = false -> sessionLength st = minutes m ->
  0 <= timeLeft (session st) ->
  let st' := Nat.iter n sessionTick st in
  timeLeft (session st') = Z.max 0 (timeLeft (session st) - Z.of_nat n)
  /\ energy (session st') = energy (session st)
  /\ score (session st') = score (session st)
  /\ streak (session st') = streak (session st)
  /\ currentQuestion st' = currentQuestion st.
Proof.
  intros Hs Hp Hl Ht.
  assert (Hiter : forall k, let st' := Nat.iter k sessionTick st in
            stage st' = play /\ paused st' = false /\ sessionLength st' = minutes m
            /\ timeLeft (session st') = Z.max 0 (timeLeft (session st) - Z.of_nat k)
            /\ energy (session st') = energy (session st)
            /\ score (session st') = score (session st)
            /\ streak (session st') = streak (session st)
            /\ currentQuestion st' = currentQuestion st).
  { induction k as [|k IH]; [simpl; split_and!; try done; lia|].
    destruct IH as (I1 & I2 & I3 & I4 & I5 & I6 & I7 & I8).
    set (mid := Nat.iter k sessionTick st) in *.
    destruct (sessionTick_timeLeft mid m I1 I2 I3 ltac:(lia))
      as (J1 & J2 & J3 & J4 & J5 & J6 & J7 & J8).
    change (Nat.iter (S k) sessionTick st) with (sessionTick mid).
    split_and!; try congruence. lia. }
  intros st'. destruct (Hiter n) as (_ & _ & _ & H4 & H5 & H6 & H7 & H8).
  by split_and!.
Qed.

Lemma session_clock_counts_down_witness :
  stage startedState = play /\ paused startedState = false
  /\ sessionLength startedState = minutes 5
  /\ timeLeft (session (Nat.iter 7 sessionTick startedState)) = 293.
Proof.
  assert (H1 : stage startedState = play) by (vm_compute; reflexivity).
  assert (H2 : paused startedState = false) by (vm_compute; reflexivity).
  assert (H3 : sessionLength startedState = minutes 5) by (vm_compute; reflexivity).
  assert (H4 : 0 <= timeLeft (session startedState)) by (vm_compute; discriminate).
  destruct (session_clock_counts_down startedState 5 7 H1 H2 H3 H4) as (Ht & _).
  split_and!; [exact H1|exact H2|exact H3|].
  rewrite Ht. vm_compute. reflexivity.
Defined.

(** ** Session engine: the question timeout and the daily goal *)

Lemma effects_idle_state now st :
  timesOut st = false -> sessionEnds st = false -> effects now st = st.
Proof. intros Ht He. unfold effects. by rewrite Ht, He. Qed.

Lemma run_app `{Platform} st t1 t2 : run st (t1 ++ t2) = run (run st t1) t2.
Proof. unfold run. by rewrite fold_left_app. Qed.

Section QuestionTimeout.
Context `{Platform}.

Lemma waiting_tick st t now :
  waiting st t -> 1 < t ->
  step st (now, QuestionTick)
  = set_controls (typedAnswer st) (t - 1) (paused st) st
  /\ waiting (step st (now, QuestionTick)) (t - 1).
Proof.
  intros (Hs & Hp & Hf & Hd & [q Hq] & Ht & He) Hlt.
  assert (Hstep : step st (now, QuestionTick)
                  = set_controls (typedAnswer st) (t - 1) (paused st) st).
  { unfold step. cbn [fst snd handle]. unfold questionTick.
    rewrite Hs, Hp, Hf, Hd, Hq, Ht.
    destruct (Z.leb_spec t 0); [lia|]. rewrite Z.max_r by lia.
    set (st2 := set_controls (typedAnswer st) (t - 1) false st).
    assert (Hto : timesOut st2 = false).
    { unfold timesOut, st2.
      cbn [set_controls stage difficulty feedback currentQuestion questionTimeLeft].
      rewrite Hs, Hd, Hf, Hq. apply Z.eqb_neq. lia. }
    assert (He2 : sessionEnds st2 = false) by exact He.
    unfold settle. rewrite (effects_idle_state now st2 Hto He2).
    apply (effects_idle_state now st2 Hto He2). }
  split; [done|]. rewrite Hstep. unfold waiting.
  cbn [set_controls stage paused feedback difficulty currentQuestion questionTimeLeft].
  by split_and!.
Qed.

Lemma waiting_ticks nows : forall st t,
  waiting st t -> Z.of_nat (length nows) < t ->
  let st' := run st (map (fun now => (now, QuestionTick)) nows) in
  waiting st' (t - Z.of_nat (length nows))
  /\ feedback st' = idle /\ session st' = session st
  /\ missedWords st' = missedWords st /\ currentQuestion st' = currentQuestion st.
Proof.
  induction nows as [|now nows IH]; intros st t Hw Hlt.
  - simpl. rewrite Z.sub_0_r. destruct Hw as (? & ? & ? & ?). by split_and!.
  - cbn [map length] in *. destruct (waiting_tick st t now Hw ltac:(lia)) as [Hstep Hw'].
    change (run st ((now, QuestionTick) :: map (fun now0 => (now0, QuestionTick)) nows))
      with (run (step st (now, QuestionTick))
              (map (fun now0 => (now0, QuestionTick)) nows)).
    destruct (IH _ _ Hw' ltac:(lia)) as (I1 & I2 & I3 & I4 & I5).
    replace (t - Z.of_nat (S (length nows)))
      with (t - 1 - Z.of_nat (length nows)) by lia.
    split_and!; try done.
    + by rewrite I3, Hstep.
    + by rewrite I4, Hstep.
    + by rewrite I5, Hstep.
Qed.

Lemma waiting_last_tick st now q :
  waiting st 1 -> currentQuestion st = Some q ->
  let st' := step st (now, QuestionTick) in
  feedback st' = wrong_fb
  /\ session st' = answerSession false (session st)
  /\ missedWords st' = addMissed (word (entry q)) (missedWords st)
  /\ currentQuestion st' = Some q.
Proof.
  intros (Hs & Hp & Hf & Hd & _ & Ht & He) Hq st'. subst st'.
  unfold step. cbn [fst snd handle]. unfold questionTick.
  rewrite Hs, Hp, Hf, Hd, Hq, Ht. change (1 <=? 0) with false. cbn iota.
  change (0 `max` (1 - 1)) with 0.
  set (st2 := set_controls (typedAnswer st) 0 false st).
  assert (Hto : timesOut st2 = true).
  { unfold timesOut, st2.
    cbn [set_controls stage difficulty feedback currentQuestion questionTimeLeft].
    by rewrite Hs, Hd, Hf, Hq. }
  assert (He2 : sessionEnds st2 = false) by exact He.
  set (st3 := applyAnswer false now st2).
  assert (Hfirst : effects now st2 = st3).
  { unfold effects. by rewrite Hto, He2. }
  unfold settle. rewrite Hfirst.
  assert (Hst3 : feedback st3 = wrong_fb
                 /\ session st3 = answerSession false (session st)
                 /\ missedWords st3 = addMissed (word (entry q)) (missedWords st)
                 /\ currentQuestion st3 = Some q).
  { unfold st3, applyAnswer.
    change (currentQuestion st2) with (currentQuestion st). rewrite Hq.
    by split_and!. }
  assert (Hto3 : timesOut st3 = false).
  { unfold timesOut. destruct Hst3 as (-> & _).
    by destruct (stage st3), (difficulty st3). }
  unfold effects. rewrite Hto3. by destruct (sessionEnds st3).
Qed.

End QuestionTimeout.

(** X16.  In easy difficulty a question that waits for its answer with
    five seconds on its clock is not touched by the first four firings
    of that clock; the fifth brings the clock to 0 and the timeout
    effect records an incorrect answer: the feedback is wrong, the
    session is updated as by an incorrect answer (streak 0, combo 1,
    energy down by 18 within [0, 100], one more incorrect answer), and
    the word joins the missed words. *)
Theorem easy_question_times_out `{Platform} (st : App) (q : Question)
    (n1 n2 n3 n4 n5 : Z) :
  waiting st 5 -> currentQuestion st = Some q ->
  let ticks nows := map (fun now => (now, QuestionTick)) nows in
  let before := run st (ticks [n1; n2; n3; n4]) in
  let after := run st (ticks [n1; n2; n3; n4; n5]) in
  (feedback before = idle /\ session before = session st
   /\ missedWords before = missedWords st)
  /\ feedback after = wrong_fb
  /\ session after = answerSession false (session st)
  /\ streak (session after) = 0 /\ combo (session after) = 1
  /\ energy (session after) = clamp (energy (session st) - 18) 0 100
  /\ s_incorrect (session after) = s_incorrect (session st) + 1
  /\ missedWords after = addMissed (word (entry q)) (missedWords st)
  /\ In (word (entry q)) (missedWords after).
Proof.
  intros Hw Hq ticks before after.
  destruct (waiting_ticks [n1; n2; n3; n4] st 5 Hw ltac:(simpl; lia))
    as (Hw4 & Hf & Hs & Hm & Hq4).
  fold (ticks [n1; n2; n3; n4]) in Hw4, Hf, Hs, Hm, Hq4. fold before in Hw4, Hf, Hs, Hm, Hq4.
  assert (Hafter : after = step before (n5, QuestionTick)).
  { subst after before.
    change (ticks [n1; n2; n3; n4; n5]) with (ticks [n1; n2; n3; n4] ++ ticks [n5]).
    by rewrite run_app. }
  rewrite Hq in Hq4.
  destruct (waiting_last_tick before n5 q Hw4 Hq4) as (A1 & A2 & A3 & A4).
  rewrite <- Hafter in A1, A2, A3, A4. rewrite Hs in A2. rewrite Hm in A3.
  assert (Hsess : session after = answerSession false (session st)) by exact A2.
  split_and!; try done.
  - by rewrite Hsess.
  - by rewrite Hsess.
  - by rewrite Hsess.
  - by rewrite Hsess.
  - rewrite A3. unfold addMissed. case_bool_decide as Hin.
    + by apply list_elem_of_In.
    + apply in_or_app. right. by left.
Qed.

Lemma easy_question_times_out_witness :
  @waiting startedState 5
  /\ feedback (@run asciiPlatform startedState
                 (map (fun now => (now, QuestionTick)) [4000; 5000; 6000; 7000; 8000]))
     = wrong_fb.
Proof.
  assert (Hw : waiting startedState 5).
  { unfold waiting. split_and!; try (vm_compute; reflexivity).
    vm_compute. eexists. reflexivity. }
  assert (Hq : currentQuestion startedState
               = Some (questionFor (wordPool loadedState) easy
                         {| id := str "run-0"; word := str "run"; hint := None |}
                         sampleRandom)) by (vm_compute; reflexivity).
  split; [exact Hw|].
  by destruct (@easy_question_times_out asciiPlatform startedState _
                 4000 5000 6000 7000 8000 Hw Hq) as (_ & Hf & _).
Defined.

Lemma nextQuestion_daily now rnd st :
  dailyGoal (nextQuestion now rnd st) = dailyGoal st.
Proof.
  unfold nextQuestion. by destruct (pickWeighted _ _ _ _ _) as [[sampled|] stats].
Qed.

(** How a step may move the daily goal: the date stays, the count grows
    by what the session's count of correct answers grows by. *)
Lemma applyAnswer_daily isCorrect now st :
  date (dailyGoal (applyAnswer isCorrect now st)) = date (dailyGoal st)
  /\ d_correct (dailyGoal (applyAnswer isCorrect now st))
     - s_correct (session (applyAnswer isCorrect now st))
     = d_correct (dailyGoal st) - s_correct (session st)
  /\ d_correct (dailyGoal st) <= d_correct (dailyGoal (applyAnswer isCorrect now st)).
Proof.
  unfold applyAnswer. destruct (currentQuestion st); [|split_and!; try done; lia].
  destruct isCorrect; simpl; split_and!; try done; lia.
Qed.

Lemma handle_daily `{Platform} now ev st :
  (date (dailyGoal (handle now ev st)) = date (dailyGoal st)
   /\ d_correct (dailyGoal st) <= d_correct (dailyGoal (handle now ev st)))
  /\ (noStart ev ->
      d_correct (dailyGoal (handle now ev st)) - s_correct (session (handle now ev st))
      = d_correct (dailyGoal st) - s_correct (session st)).
Proof.
  destruct ev; simpl; try (split; [split; [done|lia]|done]).
  - destruct s; split; try done; split; try done; lia.
  - split; [|done]. unfold startSession. destruct (_ <? 2)%nat; [split; [done|lia]|].
    rewrite nextQuestion_daily. simpl. split; [done|lia].
  - unfold handleChoice. destruct (currentQuestion st), (feedback st);
      try (split; [split; [done|lia]|done]).
    destruct (_ || _); [split; [split; [done|lia]|done]|].
    destruct (applyAnswer_daily (index =? correctIndex q) now st) as (A & B & C).
    by split.
  - unfold submitTyped. destruct (currentQuestion st) as [q|], (feedback st);
      try (split; [split; [done|lia]|done]).
    match goal with |- context [applyAnswer ?b now st] =>
      destruct (applyAnswer_daily b now st) as (A & B & C) end.
    by split.
  - unfold handleSelfRating. destruct (currentQuestion st); [|split; [split; [done|lia]|done]].
    rewrite nextQuestion_daily, (proj1 (nextQuestion_session _ _ _)). simpl.
    split; [split; [done|lia]|done].
  - unfold sessionTick. destruct (stage st), (paused st), (sessionLength st);
      split; try done; split; try done; lia.
  - unfold questionTick.
    destruct (stage st), (paused st), (feedback st), (difficulty st),
      (currentQuestion st); try (split; [split; [done|lia]|done]).
    destruct (_ <=? 0); split; try done; split; try done; lia.
Qed.

Lemma effects_daily now st :
  date (dailyGoal (effects now st)) = date (dailyGoal st)
  /\ d_correct (dailyGoal st) <= d_correct (dailyGoal (effects now st))
  /\ d_correct (dailyGoal (effects now st)) - s_correct (session (effects now st))
     = d_correct (dailyGoal st) - s_correct (session st).
Proof.
  unfold effects.
  assert (Hmid : let mid := if timesOut st then applyAnswer false now st else st in
            date (dailyGoal mid) = date (dailyGoal st)
            /\ d_correct (dailyGoal st) <= d_correct (dailyGoal mid)
            /\ d_correct (dailyGoal mid) - s_correct (session mid)
               = d_correct (dailyGoal st) - s_correct (session st)).
  { destruct (timesOut st); [|simpl; split_and!; try done; lia].
    destruct (applyAnswer_daily false now st) as (A & B & C). by split_and!. }
  by destruct (sessionEnds st).
Qed.

Lemma step_daily `{Platform} st occ :
  (date (dailyGoal (step st occ)) = date (dailyGoal st)
   /\ d_correct (dailyGoal st) <= d_correct (dailyGoal (step st occ)))
  /\ (noStart occ.2 ->
      d_correct (dailyGoal (step st occ)) - s_correct (session (step st occ))
      = d_correct (dailyGoal st) - s_correct (session st)).
Proof.
  unfold step, settle. destruct occ as [now ev]. cbn [fst snd].
  destruct (handle_daily now ev st) as ((A1 & A2) & A3).
  destruct (effects_daily now (handle now ev st)) as (B1 & B2 & B3).
  destruct (effects_daily now (effects now (handle now ev st))) as (C1 & C2 & C3).
  split; [split; [congruence|lia]|]. intros Hn. specialize (A3 Hn). lia.
Qed.

(** X17.  The daily goal is never reset by the component: along every
    run, whatever sessions start and end in it, its date stays as it is
    and its count of correct answers does not go down. *)
Theorem daily_goal_is_never_reset `{Platform} (st : App) (trace : list (Z * Event)) :
  date (dailyGoal (run st trace)) = date (dailyGoal st)
  /\ d_correct (dailyGoal st) <= d_correct (dailyGoal (run st trace)).
Proof.
  revert st. induction trace as [|occ trace IH]; intros st; [split; [done|simpl; lia]|].
  change (run st (occ :: trace)) with (run (step st occ) trace).
  destruct (IH (step st occ)) as [I1 I2].
  destruct (step_daily st occ) as ((A1 & A2) & _). split; [congruence|lia].
Qed.

(** X18.  While no new session starts, the daily goal grows by exactly
    the correct answers the session scores: the difference between the
    daily count and the session's count of correct answers stays the
    same. *)
Theorem daily_goal_counts_correct_answers `{Platform} (st : App)
    (trace : list (Z * Event)) :
  Forall (fun occ => noStart occ.2) trace ->
  d_correct (dailyGoal (run st trace)) - d_correct (dailyGoal st)
  = s_correct (session (run st trace)) - s_correct (session st).
Proof.
  revert st. induction trace as [|occ trace IH]; intros st Hall; [simpl; lia|].
  inversion Hall as [|? ? Hocc Hrest]; subst.
  change (run st (occ :: trace)) with (run (step st occ) trace).
  specialize (IH (step st occ) Hrest).
  destruct (step_daily st occ) as (_ & A3). specialize (A3 Hocc). lia.
Qed.

Lemma daily_goal_counts_correct_answers_witness :
  Forall (fun occ : Z * Event => noStart occ.2) [(4000, Choose 0)]
  /\ d_correct (dailyGoal (@run asciiPlatform startedState [(4000, Choose 0)]))
     - d_correct (dailyGoal startedState) = 1.
Proof.
  assert (Hall : Forall (fun occ : Z * Event => noStart occ.2) [(4000, Choose 0)])
    by (repeat constructor).
  split; [exact Hall|].
  rewrite (@daily_goal_counts_correct_answers asciiPlatform startedState _ Hall).
  vm_compute. reflexivity.
Defined.

(** ** Session engine: the store, the question on display, the missed words *)

Lemma statGrows_refl stat : statGrows stat stat.
Proof. unfold statGrows. lia. Qed.

Lemma storeGrows_refl stats : storeGrows stats stats.
Proof. intros w stat Hw. exists stat. split; [done|apply statGrows_refl]. Qed.

Lemma storeGrows_trans s1 s2 s3 :
  storeGrows s1 s2 -> storeGrows s2 s3 -> storeGrows s1 s3.
Proof.
  intros H12 H23 w stat Hw.
  destruct (H12 w stat Hw) as (stat2 & Hw2 & G2).
  destruct (H23 w stat2 Hw2) as (stat3 & Hw3 & G3).
  exists stat3. split; [done|]. unfold statGrows in *. lia.
Qed.

Lemma storeGrows_is_Some s1 s2 w :
  storeGrows s1 s2 -> is_Some (s1 !! w) -> is_Some (s2 !! w).
Proof. intros Hg [stat Hw]. destruct (Hg w stat Hw) as (stat' & Hw' & _). by exists stat'. Qed.

Lemma ensureStats_grows stats entry : storeGrows stats (ensureStats stats entry).
Proof.
  intros w stat Hw. exists stat. split; [|apply statGrows_refl].
  by rewrite ensureStats_lookup, Hw.
Qed.

Lemma ensureAll_grows entries stats :
  storeGrows stats (fold_left ensureStats entries stats).
Proof.
  intros w stat Hw. exists stat. split; [|apply statGrows_refl].
  by apply (proj1 (ensureAll_lookup entries stats)).
Qed.

Lemma update_grows (f : WordStat -> WordStat) stats entry :
  (forall stat, statGrows stat (f stat)) ->
  storeGrows stats
    (<[word entry := f (ensureStats stats entry !!! word entry)]>
       (ensureStats stats entry)).
Proof.
  intros Hf w stat Hw.
  assert (Hw' : ensureStats stats entry !! w = Some stat)
    by (by rewrite ensureStats_lookup, Hw).
  destruct (decide (word entry = w)) as [<-|Hne].
  - rewrite lookup_insert_eq. eexists. split; [done|].
    rewrite lookup_total_alt, Hw'. apply Hf.
  - rewrite lookup_insert_ne by done. exists stat. split; [done|apply statGrows_refl].
Qed.

Lemma answerStat_grows isCorrect now stat : statGrows stat (answerStat isCorrect now stat).
Proof. unfold statGrows. destruct isCorrect; simpl; lia. Qed.

Lemma rateStat_grows rating stat : statGrows stat (rateStat rating stat).
Proof. unfold statGrows. destruct rating; simpl; lia. Qed.

Lemma nextQuestion_store now rnd st :
  statsRef (nextQuestion now rnd st) = statsRef st
  \/ statsRef (nextQuestion now rnd st) = fold_left ensureStats (wordPool st) (statsRef st).
Proof.
  unfold nextQuestion.
  pose proof (pickWeighted_store (wordPool st) (statsRef st) (lastWordRef st) now
                (rnd_roll rnd)) as Hs.
  destruct (pickWeighted _ _ _ _ _) as [[sampled|] stats]; [by right|by left].
Qed.

Lemma nextQuestion_grows now rnd st :
  storeGrows (statsRef st) (statsRef (nextQuestion now rnd st)).
Proof.
  destruct (nextQuestion_store now rnd st) as [->| ->];
    [apply storeGrows_refl|apply ensureAll_grows].
Qed.

Lemma applyAnswer_grows isCorrect now st :
  storeGrows (statsRef st) (statsRef (applyAnswer isCorrect now st)).
Proof.
  unfold applyAnswer. destruct (currentQuestion st) as [q|]; [|apply storeGrows_refl].
  cbn [statsRef]. apply (update_grows (answerStat isCorrect now)).
  apply answerStat_grows.
Qed.

Lemma handleSelfRating_grows rating now rnd st :
  storeGrows (statsRef st) (statsRef (handleSelfRating rating now rnd st)).
Proof.
  unfold handleSelfRating. destruct (currentQuestion st) as [q|]; [|apply storeGrows_refl].
  eapply storeGrows_trans; [|apply nextQuestion_grows].
  cbn [set_statsRef statsRef]. apply (update_grows (rateStat rating)).
  apply rateStat_grows.
Qed.

Lemma handle_grows `{Platform} now ev st :
  storeGrows (statsRef st) (statsRef (handle now ev st)).
Proof.
  destruct ev; simpl; try apply storeGrows_refl.
  - destruct s; apply storeGrows_refl.
  - unfold startSession. destruct (_ <? 2)%nat; [apply storeGrows_refl|].
    apply (nextQuestion_grows now rnd
             {| stage := play; rawText := rawText st; removeEmpty := removeEmpty st;
                removeDuplicates := removeDuplicates st; wordPool := wordPool st;
                difficulty := difficulty st; sessionLength := sessionLength st;
                session := freshSession
                             match sessionLength st with zen => 0 | minutes m => m * 60 end;
                currentQuestion := currentQuestion st;
                feedback := idle; typedAnswer := [];
                questionTimeLeft := questionTimeLeft st; paused := false;
                dailyGoal := dailyGoal st; missedWords := [];
                statsRef := statsRef st; lastWordRef := lastWordRef st |}).
  - unfold handleChoice.
    destruct (currentQuestion st), (feedback st); try apply storeGrows_refl.
    destruct (_ || _); [apply storeGrows_refl|apply applyAnswer_grows].
  - unfold submitTyped.
    destruct (currentQuestion st), (feedback st); try apply storeGrows_refl.
    apply applyAnswer_grows.
  - apply handleSelfRating_grows.
  - unfold sessionTick.
    destruct (stage st), (paused st), (sessionLength st); apply storeGrows_refl.
  - unfold questionTick.
    destruct (stage st), (paused st), (feedback st), (difficulty st),
      (currentQuestion st); try apply storeGrows_refl.
    destruct (_ <=? 0); apply storeGrows_refl.
  - apply ensureAll_grows.
Qed.

Lemma effects_grows now st : storeGrows (statsRef st) (statsRef (effects now st)).
Proof.
  unfold effects.
  assert (storeGrows (statsRef st)
            (statsRef (if timesOut st then applyAnswer false now st else st))).
  { destruct (timesOut st); [apply applyAnswer_grows|apply storeGrows_refl]. }
  by destruct (sessionEnds st).
Qed.

Lemma step_grows `{Platform} st occ : storeGrows (statsRef st) (statsRef (step st occ)).
Proof.
  unfold step, settle.
  eapply storeGrows_trans; [apply handle_grows|].
  eapply storeGrows_trans; apply effects_grows.
Qed.

(** X19.  The component never drops a record of the mastery store and
    never lowers a counter: along every run, a word that has a record
    keeps one, and the exposures, correct and incorrect counts of its
    record do not go down. *)
Theorem records_only_grow `{Platform} (st : App) (trace : list (Z * Event))
    (w : jsstring) (stat : WordStat) :
  statsRef st !! w = Some stat ->
  exists stat', statsRef (run st trace) !! w = Some stat'
    /\ exposures stat <= exposures stat'
    /\ correct stat <= correct stat'
    /\ incorrect stat <= incorrect stat'.
Proof.
  revert st stat. induction trace as [|occ trace IH]; intros st stat Hw.
  - exists stat. simpl. split; [done|lia].
  - destruct (step_grows st occ w stat Hw) as (stat1 & Hw1 & G1 & G2 & G3).
    destruct (IH (step st occ) stat1 Hw1) as (stat' & Hw' & K1 & K2 & K3).
    exists stat'. split; [exact Hw'|lia].
Qed.

Lemma records_only_grow_witness :
  exists stat',
    statsRef (@run asciiPlatform missState [(5000, Rate know sampleRandom)]) !! str "run"
    = Some stat'
    /\ 1 <= exposures stat'.
Proof.
  assert (Hw : statsRef missState !! str "run"
               = Some (answerStat false 4000 defaultStat)) by (vm_compute; reflexivity).
  destruct (@records_only_grow asciiPlatform missState
              [(5000, Rate know sampleRandom)] _ _ Hw) as (stat' & Hs & He & _).
  exists stat'. split; [exact Hs|exact He].
Defined.

Lemma run_grows `{Platform} trace : forall st,
  storeGrows (statsRef st) (statsRef (run st trace)).
Proof.
  induction trace as [|occ trace IH]; intros st; [apply storeGrows_refl|].
  eapply storeGrows_trans; [apply step_grows|apply IH].
Qed.

Lemma displayOk_frame st st' :
  displayOk st ->
  (stage st' = play -> stage st = play) ->
  currentQuestion st' = currentQuestion st ->
  feedback st' = feedback st ->
  lastWordRef st' = lastWordRef st ->
  missedWords st' = missedWords st ->
  s_incorrect (session st') = s_incorrect (session st) ->
  storeGrows (statsRef st) (statsRef st') ->
  displayOk st'.
Proof.
  intros (D1 & D2 & D3 & D4 & D5 & D6) Hs Hq Hf Hl Hm Hi Hg.
  unfold displayOk. rewrite Hq, Hf, Hl, Hm, Hi.
  split_and!; try done.
  - intros Hp. by apply D1, Hs.
  - intros q Hq'. destruct (D3 q Hq') as [E1 E2]. split; [done|].
    by eapply storeGrows_is_Some.
  - intros w Hw. eapply storeGrows_is_Some; [done|]. by apply D6.
Qed.

Lemma addMissed_NoDup w l : NoDup l -> NoDup (addMissed w l).
Proof.
  intros Hl. unfold addMissed. case_bool_decide as Hin; [done|].
  apply NoDup_app. split_and!; [done| |apply NoDup_singleton].
  intros x Hx Hx'. apply list_elem_of_singleton in Hx'. by subst.
Qed.

Lemma addMissed_elem w l x : x ∈ addMissed w l -> x ∈ l \/ x = w.
Proof.
  unfold addMissed. case_bool_decide; [by left|].
  rewrite elem_of_app, list_elem_of_singleton. tauto.
Qed.

Lemma addMissed_length w l :
  Z.of_nat (length (addMissed w l)) <= Z.of_nat (length l) + 1.
Proof.
  unfold addMissed. case_bool_decide; [lia|]. rewrite length_app. simpl. lia.
Qed.

Lemma applyAnswer_display isCorrect now st :
  displayOk st -> displayOk (applyAnswer isCorrect now st).
Proof.
  intros Hd. pose proof (applyAnswer_grows isCorrect now st) as Hg.
  unfold applyAnswer in *. destruct (currentQuestion st) as [q|] eqn:Eq; [|done].
  destruct Hd as (D1 & D2 & D3 & D4 & D5 & D6).
  unfold displayOk.
  cbn [stage currentQuestion feedback lastWordRef missedWords session statsRef] in *.
  split_and!; try done.
  - intros q' [= <-]. destruct (D3 q Eq) as [E1 E2]. split; [done|].
    by eapply storeGrows_is_Some.
  - destruct isCorrect; [done|]. by apply addMissed_NoDup.
  - cbn [answerSession s_incorrect]. destruct isCorrect; [lia|].
    pose proof (addMissed_length (word (entry q)) (missedWords st)). lia.
  - intros w Hw.
    assert (Hcase : w ∈ missedWords st \/ w = word (entry q)).
    { destruct isCorrect; [by left|]. by apply addMissed_elem. }
    destruct Hcase as [Hin| ->].
    + eapply storeGrows_is_Some; [done|]. by apply D6.
    + by rewrite lookup_insert_eq.
Qed.

Lemma nextQuestion_empty now rnd st :
  wordPool st = [] -> nextQuestion now rnd st = st.
Proof. intros Hp. unfold nextQuestion. by rewrite Hp. Qed.

Lemma nextQuestion_new now rnd st :
  wordPool st <> [] ->
  NoDup (missedWords st) ->
  Z.of_nat (length (missedWords st)) <= s_incorrect (session st) ->
  (forall w, w ∈ missedWords st -> is_Some (statsRef st !! w)) ->
  displayOk (nextQuestion now rnd st)
  /\ exists q, currentQuestion (nextQuestion now rnd st) = Some q
       /\ In (entry q) (wordPool st).
Proof.
  intros Hne D4 D5 D6. unfold nextQuestion.
  destruct (pickWeighted_nonempty (wordPool st) (statsRef st) (lastWordRef st)
              now (rnd_roll rnd) Hne) as [sampled Hs].
  pose proof (pickWeighted_store (wordPool st) (statsRef st) (lastWordRef st) now
                (rnd_roll rnd)) as Hst.
  pose proof (pickWeighted_In (wordPool st) (statsRef st) (lastWordRef st) now
                (rnd_roll rnd) sampled Hs) as Hin.
  destruct (pickWeighted _ _ _ _ _) as [picked stats]. simpl in Hs, Hst. subst picked stats.
  assert (He : entry (questionFor (wordPool st) (difficulty st) sampled rnd) = sampled)
    by (by destruct (difficulty st)).
  split.
  - unfold displayOk.
    cbn [stage currentQuestion feedback lastWordRef missedWords session statsRef].
    split_and!; try done.
    + intros q [= <-]. rewrite He. split; [done|].
      by apply (proj1 (proj2 (ensureAll_lookup (wordPool st) (statsRef st)))).
    + intros w Hw. eapply storeGrows_is_Some; [apply ensureAll_grows|]. by apply D6.
  - eexists. split; [done|]. by rewrite He.
Qed.

Lemma nextQuestion_display now rnd st :
  displayOk st -> displayOk (nextQuestion now rnd st).
Proof.
  intros Hd. destruct (wordPool st) as [|e pool] eqn:Ep.
  - by rewrite nextQuestion_empty.
  - destruct Hd as (_ & _ & _ & D4 & D5 & D6).
    apply nextQuestion_new; try done. by rewrite Ep.
Qed.

Lemma handle_display `{Platform} now ev st :
  displayOk st -> displayOk (handle now ev st).
Proof.
  intros Hd. destruct ev; simpl.
  - apply (displayOk_frame st); try done; try apply storeGrows_refl.
  - apply (displayOk_frame st); try done; try apply storeGrows_refl.
  - destruct s; try done; apply (displayOk_frame st); try done; try apply storeGrows_refl.
  - apply (displayOk_frame st); try done; try apply storeGrows_refl.
  - unfold startSession. destruct (length (wordPool st) <? 2)%nat eqn:El; [done|].
    apply Nat.ltb_ge in El. destruct Hd as (_ & _ & _ & _ & _ & D6).
    apply nextQuestion_new; cbn [wordPool missedWords session statsRef freshSession s_incorrect].
    + intros Hp. rewrite Hp in El. simpl in El. lia.
    + constructor.
    + done.
    + intros w Hw. by apply elem_of_nil in Hw.
  - unfold handleChoice. destruct (currentQuestion st), (feedback st); try done.
    destruct (_ || _); [done|]. by apply applyAnswer_display.
  - apply (displayOk_frame st); try done; try apply storeGrows_refl.
  - unfold submitTyped. destruct (currentQuestion st), (feedback st); try done.
    by apply applyAnswer_display.
  - unfold handleSelfRating. destruct (currentQuestion st) as [q|] eqn:Eq; [|done].
    apply nextQuestion_display. apply (displayOk_frame st); try done.
    cbn [set_statsRef statsRef]. apply (update_grows (rateStat rating)), rateStat_grows.
  - apply (displayOk_frame st); try done; try apply storeGrows_refl.
  - apply (displayOk_frame st); try done; try apply storeGrows_refl.
  - unfold sessionTick.
    destruct (stage st) eqn:Es, (paused st), (sessionLength st); try done;
      apply (displayOk_frame st); try done; try apply storeGrows_refl.
  - unfold questionTick.
    destruct (stage st), (paused st), (feedback st), (difficulty st),
      (currentQuestion st) eqn:Eq; try done.
    destruct (_ <=? 0); [done|];
      apply (displayOk_frame st); try done; try apply storeGrows_refl.
  - apply (displayOk_frame st); try done; try apply ensureAll_grows.
Qed.

Lemma effects_display now st : displayOk st -> displayOk (effects now st).
Proof.
  intros Hd. unfold effects.
  assert (Hmid : displayOk (if timesOut st then applyAnswer false now st else st))
    by (destruct (timesOut st); [by apply applyAnswer_display|done]).
  destruct (sessionEnds st); [|done].
  apply (displayOk_frame _ _ Hmid); try done; try apply storeGrows_refl.
Qed.

Lemma run_display `{Platform} trace : forall st,
  displayOk st -> displayOk (run st trace).
Proof.
  induction trace as [|occ trace IH]; intros st Hd; [done|].
  apply IH. unfold step, settle. by apply effects_display, effects_display, handle_display.
Qed.


(** ** Answer evaluator: verdicts and what an answer changes *)

Lemma timesOut_answered st : feedback st <> idle -> timesOut st = false.
Proof.
  intros Hf. unfold timesOut.
  by destruct (stage st), (difficulty st), (feedback st), (currentQuestion st).
Qed.

Lemma sameOutcome_refl st : sameOutcome st st.
Proof. unfold sameOutcome. by split_and!. Qed.

Lemma sameOutcome_trans st1 st2 st3 :
  sameOutcome st1 st2 -> sameOutcome st2 st3 -> sameOutcome st1 st3.
Proof.
  unfold sameOutcome.
  intros (A1 & A2 & A3 & A4 & A5 & A6 & A7 & A8 & A9 & A10 & A11)
         (B1 & B2 & B3 & B4 & B5 & B6 & B7 & B8 & B9 & B10 & B11).
  split_and!; congruence.
Qed.

Lemma handle_answered `{Platform} now ev st :
  sameQuestion ev -> feedback st <> idle -> sameOutcome st (handle now ev st).
Proof.
  intros Hev Hf.
  assert (Hsame : forall st', currentQuestion st' = currentQuestion st ->
            feedback st' = feedback st ->
            (energy (session st'), score (session st'), streak (session st'),
             longestStreak (session st'), combo (session st'),
             s_correct (session st'), s_incorrect (session st'))
            = (energy (session st), score (session st), streak (session st),
               longestStreak (session st), combo (session st),
               s_correct (session st), s_incorrect (session st)) ->
            missedWords st' = missedWords st -> dailyGoal st' = dailyGoal st ->
            sameOutcome st st').
  { intros st' ? ? [= ? ? ? ? ? ? ?] ? ?. unfold sameOutcome. by split_and!. }
  destruct ev; simpl in *; try done; try (by apply Hsame).
  - destruct s; by apply Hsame.
  - unfold handleChoice. destruct (currentQuestion st), (feedback st);
      try done; by apply Hsame.
  - unfold submitTyped. destruct (currentQuestion st), (feedback st);
      try done; by apply Hsame.
  - unfold sessionTick. destruct (stage st), (paused st), (sessionLength st);
      by apply Hsame.
  - unfold questionTick.
    destruct (stage st), (paused st), (feedback st), (difficulty st),
      (currentQuestion st); try done; by apply Hsame.
Qed.

Lemma effects_answered now st :
  feedback st <> idle -> sameOutcome st (effects now st).
Proof.
  intros Hf. unfold effects. rewrite (timesOut_answered st Hf).
  destruct (sessionEnds st); [|apply sameOutcome_refl].
  unfold sameOutcome. by split_and!.
Qed.

Lemma step_answered `{Platform} st occ :
  sameQuestion occ.2 -> feedback st <> idle -> sameOutcome st (step st occ).
Proof.
  intros Hev Hf. unfold step, settle. destruct occ as [now ev]. cbn [fst snd] in *.
  pose proof (handle_answered now ev st Hev Hf) as H1.
  assert (Hf1 : feedback (handle now ev st) <> idle).
  { destruct H1 as (_ & -> & _). done. }
  pose proof (effects_answered now _ Hf1) as H2.
  assert (Hf2 : feedback (effects now (handle now ev st)) <> idle).
  { destruct H2 as (_ & -> & _). done. }
  pose proof (effects_answered now _ Hf2) as H3.
  eapply sameOutcome_trans; [exact H1|]. eapply sameOutcome_trans; [exact H2|exact H3].
Qed.

(** X21.  A question is scored once.  Once feedback is shown for the
    question on display, no choice, typed answer, timer or other event
    that keeps the question changes the outcome: the question, the
    verdict, energy, score, streaks, combo, the counts of correct and
    incorrect answers, the missed words and the daily goal stay as they
    are until the player moves on (by a rating or a new session). *)
Theorem answered_question_is_scored_once `{Platform} (st : App)
    (trace : list (Z * Event)) :
  feedback st <> idle ->
  Forall (fun occ => sameQuestion occ.2) trace ->
  sameOutcome st (run st trace).
Proof.
  revert st. induction trace as [|occ trace IH]; intros st Hf Hall;
    [apply sameOutcome_refl|].
  inversion Hall as [|? ? Hocc Hrest]; subst.
  pose proof (step_answered st occ Hocc Hf) as H1.
  assert (Hf1 : feedback (step st occ) <> idle).
  { destruct H1 as (_ & -> & _). done. }
  eapply sameOutcome_trans; [exact H1|]. by apply IH.
Qed.

Lemma answered_question_is_scored_once_witness :
  feedback missState <> idle
  /\ Forall (fun occ : Z * Event => sameQuestion occ.2) [(5000, Choose 0); (6000, QuestionTick)]
  /\ s_correct (session (@run asciiPlatform missState
                           [(5000, Choose 0); (6000, QuestionTick)]))
     = s_correct (session missState).
Proof.
  assert (Hf : feedback missState <> idle) by (vm_compute; discriminate).
  assert (Hall : Forall (fun occ : Z * Event => sameQuestion occ.2)
                   [(5000, Choose 0); (6000, QuestionTick)]) by (repeat constructor).
  split; [exact Hf|]. split; [exact Hall|].
  by destruct (@answered_question_is_scored_once asciiPlatform missState _ Hf Hall)
    as (_ & _ & _ & _ & _ & _ & _ & Hc & _).
Defined.

(** X22.  The verdict on a choice.  After every run whose shuffles are
    rearrangements, when an idle choice question is on display and the
    player picks a position of its choice list, the answer is scored as
    correct exactly when the choice at that position carries the word
    asked for; a position outside the list changes nothing. *)
Theorem choice_is_correct_iff_it_carries_the_word `{Platform}
    (stats : gmap (list N) WordStat) (daily : DailyGoal)
    (trace : list (Z * Event)) (q : Question) (index now : Z) :
  Forall (fun occ => validEvent occ.2) trace ->
  let st := run (initialApp stats daily) trace in
  currentQuestion st = Some q ->
  mode q = choice ->
  feedback st = idle ->
  match (if index <? 0 then None else choices q !! Z.to_nat index) with
  | Some c =>
      handleChoice index now st
      = applyAnswer (bool_decide (word c = word (entry q))) now st
      /\ feedback (handleChoice index now st)
         = (if bool_decide (word c = word (entry q)) then correct_fb else wrong_fb)
  | None => handleChoice index now st = st
  end.
Proof.
  intros Hev st Hq Hmode Hf.
  assert (Hinit : appOk (initialApp stats daily)) by (split; [constructor|done]).
  destruct (run_ok trace _ Hev Hinit) as [_ Hok]. fold st in Hok.
  destruct (Hok q Hq Hmode) as (Hr & (c0 & Hc0 & Hw0) & Hu).
  unfold handleChoice. rewrite Hq, Hf.
  destruct (Z.ltb_spec index 0) as [Hneg|Hpos]; [done|]. cbn [orb].
  destruct (choices q !! Z.to_nat index) as [c|] eqn:Ec.
  - pose proof (lookup_lt_Some _ _ _ Ec) as Hlt.
    destruct (Z.geb_spec index (Z.of_nat (length (choices q)))); [lia|].
    assert (Hb : (index =? correctIndex q) = bool_decide (word c = word (entry q))).
    { case_bool_decide as Hw.
      - apply Z.eqb_eq. rewrite <- (Hu _ _ Ec Hw). lia.
      - apply Z.eqb_neq. intros ->. rewrite Hc0 in Ec. by injection Ec as ->. }
    rewrite Hb. split; [done|].
    unfold applyAnswer. by rewrite Hq.
  - apply lookup_ge_None in Ec.
    destruct (Z.geb_spec index (Z.of_nat (length (choices q)))); [done|lia].
Qed.

Lemma choice_is_correct_iff_it_carries_the_word_witness :
  Forall (fun occ => validEvent occ.2) sampleTrace
  /\ feedback (handleChoice (correctIndex sampleQuestion) 9000
                 (@run asciiPlatform (initialApp ∅ sampleDaily) sampleTrace))
     = correct_fb.
Proof.
  assert (Hq : currentQuestion (@run asciiPlatform (initialApp ∅ sampleDaily) sampleTrace)
               = Some sampleQuestion) by (vm_compute; reflexivity).
  assert (Hm : mode sampleQuestion = choice) by (vm_compute; reflexivity).
  assert (Hf : feedback (@run asciiPlatform (initialApp ∅ sampleDaily) sampleTrace) = idle)
    by (vm_compute; reflexivity).
  split; [apply sampleTrace_valid|].
  pose proof (@choice_is_correct_iff_it_carries_the_word asciiPlatform ∅ sampleDaily
                sampleTrace sampleQuestion (correctIndex sampleQuestion) 9000
                sampleTrace_valid Hq Hm Hf) as Hv.
  vm_compute in Hv. vm_compute. exact (proj2 Hv).
Defined.

Lemma applyAnswer_shown isCorrect now st :
  shownGood st -> shownGood (applyAnswer isCorrect now st).
Proof.
  intros Hst. unfold applyAnswer.
  destruct (currentQuestion st) as [q0|] eqn:E; [|done].
  destruct Hst as [Hp Hq]. split; simpl; [done|].
  intros q Hq0. apply Hq. by rewrite <- Hq0.
Qed.

Lemma handle_shown `{Platform} now ev st : shownGood st -> shownGood (handle now ev st).
Proof.
  intros Hst. destruct ev; simpl; try done.
  - by destruct s.
  - destruct Hst as [_ Hq]. split; [apply parseLines_good|done].
  - unfold startSession. destruct (_ <? 2)%nat; [done|]. by apply nextQuestion_shown.
  - unfold handleChoice. destruct (currentQuestion st), (feedback st); try done.
    destruct (_ || _); [done|]. by apply applyAnswer_shown.
  - unfold submitTyped. destruct (currentQuestion st), (feedback st); try done.
    by apply applyAnswer_shown.
  - unfold handleSelfRating. destruct (currentQuestion st) eqn:E; [|done].
    by apply nextQuestion_shown.
  - unfold sessionTick. by destruct (stage st), (paused st), (sessionLength st).
  - unfold questionTick.
    destruct (stage st), (paused st), (feedback st), (difficulty st),
      (currentQuestion st); try done.
    by destruct (_ <=? 0).
Qed.

Lemma effects_shown now st : shownGood st -> shownGood (effects now st).
Proof.
  intros Hst. unfold effects.
  assert (shownGood (if timesOut st then applyAnswer false now st else st))
    by (destruct (timesOut st); [by apply applyAnswer_shown|done]).
  by destruct (sessionEnds st).
Qed.

Lemma run_shown `{Platform} trace : forall st, shownGood st -> shownGood (run st trace).
Proof.
  induction trace as [|occ trace IH]; intros st Hst; [done|].
  apply IH. unfold step, settle. by apply effects_shown, effects_shown, handle_shown.
Qed.

Lemma trimStart_white_app a s :
  whiteOnly a = true -> trimStart (a ++ s) = trimStart s.
Proof.
  unfold whiteOnly. induction a as [|c a IH]; simpl; [done|].
  destruct (isWhite c); [|done]. simpl. exact IH.
Qed.

Lemma trimEnd_white_app s b :
  whiteOnly b = true -> trimEnd (s ++ b) = trimEnd s.
Proof.
  intros Hb. unfold trimEnd. rewrite rev_app_distr.
  rewrite trimStart_white_app; [done|]. unfold whiteOnly in *. by rewrite forallb_rev.
Qed.

(** Stripping a trimmed word padded with white space gives the word. *)
Lemma trim_padded a w b :
  trim w = w -> w <> [] -> whiteOnly a = true -> whiteOnly b = true ->
  trim (a ++ w ++ b) = w.
Proof.
  intros Ht Hne Ha Hb. destruct w as [|c t]; [done|].
  pose proof (trim_head _ _ _ Ht) as Hc.
  unfold trim. rewrite (trimStart_white_app a _ Ha).
  change ((c :: t) ++ b) with (c :: (t ++ b)). rewrite (trimStart_fixed _ _ Hc).
  change (c :: (t ++ b)) with ((c :: t) ++ b). rewrite (trimEnd_white_app _ b Hb).
  unfold trim in Ht. by rewrite (trimStart_fixed _ _ Hc) in Ht.
Qed.

(** X23.  The verdict on a typed answer.  After every run, when an idle
    question is on display and the player types its word, with any
    white space before and after it, submitting scores the answer as
    correct: the feedback is correct and the session has one more
    correct answer. *)
Theorem typed_word_is_accepted `{Platform}
    (stats : gmap (list N) WordStat) (daily : DailyGoal)
    (trace : list (Z * Event)) (q : Question) (pre post : jsstring) (t1 t2 : Z) :
  let st := run (initialApp stats daily) trace in
  currentQuestion st = Some q ->
  feedback st = idle ->
  whiteOnly pre = true -> whiteOnly post = true ->
  let typed := handle t1 (TypeText (pre ++ word (entry q) ++ post)) st in
  feedback (submitTyped t2 typed) = correct_fb
  /\ s_correct (session (submitTyped t2 typed)) = s_correct (session st) + 1
  /\ missedWords (submitTyped t2 typed) = missedWords st.
Proof.
  intros st Hq Hf Hpre Hpost typed.
  assert (Hinit : shownGood (initialApp stats daily)) by (split; [constructor|done]).
  destruct (run_shown trace _ Hinit) as [_ Hgood]. fold st in Hgood.
  destruct (Hgood q Hq) as (Htrim & Hne & _).
  assert (HqT : currentQuestion typed = Some q) by exact Hq.
  assert (HfT : feedback typed = idle) by exact Hf.
  assert (Hty : typedAnswer typed = pre ++ word (entry q) ++ post) by reflexivity.
  unfold submitTyped. rewrite HqT, HfT, Hty.
  rewrite (trim_padded pre _ post Htrim Hne Hpre Hpost).
  rewrite bool_decide_eq_true_2 by done.
  unfold applyAnswer. rewrite HqT. by split_and!.
Qed.

Lemma typed_word_is_accepted_witness :
  feedback (@submitTyped asciiPlatform 9500
              (@handle asciiPlatform 9000
                 (TypeText (str " " ++ word (entry sampleQuestion) ++ str "  "))
                 (@run asciiPlatform (initialApp ∅ sampleDaily) sampleTrace)))
  = correct_fb.
Proof.
  assert (Hq : currentQuestion (@run asciiPlatform (initialApp ∅ sampleDaily) sampleTrace)
               = Some sampleQuestion) by (vm_compute; reflexivity).
  assert (Hf : feedback (@run asciiPlatform (initialApp ∅ sampleDaily) sampleTrace) = idle)
    by (vm_compute; reflexivity).
  assert (Hpre : whiteOnly (str " ") = true) by (vm_compute; reflexivity).
  assert (Hpost : whiteOnly (str "  ") = true) by (vm_compute; reflexivity).
  exact (proj1 (@typed_word_is_accepted asciiPlatform ∅ sampleDaily sampleTrace
                  sampleQuestion (str " ") (str "  ") 9000 9500 Hq Hf Hpre Hpost)).
Defined.





(** X26.  Starting a session.  On a pool of fewer than two entries
    [startSession] does nothing.  Otherwise the stage becomes play with
    a fresh session (energy 100, score 0, the session length in seconds
    or 0 in zen mode on the clock), no missed words, not paused, idle
    feedback and an empty typed answer; the daily goal and the pool are
    kept; and a question on an entry of the pool is on display, a typed
    one in hard difficulty and a choice question otherwise, with five
    seconds on its clock in easy difficulty. *)
Theorem startSession_result (now : Z) (rnd : Random) (st : App) :
  let st' := startSession now rnd st in
  if (length (wordPool st) <? 2)%nat then st' = st
  else
    stage st' = play
    /\ session st'
       = freshSession match sessionLength st with zen => 0 | minutes m => m * 60 end
    /\ missedWords st' = [] /\ paused st' = false /\ feedback st' = idle
    /\ typedAnswer st' = []
    /\ dailyGoal st' = dailyGoal st /\ wordPool st' = wordPool st
    /\ questionTimeLeft st' = match difficulty st with easy => 5 | _ => 0 end
    /\ exists q, currentQuestion st' = Some q /\ In (entry q) (wordPool st)
         /\ lastWordRef st' = Some (word (entry q))
         /\ mode q = match difficulty st with hard => type | _ => choice end.
Proof.
  intros st'. subst st'. unfold startSession.
  destruct (length (wordPool st) <? 2)%nat eqn:El; [done|].
  apply Nat.ltb_ge in El.
  set (st0 := Build_App _ _ _ _ _ _ _ _ _ _ _ _ _ _ _ _ _).
  assert (Hne : wordPool st0 <> []).
  { unfold st0. cbn [wordPool]. intros Hp. rewrite Hp in El. simpl in El. lia. }
  unfold nextQuestion.
  destruct (pickWeighted_nonempty (wordPool st0) (statsRef st0) (lastWordRef st0)
              now (rnd_roll rnd) Hne) as [sampled Hsam].
  pose proof (pickWeighted_In (wordPool st0) (statsRef st0) (lastWordRef st0) now
                (rnd_roll rnd) sampled Hsam) as Hin.
  destruct (pickWeighted _ _ _ _ _) as [picked stats]. simpl in Hsam. subst picked.
  cbn [stage session missedWords paused feedback typedAnswer dailyGoal wordPool
       questionTimeLeft currentQuestion lastWordRef].
  split_and!; try done.
  eexists. split; [done|]. change (wordPool st0) with (wordPool st) in Hin.
  change (difficulty st0) with (difficulty st).
  by destruct (difficulty st).
Qed.

(** ** Weak words and accuracy *)

Lemma weakItems_items entries : forall stats,
  (weakItems entries stats).1 = map (weakItem stats) entries.
Proof.
  induction entries as [|e rest IH]; intros stats; simpl; [done|].
  specialize (IH (ensureStats stats e)).
  destruct (weakItems rest (ensureStats stats e)) as [items stats2]. simpl in *.
  rewrite IH. f_equal.
  - unfold weakItem. by rewrite ensureStats_total.
  - apply map_ext. intros e'. unfold weakItem. by rewrite statOf_ensure.
Qed.

Lemma weakItems_store entries : forall stats,
  (weakItems entries stats).2 = fold_left ensureStats entries stats.
Proof.
  induction entries as [|e rest IH]; intros stats; simpl; [done|].
  specialize (IH (ensureStats stats e)).
  by destruct (weakItems rest (ensureStats stats e)) as [items stats2].
Qed.

Lemma insertByMastery_Permutation item sorted :
  insertByMastery item sorted ≡ₚ item :: sorted.
Proof.
  induction sorted as [|other rest IH]; simpl; [done|].
  destruct (Qle_bool _ _); [done|]. rewrite IH. apply Permutation_swap.
Qed.

Lemma sortByMastery_Permutation items : sortByMastery items ≡ₚ items.
Proof.
  induction items as [|item rest IH]; simpl; [done|].
  rewrite insertByMastery_Permutation. by rewrite IH.
Qed.

Lemma insertByMastery_ascending item sorted :
  ascending sorted -> ascending (insertByMastery item sorted).
Proof.
  induction sorted as [|other rest IH]; simpl; [done|].
  intros [Hall Hrest]. destruct (Qle_bool _ _) eqn:E.
  - apply Qle_bool_iff in E. simpl. split_and!; try done.
    constructor; [done|]. eapply Forall_impl; [exact Hall|].
    intros b Hb. simpl in Hb. by apply (Qle_trans _ (w_mastery other)).
  - assert (Hlt : (w_mastery other <= w_mastery item)%Q).
    { destruct (Qlt_le_dec (w_mastery other) (w_mastery item)) as [Hl|Hl].
      - by apply Qlt_le_weak.
      - apply Qle_bool_iff in Hl. congruence. }
    simpl. split; [|by apply IH].
    rewrite insertByMastery_Permutation. by constructor.
Qed.

Lemma sortByMastery_ascending items : ascending (sortByMastery items).
Proof.
  induction items as [|item rest IH]; simpl; [done|].
  by apply insertByMastery_ascending.
Qed.

Lemma ascending_take n : forall l, ascending l -> ascending (take n l).
Proof.
  induction n as [|n IH]; intros [|a l]; simpl; try done.
  intros [Hall Hrest]. split; [|by apply IH].
  by apply Forall_take.
Qed.

Lemma ascending_take_drop n : forall l a b,
  ascending l -> a ∈ take n l -> b ∈ drop n l -> (w_mastery a <= w_mastery b)%Q.
Proof.
  induction n as [|n IH]; intros [|x l] a b Hl Ha Hb; simpl in *;
    try (by apply elem_of_nil in Ha).
  destruct Hl as [Hall Hrest]. apply elem_of_cons in Ha as [->|Ha].
  - rewrite List.Forall_forall in Hall. apply Hall. apply list_elem_of_In.
    rewrite <- (take_drop n l). apply elem_of_app. by right.
  - by apply (IH l).
Qed.


Lemma ratio_bounds (c t : Z) :
  0 <= c <= t -> 0 < t -> (0 <= inject_Z c / inject_Z t * 100 <= 100)%Q.
Proof.
  intros Hc Ht.
  assert (Htq : (0 < inject_Z t)%Q) by (change 0%Q with (inject_Z 0); by rewrite <- Zlt_Qlt).
  assert (Hcq : (0 <= inject_Z c)%Q) by (change 0%Q with (inject_Z 0); rewrite <- Zle_Qle; lia).
  assert (Hct : (inject_Z c <= inject_Z t)%Q) by (rewrite <- Zle_Qle; lia).
  assert (H0 : (0 <= inject_Z c / inject_Z t)%Q).
  { apply Qle_shift_div_l; [done|]. by rewrite Qmult_0_l. }
  assert (H1 : (inject_Z c / inject_Z t <= 1)%Q).
  { apply Qle_shift_div_r; [done|]. by rewrite Qmult_1_l. }
  split; lra.
Qed.

(** X28.  The accuracy shown in the summary is a percentage: after every
    run it is between 0 and 100; it is 0 while the session has no
    correct answer (in particular when nothing was answered, where the
    division is not made), and 100 when it has correct answers only. *)
Theorem accuracy_is_a_percentage `{Platform}
    (stats : gmap (list N) WordStat) (daily : DailyGoal)
    (trace : list (Z * Event)) :
  let s := session (run (initialApp stats daily) trace) in
  0 <= accuracy s <= 100
  /\ (if s_correct s =? 0 then accuracy s = 0
      else if s_incorrect s =? 0 then accuracy s = 100
      else True).
Proof.
  intros s.
  destruct (run_sessionOk trace _ (initialApp_sessionOk stats daily))
    as (_ & Hs & Hl & Hi & _). fold s in Hs, Hl, Hi.
  assert (Hc : 0 <= s_correct s) by lia. clearbody s.
  assert (F0 : Qfloor (0 + (1 # 2))%Q = 0) by (vm_compute; reflexivity).
  assert (F1 : Qfloor (100 + (1 # 2))%Q = 100) by (vm_compute; reflexivity).
  unfold accuracy, roundQ.
  destruct (Z.gtb_spec (s_correct s + s_incorrect s) 0) as [Hpos|Hzero].
  - destruct (ratio_bounds (s_correct s) (s_correct s + s_incorrect s)
                ltac:(lia) ltac:(lia)) as [R0 R1].
    split.
    + split.
      * rewrite <- F0 at 1. apply Qfloor_resp_le. lra.
      * rewrite <- F1 at 2. apply Qfloor_resp_le. lra.
    + destruct (Z.eqb_spec (s_correct s) 0) as [E0|N0].
      * rewrite E0. rewrite <- F0 at 3. apply Qfloor_comp.
        generalize (inject_Z (0 + s_incorrect s)). intros x.
        unfold Qdiv. change (inject_Z 0) with 0%Q.
        assert (Hx : (0 * / x * 100 == 0)%Q) by ring.
        rewrite Hx. reflexivity.
      * destruct (Z.eqb_spec (s_incorrect s) 0) as [E1|N1]; [|done].
        rewrite E1, Z.add_0_r.
        rewrite <- F1 at 2. apply Qfloor_comp.
        assert (Hq : ~ (inject_Z (s_correct s) == 0)%Q).
        { change 0%Q with (inject_Z 0). rewrite inject_Z_injective. lia. }
        field. exact Hq.
  - split; [lia|].
    destruct (Z.eqb_spec (s_correct s) 0); [done|lia].
Qed.
